(** * Cluster autoscaler: managed-instance-group registry, removal simulator,
      utilization and candidate capping.

    A shallow embedding of
    - the GCE manager (RegisterMig, UnregisterMig, GetMigForInstance,
      regenerateCache, fetchAllNodePoolsGkeNapImpl),
    - the simulator (FindNodesToRemove, findPlaceFor, CalculateUtilization),
    - the candidate capping of the unneeded-node update,
    with the properties the specification states about them. *)

From Stdlib Require Import ZArith List Ascii String Lia QArith Qround Qminmax.
From Stdlib Require Import Floats.
From stdpp Require Import base gmap strings list.

#[local] Set Warnings "-clear-no-such-hyp".

Local Open Scope string_scope.
Local Open Scope list_scope.
Local Open Scope Z_scope.

(** ** The GCE manager *)

Module Gce.

(** GceRef: the {Project, Zone, Name} triple, compared with [==] in the
    source and used as the key of the instance cache. *)
Record GceRef := mkGceRef { Project : string; Zone : string; Name : string }.

#[global] Instance GceRef_eq_dec : EqDecision GceRef.
Proof. solve_decision. Defined.

#[global] Instance GceRef_countable : Countable GceRef.
Proof.
  refine (inj_countable' (fun r => (Project r, Zone r, Name r))
            (fun t => mkGceRef t.1.1 t.1.2 t.2) _).
  by intros [].
Defined.

(** The manager object a group points back to. [reflect.DeepEqual] follows
    the pointer held by the interface value: two references are deeply equal
    when they are the same pointer or point to deeply equal managers, so a
    reference is identified here with the deep-equality class of the manager
    it points to. A nil interface value is [None]. *)
Definition ManagerRef := nat.

(** Modelled from the spec: the struct autoprovisioningSpec is declared
    outside the given sources; its fields are the ones the sources read
    (spec.machineType, spec.labels). A Go map is nil or a map, and
    [reflect.DeepEqual] tells the two apart. *)
Record autoprovisioningSpec := mkSpec {
  machineType : string;
  labels : option (gmap string string)
}.

#[global] Instance autoprovisioningSpec_eq_dec : EqDecision autoprovisioningSpec.
Proof. solve_decision. Defined.

(** Modelled from the spec: the struct Mig is declared outside the given
    sources; its fields are the ones of the composite literals in
    fetchAllNodePoolsGkeNapImpl and of the data model of the specification
    (identity, back-reference to the manager, size bounds, autoprovisioned
    and exist flags, node pool name, optional creation spec). *)
Record Mig := mkMig {
  ref : GceRef;
  gceManager : option ManagerRef;
  minSize : Z;
  maxSize : Z;
  autoprovisioned : bool;
  exist : bool;
  nodePoolName : string;
  spec : option autoprovisioningSpec
}.

#[global] Instance Mig_eq_dec : EqDecision Mig.
Proof. solve_decision. Defined.

(** [reflect.DeepEqual(oldMig, mig)] on two [*Mig]: equal pointers, or
    pointees equal field by field, every field taking part. *)
Definition DeepEqual (a b : Mig) : bool := bool_decide (a = b).

(** The comparison the specification describes: the descriptive fields only,
    the back-reference to the manager left out. *)
Definition sameDescriptiveFields (a b : Mig) : bool :=
  bool_decide (ref a = ref b) && bool_decide (minSize a = minSize b)
  && bool_decide (maxSize a = maxSize b)
  && bool_decide (autoprovisioned a = autoprovisioned b)
  && bool_decide (exist a = exist b)
  && bool_decide (nodePoolName a = nodePoolName b)
  && bool_decide (spec a = spec b).

Record migInformation := mkInfo { config : Mig; basename : string }.

Inductive GcpCloudProviderMode := ModeGCE | ModeGKE | ModeGKENAP.

#[global] Instance GcpCloudProviderMode_eq_dec : EqDecision GcpCloudProviderMode.
Proof. solve_decision. Defined.

(** gceManagerImpl: the registry, the instance cache and the configuration
    the modelled methods read. [self] is the value of the receiver pointer
    [m], stored in the groups the manager creates. The service handles are
    the cloud parameters of the section below; the two mutexes serialise
    calls and have no counterpart in a sequential model. *)
Record gceManagerImpl := mkManager {
  migs : list migInformation;
  migCache : gmap GceRef Mig;
  zone : string;
  projectId : string;
  clusterName : string;
  mode : GcpCloudProviderMode;
  self : ManagerRef
}.

Definition set_migs (l : list migInformation) (m : gceManagerImpl) : gceManagerImpl :=
  mkManager l (migCache m) (zone m) (projectId m) (clusterName m) (mode m) (self m).

Definition set_migCache (c : gmap GceRef Mig) (m : gceManagerImpl) : gceManagerImpl :=
  mkManager (migs m) c (zone m) (projectId m) (clusterName m) (mode m) (self m).

(** Errors: the ones of the collaborators (opaque), and the two
    GetMigForInstance builds. *)
Inductive error :=
| ExternalError (msg : string)
| ErrLookingForMig (instance : GceRef) (cause : error)
| ErrNotInAnyMig (instance : GceRef).

Inductive result (A : Type) :=
| Ok (a : A)
| Err (e : error).
Arguments Ok {A} a.
Arguments Err {A} e.

(** *** RegisterMig, UnregisterMig *)

(** The loop of RegisterMig over [m.migs]: [Some (l', changed)] when an entry
    with the identity of [mig] was met (the loop returns there), [None] when
    the loop runs to its end. *)
Fixpoint registerLoop (mig : Mig) (l : list migInformation)
  : option (list migInformation * bool) :=
  match l with
  | [] => None
  | mi :: rest =>
      if decide (ref (config mi) = ref mig) then
        if negb (DeepEqual (config mi) mig)
        then Some (mkInfo mig (basename mi) :: rest, true)
        else Some (mi :: rest, false)
      else
        match registerLoop mig rest with
        | Some (rest', b) => Some (mi :: rest', b)
        | None => None
        end
  end.

(** RegisterMig. The template precomputation after an insertion only logs
    its failure and leaves the manager as it is. *)
Definition RegisterMig (mig : Mig) (m : gceManagerImpl) : gceManagerImpl * bool :=
  match registerLoop mig (migs m) with
  | Some (l', b) => (set_migs l' m, b)
  | None => (set_migs (migs m ++ [mkInfo mig ""]) m, true)
  end.

Fixpoint unregisterLoop (toBeRemoved : Mig) (l : list migInformation)
  (newMigs : list migInformation) (found : bool) : list migInformation * bool :=
  match l with
  | [] => (newMigs, found)
  | mi :: rest =>
      if decide (ref (config mi) = ref toBeRemoved)
      then unregisterLoop toBeRemoved rest newMigs true
      else unregisterLoop toBeRemoved rest (newMigs ++ [mi]) found
  end.

Definition UnregisterMig (toBeRemoved : Mig) (m : gceManagerImpl) : gceManagerImpl * bool :=
  let '(newMigs, found) := unregisterLoop toBeRemoved (migs m) [] false in
  (set_migs newMigs m, found).

(** getMigs: a copy of the registry entries (the configs are shared). *)
Definition getMigs (m : gceManagerImpl) : list migInformation :=
  map (fun mi => mkInfo (config mi) (basename mi)) (migs m).

Definition updateMigBasename (r : GceRef) (base : string) (m : gceManagerImpl)
  : gceManagerImpl :=
  set_migs (map (fun mi => if decide (ref (config mi) = r)
                           then mkInfo (config mi) base else mi) (migs m)) m.

(** The registered groups, and the first one with a given identity. *)
Definition registered (m : gceManagerImpl) : list Mig := map config (migs m).

Definition lookupMig (r : GceRef) (m : gceManagerImpl) : option Mig :=
  config <$> List.find (fun mi => bool_decide (ref (config mi) = r)) (migs m).

(** Register / Unregister sequences. *)
Inductive registryOp :=
| OpRegister (g : Mig)
| OpUnregister (g : Mig).

Definition applyOp (m : gceManagerImpl) (op : registryOp) : gceManagerImpl :=
  match op with
  | OpRegister g => (RegisterMig g m).1
  | OpUnregister g => (UnregisterMig g m).1
  end.

Definition applyOps (ops : list registryOp) (m : gceManagerImpl) : gceManagerImpl :=
  fold_left applyOp ops m.

(** *** The cloud collaborator *)

(** Node pools as the listing returns them. *)
Record NodePoolAutoscaling := mkAutoscaling {
  Enabled : bool;
  Autoprovisioned : bool;
  MinNodeCount : Z;
  MaxNodeCount : Z
}.

Record NodePool := mkNodePool {
  poolName : string;
  Autoscaling : option NodePoolAutoscaling;
  InstanceGroupUrls : list string
}.

(** What a reconcile pass did, in order: the warning it logged, the calls it
    made to RegisterMig and UnregisterMig with what they returned, and the
    call to regenerateCache. *)
Inductive event :=
| Warned (pool : string)
| Registered (g : Mig) (changed : bool)
| Unregistered (g : Mig) (removed : bool)
| Regenerated.

Inductive fetchOutcome :=
| Fatal
| Done (m : gceManagerImpl) (trace : list event) (err : option error).

Section Cloud.

(** InstanceGroupManagers.Get(project, zone, name): the BaseInstanceName. *)
Variable igmGet : GceRef -> result string.
(** InstanceGroupManagers.ListManagedInstances(project, zone, name): the
    instance URLs of the managed instances. *)
Variable igmListManagedInstances : GceRef -> result (list string).
(** ParseInstanceUrl and parseGceUrl(_, "instanceGroupManagers"): helpers of
    the package declared outside the given sources. *)
Variable ParseInstanceUrl : string -> result GceRef.
Variable parseGceUrl : string -> result GceRef.
(** NodePools.List(projectId, zone, clusterName). *)
Variable nodePoolsList : string -> string -> string -> result (list NodePool).

(** *** regenerateCache *)

Fixpoint addInstances (mig : Mig) (urls : list string) (newMigCache : gmap GceRef Mig)
  : result (gmap GceRef Mig) :=
  match urls with
  | [] => Ok newMigCache
  | u :: rest =>
      match ParseInstanceUrl u with
      | Err e => Err e
      | Ok r => addInstances mig rest (<[r := mig]> newMigCache)
      end
  end.

Fixpoint regenerateLoop (snapshot : list migInformation) (m : gceManagerImpl)
  (newMigCache : gmap GceRef Mig) : gceManagerImpl * result (gmap GceRef Mig) :=
  match snapshot with
  | [] => (m, Ok newMigCache)
  | migInfo :: rest =>
      let mig := config migInfo in
      match igmGet (ref mig) with
      | Err e => (m, Err e)
      | Ok base =>
          let m1 := updateMigBasename (ref (config migInfo)) base m in
          match igmListManagedInstances (ref mig) with
          | Err e => (m1, Err e)
          | Ok urls =>
              match addInstances mig urls newMigCache with
              | Err e => (m1, Err e)
              | Ok c => regenerateLoop rest m1 c
              end
          end
      end
  end.

Definition regenerateCache (m : gceManagerImpl) : gceManagerImpl * option error :=
  match regenerateLoop (getMigs m) m ∅ with
  | (m', Ok c) => (set_migCache c m', None)
  | (m', Err e) => (m', Some e)
  end.

(** *** GetMigForInstance *)

Definition claims (instance : GceRef) (mig : migInformation) : bool :=
  bool_decide (Project (ref (config mig)) = Project instance)
  && bool_decide (Zone (ref (config mig)) = Zone instance)
  && String.prefix (basename mig) (Name instance).

(** The loop over [m.getMigs()]: at the first group that claims the instance
    the cache is regenerated and the function returns. *)
Fixpoint lookupLoop (instance : GceRef) (snapshot : list migInformation)
  (m : gceManagerImpl) : gceManagerImpl * (option Mig * option error) :=
  match snapshot with
  | [] => (m, (None, None))
  | mig :: rest =>
      if claims instance mig then
        match regenerateCache m with
        | (m', Some e) => (m', (None, Some (ErrLookingForMig instance e)))
        | (m', None) =>
            match migCache m' !! instance with
            | Some g => (m', (Some g, None))
            | None => (m', (None, Some (ErrNotInAnyMig instance)))
            end
        end
      else lookupLoop instance rest m
  end.

Definition GetMigForInstance (instance : GceRef) (m : gceManagerImpl)
  : gceManagerImpl * (option Mig * option error) :=
  match migCache m !! instance with
  | Some mig => (m, (Some mig, None))
  | None => lookupLoop instance (getMigs m) m
  end.

(** *** fetchAllNodePoolsGkeNapImpl *)


Definition isAutoscaled (np : NodePool) : bool :=
  match Autoscaling np with Some a => Enabled a | None => false end.

(** The group built for one instance-group URL of an autoscaled pool. *)
Definition migOfPool (m : gceManagerImpl) (np : NodePool) (a : NodePoolAutoscaling)
  (r : GceRef) : Mig :=
  mkMig r (Some (self m)) (MinNodeCount a) (MaxNodeCount a) (Autoprovisioned a) true
        (poolName np) None.

(** The accumulator of the two loops. *)
Record passState := mkPass {
  manager : gceManagerImpl;
  existingMigs : gset GceRef;
  changed : bool;
  trace : list event
}.

(** The inner loop over the instance-group URLs of one pool. *)
Fixpoint registerUrls (np : NodePool) (a : NodePoolAutoscaling) (urls : list string)
  (s : passState) : passState * option error :=
  match urls with
  | [] => (s, None)
  | igurl :: rest =>
      match parseGceUrl igurl with
      | Err e => (s, Some e)
      | Ok r =>
          let mig := migOfPool (manager s) np a r in
          let '(m', b) := RegisterMig mig (manager s) in
          registerUrls np a rest
            (mkPass m' ({[ ref mig ]} ∪ existingMigs s) (b || changed s)
                    (trace s ++ [Registered mig b]))
      end
  end.

(** The outer loop over the node pools. *)
Fixpoint registerPools (pools : list NodePool) (s : passState) : passState * option error :=
  match pools with
  | [] => (s, None)
  | np :: rest =>
      match Autoscaling np with
      | Some a =>
          if Enabled a then
            match registerUrls np a (InstanceGroupUrls np) s with
            | (s', Some e) => (s', Some e)
            | (s', None) => registerPools rest s'
            end
          else if Autoprovisioned a then
            registerPools rest
              (mkPass (manager s) (existingMigs s) (changed s) (trace s ++ [Warned (poolName np)]))
          else registerPools rest s
      | None => registerPools rest s
      end
  end.

(** The loop over [m.getMigs()] that unregisters the groups the listing did
    not name. *)
Fixpoint unregisterAbsent (snapshot : list migInformation) (s : passState) : passState :=
  match snapshot with
  | [] => s
  | mig :: rest =>
      if decide (ref (config mig) ∈ existingMigs s) then unregisterAbsent rest s
      else
        let '(m', b) := UnregisterMig (config mig) (manager s) in
        unregisterAbsent rest
          (mkPass m' (existingMigs s) true (trace s ++ [Unregistered (config mig) b]))
  end.

Definition fetchAllNodePoolsGkeNapImpl (m : gceManagerImpl) : fetchOutcome :=
  if negb (bool_decide (mode m = ModeGKENAP)) then Fatal
  else
    match nodePoolsList (projectId m) (zone m) (clusterName m) with
    | Err e => Done m [] (Some e)
    | Ok pools =>
        match registerPools pools (mkPass m ∅ false []) with
        | (s, Some e) => Done (manager s) (trace s) (Some e)
        | (s, None) =>
            let s' := unregisterAbsent (getMigs (manager s)) s in
            if changed s' then
              let '(m', err) := regenerateCache (manager s') in
              Done m' (trace s' ++ [Regenerated]) err
            else Done (manager s') (trace s') None
        end
    end.

(** *** Facts about the registry operations *)

Lemma registerLoop_None (g : Mig) (l : list migInformation) :
  registerLoop g l = None <->
  List.find (fun mi => bool_decide (ref (config mi) = ref g)) l = None.
Proof.
  induction l as [|mi rest IH]; simpl; [done|].
  destruct (decide (ref (config mi) = ref g)) as [E|E].
  - rewrite bool_decide_eq_true_2 by done.
    destruct (negb _); split; discriminate.
  - rewrite bool_decide_eq_false_2 by done.
    destruct (registerLoop g rest) as [[rest' b]|]; [|tauto].
    split; [discriminate|]. intros H. apply IH in H. discriminate.
Qed.

Lemma registerLoop_Some (g : Mig) (l l' : list migInformation) (b : bool) :
  registerLoop g l = Some (l', b) ->
  exists mi, List.find (fun mi => bool_decide (ref (config mi) = ref g)) l = Some mi
             /\ b = negb (DeepEqual (config mi) g)
             /\ (b = false -> l' = l)
             /\ map (fun x => ref (config x)) l' = map (fun x => ref (config x)) l.
Proof.
  revert l' b. induction l as [|mi rest IH]; simpl; intros l' b H; [done|].
  destruct (decide (ref (config mi) = ref g)) as [E|E].
  - rewrite bool_decide_eq_true_2 by done. exists mi.
    destruct (DeepEqual (config mi) g) eqn:D; simpl in H; simplify_eq; simpl;
      repeat split; try done. by rewrite E.
  - rewrite bool_decide_eq_false_2 by done.
    destruct (registerLoop g rest) as [[rest' b']|] eqn:R; [|done].
    simplify_eq. destruct (IH _ _ eq_refl) as (x & F & B & U & M).
    exists x. repeat split; try done.
    + intros Hb. by rewrite (U Hb).
    + simpl. by rewrite M.
Qed.

Lemma set_migs_id (m : gceManagerImpl) : set_migs (migs m) m = m.
Proof. by destruct m. Qed.

Lemma unregisterLoop_spec (g : Mig) (l acc : list migInformation) (found : bool) :
  unregisterLoop g l acc found =
  (acc ++ List.filter (fun mi => negb (bool_decide (ref (config mi) = ref g))) l,
   found || existsb (fun mi => bool_decide (ref (config mi) = ref g)) l).
Proof.
  revert acc found. induction l as [|mi rest IH]; intros acc found; simpl.
  - by rewrite app_nil_r, orb_false_r.
  - destruct (decide (ref (config mi) = ref g)) as [E|E].
    + rewrite bool_decide_eq_true_2 by done. simpl. rewrite IH.
      by rewrite orb_true_r.
    + rewrite bool_decide_eq_false_2 by done. simpl. rewrite IH.
      by rewrite <- app_assoc.
Qed.

Lemma UnregisterMig_migs (g : Mig) (m : gceManagerImpl) :
  migs (UnregisterMig g m).1 =
  List.filter (fun mi => negb (bool_decide (ref (config mi) = ref g))) (migs m).
Proof.
  unfold UnregisterMig. rewrite unregisterLoop_spec. by destruct m.
Qed.

Lemma UnregisterMig_found (g : Mig) (m : gceManagerImpl) :
  (UnregisterMig g m).2 =
  existsb (fun mi => bool_decide (ref (config mi) = ref g)) (migs m).
Proof. unfold UnregisterMig. by rewrite unregisterLoop_spec. Qed.

(** With the same back-reference on both sides, [reflect.DeepEqual] is the
    comparison of the descriptive fields. *)
Lemma DeepEqual_same_manager (a b : Mig) :
  gceManager a = gceManager b -> DeepEqual a b = sameDescriptiveFields a b.
Proof.
  intros Hm. unfold DeepEqual, sameDescriptiveFields.
  destruct a, b; simpl in *; subst.
  repeat case_bool_decide; simpl; congruence.
Qed.


Lemma RegisterMig_identities (g : Mig) (m : gceManagerImpl) :
  map (fun x => ref (config x)) (migs (RegisterMig g m).1) =
    map (fun x => ref (config x)) (migs m)
    ++ (match lookupMig (ref g) m with Some _ => [] | None => [ref g] end).
Proof.
  unfold RegisterMig, lookupMig.
  destruct (registerLoop g (migs m)) as [[l' b]|] eqn:R.
  - destruct (registerLoop_Some _ _ _ _ R) as (mi & F & _ & _ & M).
    rewrite F. simpl. by rewrite M, app_nil_r.
  - apply registerLoop_None in R. rewrite R. simpl. by rewrite map_app.
Qed.

(** C3 (as the code has it): RegisterMig returns true exactly when no
    registered group has the identity of [g], or the first registered group
    with that identity differs from [g] under [reflect.DeepEqual] on the whole
    struct, the back-reference to the manager and the creation spec included;
    when it returns false the manager is left as it was. *)
Theorem RegisterMig_true_iff (g : Mig) (m : gceManagerImpl) :
  ((RegisterMig g m).2 = true <->
     lookupMig (ref g) m = None \/
     exists old, lookupMig (ref g) m = Some old /\ DeepEqual old g = false) /\
  ((RegisterMig g m).2 = false -> (RegisterMig g m).1 = m) /\
  map (fun x => ref (config x)) (migs (RegisterMig g m).1) =
    map (fun x => ref (config x)) (migs m)
    ++ (match lookupMig (ref g) m with Some _ => [] | None => [ref g] end).
Proof.
  unfold RegisterMig, lookupMig.
  destruct (registerLoop g (migs m)) as [[l' b]|] eqn:R.
  - destruct (registerLoop_Some _ _ _ _ R) as (mi & F & B & U & M).
    rewrite F. simpl. split; [|split].
    + split.
      * intros ->. right. exists (config mi). split; [done|].
        by destruct (DeepEqual (config mi) g).
      * intros [H|(old & H & D)]; [done|]. simplify_eq. by rewrite D.
    + intros Hb. rewrite (U Hb). apply set_migs_id.
    + by rewrite M, app_nil_r.
  - apply registerLoop_None in R. rewrite R. simpl. split; [|split].
    + split; [by left|done].
    + done.
    + by rewrite map_app.
Qed.

(** The claim of C3 as the specification words it fails: a group that
    differs from the registered one in nothing but the back-reference (nil
    instead of the manager) makes RegisterMig answer true. *)
Definition cex_ref : GceRef := mkGceRef "project1" "us-central1-b" "gke-cluster-1-default-pool".
Definition cex_old : Mig := mkMig cex_ref (Some 1%nat) 1 11 false true "default-pool" None.
Definition cex_new : Mig := mkMig cex_ref None 1 11 false true "default-pool" None.
Definition cex_manager : gceManagerImpl :=
  mkManager [mkInfo cex_old ""] ∅ "us-central1-b" "project1" "cluster1" ModeGKE 1%nat.

Lemma RegisterMig_backreference_counterexample :
  (RegisterMig cex_new cex_manager).2 = true /\
  lookupMig (ref cex_new) cex_manager = Some cex_old /\
  sameDescriptiveFields cex_old cex_new = true.
Proof. repeat split. Qed.

(** *** Facts about the cache *)

(** The cloud reports [inst] as a live member of the group [g]. *)
Definition reportsLive (g : Mig) (inst : GceRef) : Prop :=
  exists urls u, igmListManagedInstances (ref g) = Ok urls /\ u ∈ urls
                 /\ ParseInstanceUrl u = Ok inst.

(** Some registered group claims the instance: same project, same zone, and
    the group's basename is a prefix of the instance name. *)
Definition claimed (instance : GceRef) (m : gceManagerImpl) : Prop :=
  exists mi, mi ∈ migs m
    /\ Project (ref (config mi)) = Project instance
    /\ Zone (ref (config mi)) = Zone instance
    /\ String.prefix (basename mi) (Name instance) = true.

Lemma getMigs_eq (m : gceManagerImpl) : getMigs m = migs m.
Proof.
  unfold getMigs. induction (migs m) as [|[c b] l IH]; simpl; [done|].
  by rewrite IH.
Qed.

Lemma claims_true (instance : GceRef) (mi : migInformation) :
  claims instance mi = true <->
  Project (ref (config mi)) = Project instance
  /\ Zone (ref (config mi)) = Zone instance
  /\ String.prefix (basename mi) (Name instance) = true.
Proof.
  unfold claims. rewrite !andb_true_iff, !bool_decide_eq_true. tauto.
Qed.

Lemma lookupLoop_unclaimed (instance : GceRef) (l : list migInformation) (m : gceManagerImpl) :
  (forall mi, mi ∈ l -> claims instance mi = false) ->
  lookupLoop instance l m = (m, (None, None)).
Proof.
  induction l as [|mi rest IH]; simpl; intros H; [done|].
  rewrite (H mi) by left. apply IH. intros x Hx. apply H. by right.
Qed.

Lemma lookupLoop_claimed (instance : GceRef) (l : list migInformation) (m : gceManagerImpl) :
  (exists mi, mi ∈ l /\ claims instance mi = true) ->
  lookupLoop instance l m =
  match regenerateCache m with
  | (m', Some e) => (m', (None, Some (ErrLookingForMig instance e)))
  | (m', None) =>
      match migCache m' !! instance with
      | Some g => (m', (Some g, None))
      | None => (m', (None, Some (ErrNotInAnyMig instance)))
      end
  end.
Proof.
  induction l as [|mi rest IH]; simpl; intros (x & Hx & Hc).
  - by apply elem_of_nil in Hx.
  - destruct (claims instance mi) eqn:C; [done|].
    apply IH. apply elem_of_cons in Hx as [->|Hx]; [congruence|eauto].
Qed.

Lemma updateMigBasename_registered (r : GceRef) (b : string) (m : gceManagerImpl) :
  registered (updateMigBasename r b m) = registered m.
Proof.
  unfold registered, updateMigBasename. simpl. rewrite map_map.
  apply map_ext. intros mi. by destruct (decide _).
Qed.

Lemma updateMigBasename_migCache (r : GceRef) (b : string) (m : gceManagerImpl) :
  migCache (updateMigBasename r b m) = migCache m.
Proof. done. Qed.

Lemma addInstances_spec (g : Mig) (urls : list string) (c c' : gmap GceRef Mig) :
  addInstances g urls c = Ok c' ->
  (forall inst h, c' !! inst = Some h ->
     (h = g /\ exists u, u ∈ urls /\ ParseInstanceUrl u = Ok inst) \/ c !! inst = Some h)
  /\ (forall u inst, u ∈ urls -> ParseInstanceUrl u = Ok inst -> c' !! inst = Some g)
  /\ (forall inst, is_Some (c !! inst) -> is_Some (c' !! inst)).
Proof.
  revert c. induction urls as [|u rest IH]; simpl; intros c H.
  - simplify_eq. repeat split; [by right|by intros ?? ?%elem_of_nil|done].
  - destruct (ParseInstanceUrl u) as [r|e] eqn:P; [|done].
    destruct (IH _ H) as (A & B & C). repeat split.
    + intros inst h Hh. destruct (A _ _ Hh) as [(-> & x & Hx & Px)|Hc].
      * left. split; [done|]. exists x. split; [by right|done].
      * destruct (decide (r = inst)) as [->|Hne].
        -- rewrite lookup_insert_eq in Hc. simplify_eq. left. split; [done|].
           exists u. split; [by left|done].
        -- rewrite lookup_insert_ne in Hc by done. by right.
    + intros x inst Hx Px. apply elem_of_cons in Hx as [->|Hx]; [|by eapply B].
      rewrite P in Px. simplify_eq.
      assert (Hs : is_Some ((<[inst:=g]> c) !! inst)) by (rewrite lookup_insert_eq; eauto).
      destruct (C _ Hs) as [h Hh]. destruct (A _ _ Hh) as [(-> & _)|Hc]; [done|].
      rewrite lookup_insert_eq in Hc. by simplify_eq.
    + intros inst Hs. apply C. destruct (decide (r = inst)) as [->|Hne].
      * rewrite lookup_insert_eq. eauto.
      * by rewrite lookup_insert_ne.
Qed.

Lemma regenerateLoop_spec (l : list migInformation) (m m' : gceManagerImpl)
  (c c' : gmap GceRef Mig) :
  regenerateLoop l m c = (m', Ok c') ->
  registered m' = registered m
  /\ migCache m' = migCache m
  /\ (forall inst h, c' !! inst = Some h ->
        (h ∈ map config l /\ reportsLive h inst) \/ c !! inst = Some h)
  /\ (forall g inst, g ∈ map config l -> reportsLive g inst -> is_Some (c' !! inst))
  /\ (forall inst, is_Some (c !! inst) -> is_Some (c' !! inst)).
Proof.
  revert m c. induction l as [|mi rest IH]; simpl; intros m c H.
  - simplify_eq. repeat split; [by right|by intros ?? ?%elem_of_nil|done].
  - destruct (igmGet (ref (config mi))) as [base|e]; [|done].
    destruct (igmListManagedInstances (ref (config mi))) as [urls|e] eqn:L; [|done].
    destruct (addInstances (config mi) urls c) as [c1|e] eqn:A; [|done].
    destruct (IH _ _ H) as (R & MC & I1 & I2 & I3).
    destruct (addInstances_spec _ _ _ _ A) as (A1 & A2 & A3).
    split; [by rewrite R, updateMigBasename_registered|].
    split; [done|]. repeat split.
    + intros inst h Hh. destruct (I1 _ _ Hh) as [[Hin Hr]|Hc].
      * left. split; [by right|done].
      * destruct (A1 _ _ Hc) as [(-> & u & Hu & Pu)|Hc'].
        -- left. split; [by left|]. by exists urls, u.
        -- by right.
    + intros g inst Hg Hr. apply elem_of_cons in Hg as [->|Hg]; [|by eapply I2].
      destruct Hr as (urls' & u & L' & Hu & Pu). rewrite L in L'. simplify_eq.
      apply I3. rewrite (A2 _ _ Hu Pu). eauto.
    + intros inst Hs. by apply I3, A3.
Qed.

Lemma regenerateCache_ok (m m' : gceManagerImpl) :
  regenerateCache m = (m', None) ->
  registered m' = registered m
  /\ (forall inst h, migCache m' !! inst = Some h ->
        h ∈ registered m' /\ reportsLive h inst)
  /\ (forall g inst, g ∈ registered m' -> reportsLive g inst ->
        exists h, migCache m' !! inst = Some h /\ h ∈ registered m' /\ reportsLive h inst).
Proof.
  unfold regenerateCache.
  destruct (regenerateLoop (getMigs m) m ∅) as [m1 [c|e]] eqn:R; [|done].
  intros H. simplify_eq. rewrite getMigs_eq in R.
  destruct (regenerateLoop_spec _ _ _ _ _ R) as (Hr & _ & I1 & I2 & _).
  assert (Hreg : registered (set_migCache c m1) = registered m) by done.
  rewrite Hreg. split; [done|].
  assert (K : forall inst h, c !! inst = Some h -> h ∈ registered m /\ reportsLive h inst).
  { intros inst h Hh. destruct (I1 _ _ Hh) as [?|Hc]; [done|].
    by rewrite lookup_empty in Hc. }
  split; [exact K|].
  intros g inst Hg Hl. destruct (I2 g inst Hg Hl) as [h Hh].
  exists h. split; [done|]. by apply K.
Qed.

(** C4: after any sequence of RegisterMig / UnregisterMig calls, a
    successful regeneration leaves the registry membership as it was and a
    cache whose entries are exactly the instances the cloud reports live for
    the registered groups: every cached instance maps to a registered group
    that reports it, every instance a registered group reports is cached,
    and it maps to that very group when no other registered group reports
    it. *)
Theorem regenerateCache_consistent (m0 m' : gceManagerImpl) (ops : list registryOp) :
  regenerateCache (applyOps ops m0) = (m', None) ->
  registered m' = registered (applyOps ops m0)
  /\ (forall inst h, migCache m' !! inst = Some h ->
        h ∈ registered m' /\ reportsLive h inst)
  /\ (forall g inst, g ∈ registered m' -> reportsLive g inst ->
        is_Some (migCache m' !! inst))
  /\ (forall g inst, g ∈ registered m' -> reportsLive g inst ->
        (forall h, h ∈ registered m' -> reportsLive h inst -> h = g) ->
        migCache m' !! inst = Some g).
Proof.
  intros H. destruct (regenerateCache_ok _ _ H) as (R & A & B).
  split; [done|]. split; [exact A|]. split.
  - intros g inst Hg Hl. destruct (B g inst Hg Hl) as (h & Hh & _). eauto.
  - intros g inst Hg Hl U. destruct (B g inst Hg Hl) as (h & Hh & Hin & Hr).
    by rewrite Hh, (U h Hin Hr).
Qed.

(** *** Facts about the reconcile pass *)






Definition unregisterCalls (t : list event) : list Mig :=
  omap (fun e => match e with Unregistered g _ => Some g | _ => None end) t.


Definition regenerations (t : list event) : nat :=
  length (List.filter (fun e => match e with Regenerated => true | _ => false end) t).


Definition registerAll (gs : list Mig) (m : gceManagerImpl) : gceManagerImpl :=
  fold_left (fun m g => (RegisterMig g m).1) gs m.

Definition refsOf (gs : list Mig) : gset GceRef := list_to_set (map ref gs).


Lemma unregisterCalls_app (t1 t2 : list event) :
  unregisterCalls (t1 ++ t2) = unregisterCalls t1 ++ unregisterCalls t2.
Proof. apply omap_app. Qed.


Lemma regenerations_app (t1 t2 : list event) :
  regenerations (t1 ++ t2) = (regenerations t1 + regenerations t2)%nat.
Proof. unfold regenerations. by rewrite List.filter_app, length_app. Qed.


Lemma RegisterMig_self (g : Mig) (m : gceManagerImpl) :
  self (RegisterMig g m).1 = self m /\ mode (RegisterMig g m).1 = mode m
  /\ migCache (RegisterMig g m).1 = migCache m.
Proof.
  unfold RegisterMig. by destruct (registerLoop g (migs m)) as [[??]|].
Qed.


Lemma registerAll_self (gs : list Mig) (m : gceManagerImpl) :
  self (registerAll gs m) = self m /\ migCache (registerAll gs m) = migCache m.
Proof.
  revert m. induction gs as [|g gs IH]; intros m; simpl; [done|].
  unfold registerAll in *. simpl. destruct (IH (RegisterMig g m).1) as [-> ->].
  split; apply RegisterMig_self.
Qed.

Lemma registerAll_app (gs1 gs2 : list Mig) (m : gceManagerImpl) :
  registerAll (gs1 ++ gs2) m = registerAll gs2 (registerAll gs1 m).
Proof. apply fold_left_app. Qed.










Definition refsIn (l : list migInformation) : list GceRef :=
  map (fun x => ref (config x)) l.

Lemma lookupMig_Some_ref (r : GceRef) (m : gceManagerImpl) (g : Mig) :
  lookupMig r m = Some g -> r ∈ refsIn (migs m).
Proof.
  unfold lookupMig, refsIn. intros H.
  destruct (List.find _ (migs m)) as [mi|] eqn:F; [|done].
  apply find_some in F as [Hin Hb]. apply bool_decide_eq_true in Hb. subst r.
  apply list_elem_of_In. apply in_map_iff. eauto.
Qed.

Lemma RegisterMig_refs (g : Mig) (m : gceManagerImpl) (r : GceRef) :
  r ∈ refsIn (migs (RegisterMig g m).1) <-> r ∈ refsIn (migs m) \/ r = ref g.
Proof.
  unfold refsIn. rewrite RegisterMig_identities.
  rewrite elem_of_app.
  destruct (lookupMig (ref g) m) as [old|] eqn:L.
  - apply lookupMig_Some_ref in L. split.
    + intros [H|H]; [by left|by apply elem_of_nil in H].
    + intros [H| ->]; by left.
  - rewrite list_elem_of_singleton. tauto.
Qed.

Lemma registerAll_refs (gs : list Mig) (m : gceManagerImpl) (r : GceRef) :
  r ∈ refsIn (migs (registerAll gs m)) <-> r ∈ refsIn (migs m) \/ r ∈ refsOf gs.
Proof.
  revert m. induction gs as [|g gs IH]; intros m.
  - unfold refsOf. simpl. set_solver.
  - unfold registerAll in *. simpl. rewrite IH, RegisterMig_refs.
    unfold refsOf. simpl. set_solver.
Qed.





Lemma regenerateLoop_registered (l : list migInformation) (m : gceManagerImpl)
  (c : gmap GceRef Mig) :
  registered (regenerateLoop l m c).1 = registered m
  /\ migCache (regenerateLoop l m c).1 = migCache m.
Proof.
  revert m c. induction l as [|mi rest IH]; simpl; intros m c; [done|].
  destruct (igmGet _) as [base|]; [|done].
  destruct (igmListManagedInstances _) as [urls|];
    [|simpl; by rewrite updateMigBasename_registered].
  destruct (addInstances _ _ _) as [c1|];
    [|simpl; by rewrite updateMigBasename_registered].
  destruct (IH (updateMigBasename (ref (config mi)) base m) c1) as [-> ->].
  by rewrite updateMigBasename_registered.
Qed.

Lemma regenerateCache_registered (m : gceManagerImpl) :
  registered (regenerateCache m).1 = registered m.
Proof.
  unfold regenerateCache.
  pose proof (regenerateLoop_registered (getMigs m) m ∅) as [H _].
  by destruct (regenerateLoop (getMigs m) m ∅) as [m1 [c|e]].
Qed.

Lemma regenerateCache_error (m m' : gceManagerImpl) (e : error) :
  regenerateCache m = (m', Some e) ->
  migCache m' = migCache m /\ registered m' = registered m.
Proof.
  intros R. pose proof (regenerateCache_registered m) as Hr. rewrite R in Hr.
  split; [|exact Hr]. unfold regenerateCache in R.
  pose proof (regenerateLoop_registered (getMigs m) m ∅) as [_ H].
  destruct (regenerateLoop (getMigs m) m ∅) as [m1 [c|e0]]; simplify_eq. exact H.
Qed.

(** C2: GetMigForInstance answers from the cache when the instance is
    there. Otherwise, when a registered group claims the instance (project,
    zone, basename prefix), it tries to regenerate the cache, once. When the
    regeneration succeeds it looks the instance up again, answering the
    group found, or the hard error "does not belong to any configured MIG"
    when the instance is still absent. When the regeneration fails there is
    no second lookup: it answers no group and the regeneration's error,
    wrapped, the cache and the registered groups being what they were. When
    no registered group claims the instance it answers no group and no error
    and leaves the manager as it was. *)
Theorem GetMigForInstance_cases (instance : GceRef) (m : gceManagerImpl) :
  (forall g, migCache m !! instance = Some g ->
     GetMigForInstance instance m = (m, (Some g, None))) /\
  (migCache m !! instance = None -> claimed instance m ->
     forall m', regenerateCache m = (m', None) ->
       GetMigForInstance instance m =
       (m', match migCache m' !! instance with
            | Some g => (Some g, None)
            | None => (None, Some (ErrNotInAnyMig instance))
            end)) /\
  (migCache m !! instance = None -> claimed instance m ->
     forall m' e, regenerateCache m = (m', Some e) ->
       GetMigForInstance instance m = (m', (None, Some (ErrLookingForMig instance e)))
       /\ migCache m' = migCache m
       /\ registered m' = registered m) /\
  (migCache m !! instance = None -> ~ claimed instance m ->
     GetMigForInstance instance m = (m, (None, None))).
Proof.
  unfold GetMigForInstance. split; [|split; [|split]].
  - by intros g ->.
  - intros -> (mi & Hin & Hc) m' R. rewrite lookupLoop_claimed.
    + rewrite R. by destruct (migCache m' !! instance).
    + exists mi. rewrite getMigs_eq. split; [done|]. by apply claims_true.
  - intros -> (mi & Hin & Hc) m' e R. split; [|by apply (regenerateCache_error m m' e)].
    rewrite lookupLoop_claimed.
    + by rewrite R.
    + exists mi. rewrite getMigs_eq. split; [done|]. by apply claims_true.
  - intros -> Hn. apply lookupLoop_unclaimed. intros mi Hin.
    rewrite getMigs_eq in Hin.
    destruct (claims instance mi) eqn:C; [|done].
    exfalso. apply Hn. exists mi. split; [done|]. by apply claims_true.
Qed.



(** *** More about the registry *)

Lemma find_ref_None (r : GceRef) (l : list migInformation) :
  List.find (fun mi => bool_decide (ref (config mi) = r)) l = None <-> r ∉ refsIn l.
Proof.
  unfold refsIn. induction l as [|mi l IH]; simpl.
  - split; [intros _ H; by apply elem_of_nil in H|done].
  - destruct (decide (ref (config mi) = r)) as [E|E].
    + rewrite bool_decide_eq_true_2 by done. split; [done|].
      intros H. exfalso. apply H. rewrite E. by left.
    + rewrite bool_decide_eq_false_2 by done. rewrite IH. split.
      * intros H Hin. apply elem_of_cons in Hin as [Hin|Hin]; [by apply E|by apply H].
      * intros H Hin. apply H. by right.
Qed.

Lemma find_ref_app (r : GceRef) (l1 l2 : list migInformation) :
  List.find (fun mi => bool_decide (ref (config mi) = r)) (l1 ++ l2)
  = match List.find (fun mi => bool_decide (ref (config mi) = r)) l1 with
    | Some mi => Some mi
    | None => List.find (fun mi => bool_decide (ref (config mi) = r)) l2
    end.
Proof.
  induction l1 as [|mi l1 IH]; simpl; [done|].
  by destruct (bool_decide (ref (config mi) = r)).
Qed.

Lemma registerLoop_find (g : Mig) (l l' : list migInformation) (b : bool) (r : GceRef) :
  registerLoop g l = Some (l', b) ->
  List.find (fun mi => bool_decide (ref (config mi) = r)) l'
  = if decide (r = ref g)
    then Some (mkInfo g (match List.find (fun mi => bool_decide (ref (config mi) = r)) l with
                         | Some old => basename old
                         | None => ""
                         end))
    else List.find (fun mi => bool_decide (ref (config mi) = r)) l.
Proof.
  revert l' b. induction l as [|mi rest IH]; simpl; intros l' b H; [done|].
  destruct (decide (ref (config mi) = ref g)) as [E|E].
  - unfold DeepEqual in H. destruct (decide (r = ref g)) as [->|Hr].
    + rewrite (bool_decide_eq_true_2 (ref (config mi) = ref g)) by done.
      case_bool_decide as D; simpl in H; simplify_eq; simpl;
        rewrite bool_decide_eq_true_2 by done; [|done].
      by destruct mi.
    + destruct (negb _); simplify_eq; simpl.
      * rewrite !bool_decide_eq_false_2; [done|congruence|done].
      * done.
  - destruct (registerLoop g rest) as [[rest' b']|] eqn:R; [|done]. simplify_eq.
    simpl. specialize (IH _ _ eq_refl).
    destruct (decide (r = ref g)) as [->|Hr].
    + rewrite bool_decide_eq_false_2 by done. done.
    + destruct (bool_decide (ref (config mi) = r)); [done|]. done.
Qed.

(** X1: what RegisterMig leaves in the registry. The group registered is the
    one found under its identity afterwards, the groups of the other
    identities are found as before, and the instance cache is not touched. *)
Theorem RegisterMig_lookup (g : Mig) (m : gceManagerImpl) :
  lookupMig (ref g) (RegisterMig g m).1 = Some g
  /\ (forall r, r <> ref g -> lookupMig r (RegisterMig g m).1 = lookupMig r m)
  /\ migCache (RegisterMig g m).1 = migCache m.
Proof.
  unfold RegisterMig, lookupMig.
  destruct (registerLoop g (migs m)) as [[l' b]|] eqn:R; simpl.
  - split; [|split; [|done]].
    + rewrite (registerLoop_find g _ _ _ (ref g) R). by rewrite decide_True.
    + intros r Hr. rewrite (registerLoop_find g _ _ _ r R). by rewrite decide_False.
  - apply registerLoop_None in R. split; [|split; [|done]].
    + rewrite find_ref_app, R. simpl. by rewrite bool_decide_eq_true_2.
    + intros r Hr. rewrite find_ref_app.
      destruct (List.find (fun mi => bool_decide (ref (config mi) = r)) (migs m));
        [done|]. simpl.
      rewrite bool_decide_eq_false_2; [done|congruence].
Qed.

Lemma RegisterMig_same (g : Mig) (m : gceManagerImpl) :
  lookupMig (ref g) m = Some g -> RegisterMig g m = (m, false).
Proof.
  unfold lookupMig, RegisterMig. intros H.
  destruct (registerLoop g (migs m)) as [[l' b]|] eqn:R.
  - destruct (registerLoop_Some _ _ _ _ R) as (mi & F & B & U & _).
    rewrite F in H. simpl in H. injection H as H.
    assert (b = false) as ->.
    { rewrite B, H. unfold DeepEqual. by rewrite bool_decide_eq_true_2. }
    by rewrite (U eq_refl), set_migs_id.
  - apply registerLoop_None in R. by rewrite R in H.
Qed.

(** X2: registering the same group again does nothing: the second
    RegisterMig returns false and leaves the manager as the first left it. *)
Theorem RegisterMig_idempotent (g : Mig) (m : gceManagerImpl) :
  RegisterMig g (RegisterMig g m).1 = ((RegisterMig g m).1, false).
Proof.
  apply RegisterMig_same.
  unfold RegisterMig, lookupMig.
  destruct (registerLoop g (migs m)) as [[l' b]|] eqn:R; simpl.
  - rewrite (registerLoop_find g _ _ _ (ref g) R). by rewrite decide_True.
  - apply registerLoop_None in R. rewrite find_ref_app, R. simpl.
    by rewrite bool_decide_eq_true_2.
Qed.

Lemma refsIn_filter (P : GceRef -> bool) (l : list migInformation) :
  refsIn (List.filter (fun mi => P (ref (config mi))) l) = List.filter P (refsIn l).
Proof.
  unfold refsIn. induction l as [|mi l IH]; simpl; [done|].
  destruct (P (ref (config mi))); simpl; by rewrite IH.
Qed.

(** X3: what UnregisterMig does. It returns true exactly when a group of
    that identity was registered; afterwards none is, the groups of the other
    identities are the same and in the same order, and the instance cache is
    not touched (an instance of the removed group still resolves to it until
    the cache is regenerated). *)
Theorem UnregisterMig_effect (g : Mig) (m : gceManagerImpl) :
  ((UnregisterMig g m).2 = true <-> ref g ∈ refsIn (migs m))
  /\ lookupMig (ref g) (UnregisterMig g m).1 = None
  /\ migs (UnregisterMig g m).1
     = List.filter (fun mi => negb (bool_decide (ref (config mi) = ref g))) (migs m)
  /\ (forall r, r <> ref g -> lookupMig r (UnregisterMig g m).1 = lookupMig r m)
  /\ migCache (UnregisterMig g m).1 = migCache m.
Proof.
  split; [|split; [|split; [|split]]].
  - rewrite UnregisterMig_found. unfold refsIn.
    rewrite existsb_exists, list_elem_of_In, in_map_iff. split.
    + intros (mi & Hin & Hb). apply bool_decide_eq_true in Hb. eauto.
    + intros (mi & Hr & Hin). exists mi. split; [done|]. by apply bool_decide_eq_true.
  - unfold lookupMig. rewrite UnregisterMig_migs.
    assert (H : List.find (fun mi => bool_decide (ref (config mi) = ref g))
                  (List.filter (fun mi => negb (bool_decide (ref (config mi) = ref g)))
                     (migs m)) = None); [|by rewrite H].
    induction (migs m) as [|mi l IH]; simpl; [done|].
    destruct (bool_decide (ref (config mi) = ref g)) eqn:E; simpl; [done|].
    by rewrite E.
  - apply UnregisterMig_migs.
  - intros r Hr. unfold lookupMig. rewrite UnregisterMig_migs. f_equal.
    induction (migs m) as [|mi l IH]; simpl; [done|].
    destruct (decide (ref (config mi) = ref g)) as [E|E].
    + rewrite (bool_decide_eq_true_2 (ref (config mi) = ref g)) by done. simpl.
      rewrite bool_decide_eq_false_2; [done|congruence].
    + rewrite (bool_decide_eq_false_2 (ref (config mi) = ref g)) by done. simpl.
      by rewrite IH.
  - unfold UnregisterMig. by destruct (unregisterLoop g (migs m) [] false).
Qed.

Lemma RegisterMig_NoDup (g : Mig) (m : gceManagerImpl) :
  NoDup (refsIn (migs m)) -> NoDup (refsIn (migs (RegisterMig g m).1)).
Proof.
  intros H. unfold refsIn. rewrite RegisterMig_identities.
  destruct (lookupMig (ref g) m) eqn:L; [by rewrite app_nil_r|].
  apply NoDup_app. split; [done|]. split; [|apply NoDup_singleton].
  intros r Hr ->%list_elem_of_singleton.
  unfold lookupMig in L. destruct (List.find _ (migs m)) eqn:F; [done|].
  by apply find_ref_None in F.
Qed.

Lemma UnregisterMig_NoDup (g : Mig) (m : gceManagerImpl) :
  NoDup (refsIn (migs m)) -> NoDup (refsIn (migs (UnregisterMig g m).1)).
Proof.
  intros H. rewrite UnregisterMig_migs.
  pose proof (refsIn_filter (fun r => negb (bool_decide (r = ref g))) (migs m)) as E.
  simpl in E. rewrite E.
  apply NoDup_ListNoDup, List.NoDup_filter. by apply NoDup_ListNoDup.
Qed.

(** X4: identities stay unique. Whatever RegisterMig and UnregisterMig calls
    are made on a registry that holds each identity at most once, it still
    holds each identity at most once. *)
Theorem applyOps_NoDup (ops : list registryOp) (m : gceManagerImpl) :
  NoDup (refsIn (migs m)) -> NoDup (refsIn (migs (applyOps ops m))).
Proof.
  revert m. induction ops as [|op ops IH]; intros m H; [done|].
  unfold applyOps in *. simpl. apply IH.
  destruct op; [by apply RegisterMig_NoDup|by apply UnregisterMig_NoDup].
Qed.

(** *** More about the cache *)

(** X5: a regeneration that fails leaves the instance cache it found; the
    new cache replaces the old one only when every group was listed. In
    either case the registered groups are the same. *)
Theorem regenerateCache_failure_keeps_cache (m : gceManagerImpl) :
  registered (regenerateCache m).1 = registered m
  /\ (forall e, (regenerateCache m).2 = Some e ->
        migCache (regenerateCache m).1 = migCache m).
Proof.
  split; [apply regenerateCache_registered|].
  unfold regenerateCache.
  pose proof (regenerateLoop_registered (getMigs m) m ∅) as [_ H].
  destruct (regenerateLoop (getMigs m) m ∅) as [m1 [c|e0]]; simpl in *; [done|].
  by intros e _.
Qed.

Lemma updateMigBasename_entries (r : GceRef) (base : string) (m : gceManagerImpl)
  (mi : migInformation) :
  mi ∈ migs (updateMigBasename r base m) ->
  (ref (config mi) = r /\ basename mi = base)
  \/ (ref (config mi) <> r /\ mi ∈ migs m).
Proof.
  unfold updateMigBasename. simpl. rewrite list_elem_of_In, in_map_iff.
  intros (x & Hx & Hin). destruct (decide (ref (config x) = r)) as [E|E]; subst mi.
  - left. by split.
  - right. split; [done|]. by apply list_elem_of_In.
Qed.

Lemma regenerateLoop_basenames (S : GceRef -> Prop) (l : list migInformation)
  (m m' : gceManagerImpl) (c c' : gmap GceRef Mig) :
  regenerateLoop l m c = (m', Ok c') ->
  (forall mi, mi ∈ migs m -> S (ref (config mi)) -> igmGet (ref (config mi)) = Ok (basename mi)) ->
  forall mi, mi ∈ migs m' -> S (ref (config mi)) \/ ref (config mi) ∈ refsIn l ->
    igmGet (ref (config mi)) = Ok (basename mi).
Proof.
  revert S m c. induction l as [|x rest IH]; simpl; intros S m c H Hm.
  - simplify_eq. intros mi Hin [Hs|Hl]; [by apply Hm|by apply elem_of_nil in Hl].
  - destruct (igmGet (ref (config x))) as [base|e] eqn:G; [|done].
    destruct (igmListManagedInstances (ref (config x))) as [urls|e]; [|done].
    destruct (addInstances (config x) urls c) as [c1|e]; [|done].
    intros mi Hin Hor.
    apply (IH (fun r => S r \/ r = ref (config x)) _ _ H); [|done|].
    + intros y Hy Hs.
      destruct (updateMigBasename_entries _ _ _ _ Hy) as [[Er Eb]|[Er Hy']].
      * by rewrite Er, Eb.
      * destruct Hs as [Hs|Hs]; [by apply Hm|done].
    + destruct Hor as [Hs|Hl]; [by left; left|].
      apply elem_of_cons in Hl as [Hl|Hl]; [left; by right|by right].
Qed.

(** X6: a successful regeneration refreshes the basenames: afterwards the
    basename recorded for every registered group is the BaseInstanceName the
    cloud gave for it. *)
Theorem regenerateCache_basenames (m m' : gceManagerImpl) :
  regenerateCache m = (m', None) ->
  Forall (fun mi => igmGet (ref (config mi)) = Ok (basename mi)) (migs m').
Proof.
  unfold regenerateCache.
  destruct (regenerateLoop (getMigs m) m ∅) as [m1 [c|e]] eqn:R; [|done].
  intros [= <-]. apply Forall_forall. intros mi Hin. rewrite getMigs_eq in R.
  apply (regenerateLoop_basenames (fun _ => False) _ _ _ _ _ R); [done|done|].
  right.
  destruct (regenerateLoop_spec _ _ _ _ _ R) as (Hr & _).
  assert (Hc : config mi ∈ registered m).
  { rewrite <- Hr. unfold registered. apply list_elem_of_In, in_map.
    by apply list_elem_of_In. }
  unfold registered in Hc. apply list_elem_of_In, in_map_iff in Hc as (y & Hy & Hyin).
  unfold refsIn. apply list_elem_of_In, in_map_iff. exists y. by rewrite Hy.
Qed.

(** X7: lookup after a rebuild. Once the cache was regenerated, every
    instance the cloud lists for a registered group is answered from the
    cache: GetMigForInstance returns a registered group that lists the
    instance, without an error and without touching the manager. *)
Theorem GetMigForInstance_after_rebuild (m m' : gceManagerImpl) (g : Mig) (inst : GceRef) :
  regenerateCache m = (m', None) ->
  g ∈ registered m' -> reportsLive g inst ->
  exists h, GetMigForInstance inst m' = (m', (Some h, None))
            /\ h ∈ registered m' /\ reportsLive h inst.
Proof.
  intros R Hg Hl. destruct (regenerateCache_ok _ _ R) as (_ & _ & B).
  destruct (B g inst Hg Hl) as (h & Hh & Hin & Hr).
  exists h. unfold GetMigForInstance. by rewrite Hh.
Qed.

Lemma lookupLoop_registered (instance : GceRef) (l : list migInformation) (m : gceManagerImpl) :
  registered (lookupLoop instance l m).1 = registered m.
Proof.
  induction l as [|mi rest IH]; simpl; [done|].
  destruct (claims instance mi); [|done].
  pose proof (regenerateCache_registered m) as H.
  destruct (regenerateCache m) as [m1 [e|]]; simpl in *; [done|].
  by destruct (migCache m1 !! instance).
Qed.

(** X8: GetMigForInstance never changes which groups are registered, and it
    never returns a group together with an error. When the cache had no
    answer and a group is returned, that group is registered and the cloud
    lists the instance for it. *)
Theorem GetMigForInstance_membership (instance : GceRef) (m : gceManagerImpl) :
  registered (GetMigForInstance instance m).1 = registered m
  /\ (forall g e, (GetMigForInstance instance m).2 <> (Some g, Some e))
  /\ (forall g, migCache m !! instance = None ->
        (GetMigForInstance instance m).2.1 = Some g ->
        g ∈ registered m /\ reportsLive g instance).
Proof.
  unfold GetMigForInstance. destruct (migCache m !! instance) as [g0|] eqn:C; simpl.
  - split; [done|]. split; [done|]. done.
  - split; [apply lookupLoop_registered|].
    induction (getMigs m) as [|mi rest IH]; simpl; [by split|].
    destruct (claims instance mi); [|exact IH].
    destruct (regenerateCache m) as [m1 [e|]] eqn:R; simpl; [by split|].
    destruct (regenerateCache_ok _ _ R) as (Hr & A & _).
    destruct (migCache m1 !! instance) as [h|] eqn:Hh; simpl; [|by split].
    split; [done|]. intros g _ [= <-]. rewrite <- Hr. by apply A.
Qed.

(** GetMigNodes: the provider ids of the managed instances of a group,
    [fmt.Sprintf("gce://%s/%s/%s", project, zone, name)] of each. *)
Definition providerId (r : GceRef) : string :=
  "gce://" ++ Project r ++ "/" ++ Zone r ++ "/" ++ Name r.

Fixpoint migNodesLoop (urls : list string) (result : list string)
  : list string * option error :=
  match urls with
  | [] => (result, None)
  | u :: rest =>
      match ParseInstanceUrl u with
      | Err e => ([], Some e)
      | Ok r => migNodesLoop rest (result ++ [providerId r])
      end
  end.

Definition GetMigNodes (mig : Mig) : list string * option error :=
  match igmListManagedInstances (ref mig) with
  | Err e => ([], Some e)
  | Ok urls => migNodesLoop urls []
  end.

Lemma migNodesLoop_ok (urls : list string) (acc ids : list string) :
  migNodesLoop urls acc = (ids, None) ->
  exists refs, Forall2 (fun u r => ParseInstanceUrl u = Ok r) urls refs
               /\ ids = acc ++ map providerId refs.
Proof.
  revert acc. induction urls as [|u rest IH]; simpl; intros acc H.
  - simplify_eq. exists []. split; [constructor|by rewrite app_nil_r].
  - destruct (ParseInstanceUrl u) as [r|e] eqn:P; [|done].
    destruct (IH _ H) as (refs & F & ->). exists (r :: refs).
    split; [by constructor|]. simpl. by rewrite <- app_assoc.
Qed.

Lemma migNodesLoop_err (urls : list string) (acc ids : list string) (e : error) :
  migNodesLoop urls acc = (ids, Some e) -> ids = [].
Proof.
  revert acc. induction urls as [|u rest IH]; simpl; intros acc H; [done|].
  destruct (ParseInstanceUrl u) as [r|e0]; [by eapply IH|by simplify_eq].
Qed.

(** X9: GetMigNodes and the cache agree. When GetMigNodes succeeds it
    returns one provider id per managed instance, in the order of the
    listing; when it fails the list is empty. After a successful regeneration
    every node it returns for a registered group is the provider id of an
    instance the cache resolves to a registered group. *)
Theorem GetMigNodes_resolvable (m m' : gceManagerImpl) (g : Mig) :
  (forall ids e, GetMigNodes g = (ids, Some e) -> ids = [])
  /\ (forall ids, GetMigNodes g = (ids, None) ->
        exists urls refs,
          igmListManagedInstances (ref g) = Ok urls
          /\ Forall2 (fun u r => ParseInstanceUrl u = Ok r) urls refs
          /\ ids = map providerId refs
          /\ (regenerateCache m = (m', None) -> g ∈ registered m' ->
              forall r, r ∈ refs ->
                exists h, migCache m' !! r = Some h /\ h ∈ registered m')).
Proof.
  unfold GetMigNodes. split.
  - intros ids e. destruct (igmListManagedInstances (ref g)) as [urls|e0].
    + apply migNodesLoop_err.
    + by intros [= <- _].
  - intros ids H. destruct (igmListManagedInstances (ref g)) as [urls|e0] eqn:L; [|done].
    destruct (migNodesLoop_ok _ _ _ H) as (refs & F & ->).
    exists urls, refs. split; [done|]. split; [done|]. split; [done|].
    intros R Hg r Hr. destruct (regenerateCache_ok _ _ R) as (_ & _ & B).
    apply list_elem_of_lookup in Hr as [i Hi].
    destruct (Forall2_lookup_r _ _ _ _ _ F Hi) as (u & Hu & Pu).
    destruct (B g r Hg) as (h & Hh & Hin & _).
    { exists urls, u. split; [done|]. split; [|done]. by eapply list_elem_of_lookup_2. }
    eauto.
Qed.

(** *** A reconcile pass that is cut short *)

Definition parses (u : string) : bool :=
  match parseGceUrl u with Ok _ => true | Err _ => false end.

(** What the registration loops did, whether they ran to the end or not. *)
Definition registeredSoFar (s s' : passState) : Prop :=
  exists gs t, manager s' = registerAll gs (manager s)
    /\ trace s' = trace s ++ t
    /\ unregisterCalls t = []
    /\ regenerations t = 0%nat.

Lemma registeredSoFar_refl (s : passState) : registeredSoFar s s.
Proof. exists [], []. by rewrite app_nil_r. Qed.

Lemma registeredSoFar_trans (s1 s2 s3 : passState) :
  registeredSoFar s1 s2 -> registeredSoFar s2 s3 -> registeredSoFar s1 s3.
Proof.
  intros (gs1 & t1 & M1 & T1 & U1 & G1) (gs2 & t2 & M2 & T2 & U2 & G2).
  exists (gs1 ++ gs2), (t1 ++ t2). split; [by rewrite M2, M1, registerAll_app|].
  split; [by rewrite T2, T1, app_assoc|].
  split; [by rewrite unregisterCalls_app, U1, U2|].
  by rewrite regenerations_app, G1, G2.
Qed.

Lemma registerUrls_any np a (urls : list string) (s : passState) :
  registeredSoFar s (registerUrls np a urls s).1
  /\ ((registerUrls np a urls s).2 = None -> forallb parses urls = true).
Proof.
  revert s. induction urls as [|u rest IH]; intros s; simpl.
  - split; [apply registeredSoFar_refl|done].
  - unfold parses at 1. destruct (parseGceUrl u) as [r|e]; simpl.
    + destruct (RegisterMig (migOfPool (manager s) np a r) (manager s)) as [m1 b] eqn:R.
      destruct (IH (mkPass m1 ({[ref (migOfPool (manager s) np a r)]} ∪ existingMigs s)
                      (b || changed s)
                      (trace s ++ [Registered (migOfPool (manager s) np a r) b])))
        as [F P].
      split; [|exact P].
      eapply registeredSoFar_trans; [|exact F].
      exists [migOfPool (manager s) np a r], [Registered (migOfPool (manager s) np a r) b].
      simpl. unfold registerAll. simpl. by rewrite R.
    + split; [apply registeredSoFar_refl|done].
Qed.

Lemma registerPools_any (pools : list NodePool) (s : passState) :
  registeredSoFar s (registerPools pools s).1
  /\ ((registerPools pools s).2 = None ->
      forall np, np ∈ pools -> isAutoscaled np = true ->
        forallb parses (InstanceGroupUrls np) = true).
Proof.
  revert s. induction pools as [|np rest IH]; intros s; simpl.
  - split; [apply registeredSoFar_refl|]. by intros _ np ?%elem_of_nil.
  - assert (Hskip : forall s1, registeredSoFar s s1 -> isAutoscaled np = false ->
      registeredSoFar s (registerPools rest s1).1
      /\ ((registerPools rest s1).2 = None ->
          forall x, x ∈ np :: rest -> isAutoscaled x = true ->
            forallb parses (InstanceGroupUrls x) = true)).
    { intros s1 F1 Hna. destruct (IH s1) as [F P]. split.
      - by eapply registeredSoFar_trans.
      - intros Hn x Hx Ha. apply elem_of_cons in Hx as [->|Hx]; [congruence|by apply P]. }
    unfold isAutoscaled in Hskip at 1.
    destruct (Autoscaling np) as [a|] eqn:A; [|by apply Hskip; [apply registeredSoFar_refl|]].
    destruct (Enabled a) eqn:En.
    + destruct (registerUrls_any np a (InstanceGroupUrls np) s) as [F1 P1].
      destruct (registerUrls np a (InstanceGroupUrls np) s) as [s1 [e|]]; simpl in *.
      * split; [done|done].
      * destruct (IH s1) as [F P]. split; [by eapply registeredSoFar_trans|].
        intros Hn x Hx Ha. apply elem_of_cons in Hx as [->|Hx]; [by apply P1|by apply P].
    + destruct (Autoprovisioned a); [|by apply Hskip; [apply registeredSoFar_refl|]].
      apply Hskip; [|done]. exists [], [Warned (poolName np)]. by simpl.
Qed.






(** X10: a pass cut short keeps the last known groups. When an instance-group
    URL of an autoscaled pool does not parse, the pass returns an error
    without having unregistered anything or regenerated the cache: every
    identity registered before is still registered and the instance cache is
    untouched (groups listed before the bad URL may have been registered). *)
Theorem fetchAllNodePoolsGkeNapImpl_abort (m : gceManagerImpl) (pools : list NodePool)
  (np : NodePool) (u : string) :
  mode m = ModeGKENAP ->
  nodePoolsList (projectId m) (zone m) (clusterName m) = Ok pools ->
  np ∈ pools -> isAutoscaled np = true -> u ∈ InstanceGroupUrls np -> parses u = false ->
  exists m' t e,
    fetchAllNodePoolsGkeNapImpl m = Done m' t (Some e)
    /\ unregisterCalls t = [] /\ regenerations t = 0%nat
    /\ migCache m' = migCache m
    /\ (forall r, r ∈ refsIn (migs m) -> r ∈ refsIn (migs m')).
Proof.
  intros Hmode Hlist Hnp Ha Hu Hbad. unfold fetchAllNodePoolsGkeNapImpl.
  rewrite Hmode, Hlist. rewrite bool_decide_eq_true_2 by done. simpl.
  destruct (registerPools_any pools (mkPass m ∅ false [])) as [F P].
  destruct (registerPools pools (mkPass m ∅ false [])) as [s [e|]]; simpl in *.
  - destruct F as (gs & t & M & T & U & G). simpl in *.
    exists (manager s), (trace s), e. rewrite T, M. split; [done|].
    split; [done|]. split; [done|].
    split; [apply registerAll_self|].
    intros r Hr. apply registerAll_refs. by left.
  - exfalso. specialize (P eq_refl np Hnp Ha).
    rewrite forallb_forall in P. specialize (P u).
    rewrite P in Hbad; [done|]. by apply list_elem_of_In.
Qed.

End Cloud.

(** *** A test double of the cloud, after the fixtures of the manager tests *)

Definition testRef (name : string) : GceRef := mkGceRef "project1" "us-central1-b" name.

Definition test_igmGet (r : GceRef) : result string := Ok (Name r).

Definition test_igmListManagedInstances (r : GceRef) : result (list string) :=
  if String.eqb (Name r) "gke-cluster-1-default-pool"
  then Ok ["gke-cluster-1-default-pool-f7607aac-9j4g";
           "gke-cluster-1-default-pool-f7607aac-c63g"]
  else Ok [].

Definition test_parse (u : string) : result GceRef := Ok (testRef u).

Definition test_nodePools : list NodePool :=
  [ mkNodePool "default-pool" (Some (mkAutoscaling true false 1 11))
      ["gke-cluster-1-default-pool"];
    mkNodePool "nodeautoprovisioning-323233232" (Some (mkAutoscaling false true 0 1000))
      ["gke-cluster-1-nodeautoprovisioning-323233232"];
    mkNodePool "fixed-pool" None ["gke-cluster-1-fixed-pool"] ].

Definition test_nodePoolsList (_ _ _ : string) : result (list NodePool) := Ok test_nodePools.

Definition test_manager : gceManagerImpl :=
  mkManager [] ∅ "us-central1-b" "project1" "cluster1" ModeGKENAP 1%nat.

Definition test_default : Mig :=
  mkMig (testRef "gke-cluster-1-default-pool") (Some 1%nat) 1 11 false true "default-pool" None.

Definition test_stale : Mig :=
  mkMig (testRef "gke-cluster-1-old-pool") (Some 1%nat) 0 3 false true "old-pool" None.

Definition test_ops : list registryOp :=
  [OpRegister test_stale; OpRegister test_default; OpUnregister test_stale].

Definition test_rebuilt : gceManagerImpl :=
  (regenerateCache test_igmGet test_igmListManagedInstances test_parse
     (applyOps test_ops test_manager)).1.

Example GetMigForInstance_rebuilds :
  (GetMigForInstance test_igmGet test_igmListManagedInstances test_parse
     (testRef "gke-cluster-1-default-pool-f7607aac-9j4g")
     (applyOps test_ops test_manager)).2 = (Some test_default, None)
  /\ (GetMigForInstance test_igmGet test_igmListManagedInstances test_parse
     (testRef "gke-cluster-1-default-pool-missing")
     test_rebuilt).2
     = (None, Some (ErrNotInAnyMig (testRef "gke-cluster-1-default-pool-missing")))
  /\ (GetMigForInstance test_igmGet test_igmListManagedInstances test_parse
     (testRef "other-instance") test_rebuilt).2 = (None, None).
Proof. by vm_compute. Qed.

Lemma regenerateCache_consistent_witness :
  registered test_rebuilt = registered (applyOps test_ops test_manager)
  /\ (forall inst h, migCache test_rebuilt !! inst = Some h ->
        h ∈ registered test_rebuilt
        /\ reportsLive test_igmListManagedInstances test_parse h inst)
  /\ (forall g inst, g ∈ registered test_rebuilt ->
        reportsLive test_igmListManagedInstances test_parse g inst ->
        is_Some (migCache test_rebuilt !! inst))
  /\ (forall g inst, g ∈ registered test_rebuilt ->
        reportsLive test_igmListManagedInstances test_parse g inst ->
        (forall h, h ∈ registered test_rebuilt ->
           reportsLive test_igmListManagedInstances test_parse h inst -> h = g) ->
        migCache test_rebuilt !! inst = Some g).
Proof.
  apply (regenerateCache_consistent test_igmGet test_igmListManagedInstances test_parse
           test_manager test_rebuilt test_ops).
  vm_compute. reflexivity.
Defined.


(** The pass on the test cloud: one registration (the autoscaled pool), one
    warning (the autoprovisioned pool with autoscaling off), one
    unregistration (the stale group), one regeneration. *)
Example fetchAllNodePoolsGkeNapImpl_trace :
  match fetchAllNodePoolsGkeNapImpl test_igmGet test_igmListManagedInstances test_parse
          test_parse test_nodePoolsList (applyOps [OpRegister test_stale] test_manager) with
  | Done m' t err =>
      t = [Registered test_default true; Warned "nodeautoprovisioning-323233232";
           Unregistered test_stale true; Regenerated]
      /\ err = None /\ registered m' = [test_default]
  | Fatal => False
  end.
Proof. by vm_compute. Qed.

Lemma applyOps_NoDup_witness : NoDup (refsIn (migs (applyOps test_ops test_manager))).
Proof. apply (applyOps_NoDup test_ops test_manager). apply NoDup_nil_2. Defined.

Lemma regenerateCache_basenames_witness :
  Forall (fun mi => test_igmGet (ref (config mi)) = Ok (basename mi)) (migs test_rebuilt).
Proof.
  apply (regenerateCache_basenames test_igmGet test_igmListManagedInstances test_parse
           (applyOps test_ops test_manager) test_rebuilt).
  vm_compute. reflexivity.
Defined.

Lemma GetMigForInstance_after_rebuild_witness :
  exists h,
    GetMigForInstance test_igmGet test_igmListManagedInstances test_parse
      (testRef "gke-cluster-1-default-pool-f7607aac-9j4g") test_rebuilt
    = (test_rebuilt, (Some h, None))
    /\ h ∈ registered test_rebuilt
    /\ reportsLive test_igmListManagedInstances test_parse h
         (testRef "gke-cluster-1-default-pool-f7607aac-9j4g").
Proof.
  apply (GetMigForInstance_after_rebuild test_igmGet test_igmListManagedInstances test_parse
           (applyOps test_ops test_manager) test_rebuilt test_default).
  - vm_compute. reflexivity.
  - vm_compute. left.
  - exists ["gke-cluster-1-default-pool-f7607aac-9j4g";
            "gke-cluster-1-default-pool-f7607aac-c63g"],
           "gke-cluster-1-default-pool-f7607aac-9j4g".
    split; [reflexivity|]. split; [left|reflexivity].
Defined.

(** A parser that rejects the empty URL, and a listing that holds one. *)
Definition strict_parse (u : string) : result GceRef :=
  if String.eqb u "" then Err (ExternalError "wrong url") else Ok (testRef u).

Definition broken_nodePools : list NodePool :=
  [ mkNodePool "default-pool" (Some (mkAutoscaling true false 1 11))
      ["gke-cluster-1-default-pool"; ""] ].

Definition broken_nodePoolsList (_ _ _ : string) : result (list NodePool) :=
  Ok broken_nodePools.

Lemma fetchAllNodePoolsGkeNapImpl_abort_witness :
  exists m' t e,
    fetchAllNodePoolsGkeNapImpl test_igmGet test_igmListManagedInstances test_parse
      strict_parse broken_nodePoolsList (applyOps [OpRegister test_stale] test_manager)
    = Done m' t (Some e)
    /\ unregisterCalls t = [] /\ regenerations t = 0%nat
    /\ migCache m' = migCache (applyOps [OpRegister test_stale] test_manager)
    /\ (forall r, r ∈ refsIn (migs (applyOps [OpRegister test_stale] test_manager)) ->
          r ∈ refsIn (migs m')).
Proof.
  apply (fetchAllNodePoolsGkeNapImpl_abort test_igmGet test_igmListManagedInstances
           test_parse strict_parse broken_nodePoolsList
           (applyOps [OpRegister test_stale] test_manager) broken_nodePools
           (mkNodePool "default-pool" (Some (mkAutoscaling true false 1 11))
              ["gke-cluster-1-default-pool"; ""]) "").
  - reflexivity.
  - reflexivity.
  - left.
  - reflexivity.
  - right. left.
  - reflexivity.
Defined.

(** The claim of C2 as the specification words it fails when the
    regeneration fails: the instance is not in the cache, a registered group
    claims it and the cloud lists it for that group, but the group's
    manager cannot be read. GetMigForInstance then answers no group and the
    wrapped error of the regeneration, not the hard error; the cache was not
    rebuilt and nothing was looked up again. *)
Definition failing_igmGet (r : GceRef) : result string :=
  Err (ExternalError "igm get failed").

Definition claiming_manager : gceManagerImpl :=
  mkManager [mkInfo test_default "gke-cluster-1-default-pool"] ∅
    "us-central1-b" "project1" "cluster1" ModeGKENAP 1%nat.

Definition claimed_instance : GceRef := testRef "gke-cluster-1-default-pool-f7607aac-9j4g".

Lemma GetMigForInstance_failed_rebuild_counterexample :
  migCache claiming_manager !! claimed_instance = None
  /\ claimed claimed_instance claiming_manager
  /\ reportsLive test_igmListManagedInstances test_parse test_default claimed_instance
  /\ GetMigForInstance failing_igmGet test_igmListManagedInstances test_parse
       claimed_instance claiming_manager
     = (claiming_manager,
        (None, Some (ErrLookingForMig claimed_instance (ExternalError "igm get failed")))).
Proof.
  split; [reflexivity|]. split; [|split; [|reflexivity]].
  - exists (mkInfo test_default "gke-cluster-1-default-pool").
    split; [left|]. split; [reflexivity|]. split; reflexivity.
  - exists ["gke-cluster-1-default-pool-f7607aac-9j4g";
            "gke-cluster-1-default-pool-f7607aac-c63g"],
           "gke-cluster-1-default-pool-f7607aac-9j4g".
    split; [reflexivity|]. split; [left|reflexivity].
Qed.


End Gce.

(** ** The removal simulator *)

Module Simulator.

(** A call returns, or the goroutine panics (the nil dereference of
    [nodeInfo.Node()] in tryNodeForPod). *)
Inductive outcome (A : Type) :=
| Panic
| Return (a : A).
Arguments Panic {A}.
Arguments Return {A} a.

Inductive error :=
| FailedToGet (resourceName node : string)
| IsZero (resourceName node : string)
| FailedToFindPlace.

Inductive result (A : Type) :=
| Ok (a : A)
| Err (e : error).
Arguments Ok {A} a.
Arguments Err {A} e.

(** float64(v) of an integer: the nearest binary64 value, ties to even. *)
Definition float64 (v : Z) : float := SF2Prim (binary_normalize prec emax v 0 false).

(** math.Max, with its special cases. *)
Definition math_Max (x y : float) : float :=
  if (PrimFloat.eqb x PrimFloat.infinity || PrimFloat.eqb y PrimFloat.infinity)%bool
  then PrimFloat.infinity
  else if (PrimFloat.is_nan x || PrimFloat.is_nan y)%bool then PrimFloat.nan
  else if (PrimFloat.eqb x PrimFloat.zero && PrimFloat.eqb x y)%bool
  then (if PrimFloat.get_sign x then y else x)
  else if PrimFloat.ltb y x then x else y.

Definition ResourceCPU : string := "cpu".
Definition ResourceMemory : string := "memory".

Section Sim.

(** resource.Quantity with the three operations the simulator uses:
    [MustParse("0")], [Add] and [MilliValue]. *)
Context {Quantity : Type}.
Variable quantity_zero : Quantity.
Variable quantity_add : Quantity -> Quantity -> Quantity.
Variable MilliValue : Quantity -> Z.

(** The parts of the API objects the simulator reads or writes.
    [Capacity] and [Allocatable] are the two fields of [node.Status]. *)
Record Container := mkContainer { Requests : gmap string Quantity }.

Record Pod := mkPod {
  Namespace : string;
  podName : string;
  NodeName : string;
  Containers : list Container
}.

Record Node := mkNode {
  nodeName : string;
  Capacity : gmap string Quantity;
  Allocatable : gmap string Quantity
}.

(** Nodes are passed by pointer and shared with the caller: a node pointer is
    an address, the node objects live in a store. *)
Definition NodePtr := nat.
Definition NodeStore := NodePtr -> Node.

Definition update (s : NodeStore) (p : NodePtr) (n : Node) : NodeStore :=
  fun q => if decide (q = p) then n else s q.

(** [node.Status.Allocatable = node.Status.Capacity] *)
Definition overwriteAllocatable (n : Node) : Node :=
  mkNode (nodeName n) (Capacity n) (Capacity n).

(** schedulercache.NodeInfo: the node object (nil until SetNode) and the
    pods on it. *)
Record NodeInfo := mkNodeInfo { node : option NodePtr; pods : list Pod }.

Definition NewNodeInfo (ps : list Pod) : NodeInfo := mkNodeInfo None ps.
Definition SetNode (p : NodePtr) (ni : NodeInfo) : NodeInfo := mkNodeInfo (Some p) (pods ni).
Definition addPod (pod : Pod) (ni : NodeInfo) : NodeInfo := mkNodeInfo (node ni) (pods ni ++ [pod]).

(** schedulercache.CreateNodeNameToInfoMap(pods): one NodeInfo per node name
    that some pod is scheduled on, holding the pods of that name. *)
Definition CreateNodeNameToInfoMap (ps : list Pod) : gmap string NodeInfo :=
  fold_left (fun m pod =>
               <[NodeName pod := addPod pod (default (NewNodeInfo []) (m !! NodeName pod))]> m)
            ps ∅.

(** The first loop of FindNodesToRemove: SetNode on the NodeInfo of every
    node of [allNodes] that has one. *)
Definition setNodes (s : NodeStore) (allNodes : list NodePtr) (infos : gmap string NodeInfo)
  : gmap string NodeInfo :=
  fold_left (fun m p =>
               match m !! nodeName (s p) with
               | Some nodeInfo => <[nodeName (s p) := SetNode p nodeInfo]> m
               | None => m
               end)
            allNodes infos.

(** The collaborators. [CheckPredicates pod n ps] is
    [predicateChecker.CheckPredicates(pod, nodeInfo) == nil] for a NodeInfo
    whose node object reads [n] and whose pods are [ps].
    [FastGetPodsToMove] and [GetPodsForDeletionOnNodeDrain] answer the pods
    to move, or [None] for an error. *)
Variable CheckPredicates : Pod -> Node -> list Pod -> bool.
Variable FastGetPodsToMove : NodeInfo -> option (list Pod).
Variable GetPodsForDeletionOnNodeDrain : string -> option (list Pod).

Definition podKey (pod : Pod) : string := Namespace pod ++ "/" ++ podName pod.

(** What a simulation reads and writes outside findPlaceFor: the hints map
    being filled, the node objects, and (ghost) the node objects on which
    tryNodeForPod ran its assignment to Status.Allocatable, in order. *)
Record heap := mkHeap {
  newHints : gmap string string;
  store : NodeStore;
  evaluated : list NodePtr
}.

(** *** findPlaceFor *)

Definition tryNodeForPod (nodeInfos : gmap string NodeInfo) (nodename : string) (pod : Pod)
  (newNodeInfos : gmap string NodeInfo) (h : heap)
  : outcome (bool * gmap string NodeInfo * heap) :=
  let found := match newNodeInfos !! nodename with
               | Some nodeInfo => Some nodeInfo
               | None => nodeInfos !! nodename
               end in
  match found with
  | None => Return (false, newNodeInfos, h)
  | Some nodeInfo =>
      match node nodeInfo with
      | None => Panic
      | Some p =>
          let s := update (store h) p (overwriteAllocatable (store h p)) in
          if CheckPredicates pod (s p) (pods nodeInfo) then
            let newNodeInfo := SetNode p (NewNodeInfo (pods nodeInfo ++ [pod])) in
            Return (true, <[nodename := newNodeInfo]> newNodeInfos,
                    mkHeap (<[podKey pod := nodename]> (newHints h)) s (evaluated h ++ [p]))
          else Return (false, newNodeInfos, mkHeap (newHints h) s (evaluated h ++ [p]))
      end
  end.

(** The inner loop over [nodes]: first fit, the banned node skipped. *)
Fixpoint scanNodes (nodeInfos : gmap string NodeInfo) (bannedNode : string) (pod : Pod)
  (nodes : list NodePtr) (newNodeInfos : gmap string NodeInfo) (h : heap)
  : outcome (bool * gmap string NodeInfo * heap) :=
  match nodes with
  | [] => Return (false, newNodeInfos, h)
  | n :: rest =>
      if decide (nodeName (store h n) = bannedNode)
      then scanNodes nodeInfos bannedNode pod rest newNodeInfos h
      else
        match tryNodeForPod nodeInfos (nodeName (store h n)) pod newNodeInfos h with
        | Panic => Panic
        | Return (true, newNodeInfos', h') => Return (true, newNodeInfos', h')
        | Return (false, newNodeInfos', h') =>
            scanNodes nodeInfos bannedNode pod rest newNodeInfos' h'
        end
  end.

(** [newpod := *podptr; newpod.Spec.NodeName = ""] *)
Definition clearNodeName (pod : Pod) : Pod :=
  mkPod (Namespace pod) (podName pod) "" (Containers pod).

(** The outer loop over the pods to place. *)
Fixpoint placePods (nodeInfos : gmap string NodeInfo) (bannedNode : string)
  (nodes : list NodePtr) (oldHints : gmap string string)
  (ps : list Pod) (newNodeInfos : gmap string NodeInfo) (h : heap)
  : outcome (option error * heap) :=
  match ps with
  | [] => Return (None, h)
  | podptr :: rest =>
      let pod := clearNodeName podptr in
      let hinted :=
        match oldHints !! podKey pod with
        | Some hintedNode =>
            if decide (hintedNode = bannedNode) then Return (false, newNodeInfos, h)
            else tryNodeForPod nodeInfos hintedNode pod newNodeInfos h
        | None => Return (false, newNodeInfos, h)
        end in
      match hinted with
      | Panic => Panic
      | Return (true, newNodeInfos', h') =>
          placePods nodeInfos bannedNode nodes oldHints rest newNodeInfos' h'
      | Return (false, newNodeInfos', h') =>
          match scanNodes nodeInfos bannedNode pod nodes newNodeInfos' h' with
          | Panic => Panic
          | Return (true, newNodeInfos'', h'') =>
              placePods nodeInfos bannedNode nodes oldHints rest newNodeInfos'' h''
          | Return (false, _, h'') => Return (Some FailedToFindPlace, h'')
          end
      end
  end.

Definition findPlaceFor (bannedNode : string) (ps : list Pod) (nodes : list NodePtr)
  (nodeInfos : gmap string NodeInfo) (oldHints : gmap string string) (h : heap)
  : outcome (option error * heap) :=
  placePods nodeInfos bannedNode nodes oldHints ps ∅ h.

(** *** FindNodesToRemove *)

(** The pods to move for a candidate; [None] when the candidate is skipped
    (FastGetPodsToMove or the drain listing failed, or no NodeInfo). *)
Definition podsToRemoveOf (fastCheck : bool) (nodeNameToNodeInfo : gmap string NodeInfo)
  (name : string) : option (list Pod) :=
  if fastCheck then
    match nodeNameToNodeInfo !! name with
    | Some nodeInfo => FastGetPodsToMove nodeInfo
    | None => None
    end
  else GetPodsForDeletionOnNodeDrain name.

Fixpoint candidateLoop (fastCheck : bool) (nodeNameToNodeInfo : gmap string NodeInfo)
  (allNodes : list NodePtr) (oldHints : gmap string string) (maxCount : Z)
  (candidates : list NodePtr) (result : list NodePtr) (h : heap)
  : outcome (list NodePtr * heap) :=
  match candidates with
  | [] => Return (result, h)
  | n :: rest =>
      match podsToRemoveOf fastCheck nodeNameToNodeInfo (nodeName (store h n)) with
      | None => candidateLoop fastCheck nodeNameToNodeInfo allNodes oldHints maxCount rest result h
      | Some podsToRemove =>
          match findPlaceFor (nodeName (store h n)) podsToRemove allNodes
                  nodeNameToNodeInfo oldHints h with
          | Panic => Panic
          | Return (None, h') =>
              if Z.of_nat (length (result ++ [n])) >=? maxCount
              then Return (result ++ [n], h')
              else candidateLoop fastCheck nodeNameToNodeInfo allNodes oldHints maxCount
                     rest (result ++ [n]) h'
          | Return (Some _, h') =>
              candidateLoop fastCheck nodeNameToNodeInfo allNodes oldHints maxCount rest result h'
          end
      end
  end.

(** What FindNodesToRemove returns, with the node objects as it leaves
    them. *)
Record removal := mkRemoval {
  nodesToRemove : list NodePtr;
  podReschedulingHints : gmap string string;
  finalError : option error;
  finalStore : NodeStore;
  destinations : list NodePtr
}.

Definition nodeInfosOf (s : NodeStore) (allNodes : list NodePtr) (ps : list Pod)
  : gmap string NodeInfo :=
  setNodes s allNodes (CreateNodeNameToInfoMap ps).

Definition FindNodesToRemove (candidates allNodes : list NodePtr) (ps : list Pod)
  (maxCount : Z) (fastCheck : bool) (oldHints : gmap string string) (s : NodeStore)
  : outcome removal :=
  let nodeNameToNodeInfo := nodeInfosOf s allNodes ps in
  match candidateLoop fastCheck nodeNameToNodeInfo allNodes oldHints maxCount
          candidates [] (mkHeap ∅ s []) with
  | Panic => Panic
  | Return (result, h) => Return (mkRemoval result (newHints h) None (store h) (evaluated h))
  end.

(** *** CalculateUtilization *)

Definition podsRequestOf (resourceName : string) (ps : list Pod) : Quantity :=
  fold_left (fun podsRequest pod =>
               fold_left (fun podsRequest container =>
                            match Requests container !! resourceName with
                            | Some resourceValue => quantity_add podsRequest resourceValue
                            | None => podsRequest
                            end)
                         (Containers pod) podsRequest)
            ps quantity_zero.

Definition calculateUtilizationOfResource (n : Node) (nodeInfo : NodeInfo)
  (resourceName : string) : result float :=
  match Capacity n !! resourceName with
  | None => Err (FailedToGet resourceName (nodeName n))
  | Some nodeCapacity =>
      if MilliValue nodeCapacity =? 0 then Err (IsZero resourceName (nodeName n))
      else Ok (PrimFloat.div (float64 (MilliValue (podsRequestOf resourceName (pods nodeInfo))))
                             (float64 (MilliValue nodeCapacity)))
  end.

Definition CalculateUtilization (n : Node) (nodeInfo : NodeInfo) : result float :=
  match calculateUtilizationOfResource n nodeInfo ResourceCPU with
  | Err e => Err e
  | Ok cpu =>
      match calculateUtilizationOfResource n nodeInfo ResourceMemory with
      | Err e => Err e
      | Ok mem => Ok (math_Max cpu mem)
      end
  end.

(** *** Facts about CalculateUtilization *)

(** The requests for a resource found in the containers of the pods, in
    order, and their sum from zero. *)
Definition requestsOf (resourceName : string) (ps : list Pod) : list Quantity :=
  flat_map (fun pod => omap (fun c => Requests c !! resourceName) (Containers pod)) ps.

Definition requested (resourceName : string) (ps : list Pod) : Quantity :=
  fold_left quantity_add (requestsOf resourceName ps) quantity_zero.

(** The capacity for a resource is absent or zero. *)
Definition absentOrZero (n : Node) (resourceName : string) : Prop :=
  match Capacity n !! resourceName with
  | Some q => MilliValue q = 0
  | None => True
  end.

Lemma podsRequestOf_requested (resourceName : string) (ps : list Pod) :
  podsRequestOf resourceName ps = requested resourceName ps.
Proof.
  unfold podsRequestOf, requested, requestsOf.
  generalize quantity_zero as acc.
  induction ps as [|pod rest IH]; intros acc; simpl; [done|].
  rewrite fold_left_app, IH. f_equal.
  generalize acc. clear. induction (Containers pod) as [|c cs IHc]; intros acc; simpl; [done|].
  destruct (Requests c !! resourceName); simpl; apply IHc.
Qed.

Lemma calculateUtilizationOfResource_cases (n : Node) (nodeInfo : NodeInfo) (r : string) :
  match Capacity n !! r with
  | Some q =>
      if MilliValue q =? 0
      then exists e, calculateUtilizationOfResource n nodeInfo r = Err e
      else calculateUtilizationOfResource n nodeInfo r
           = Ok (PrimFloat.div (float64 (MilliValue (requested r (pods nodeInfo))))
                               (float64 (MilliValue q)))
  | None => exists e, calculateUtilizationOfResource n nodeInfo r = Err e
  end.
Proof.
  unfold calculateUtilizationOfResource. rewrite podsRequestOf_requested.
  destruct (Capacity n !! r) as [q|]; [|eauto].
  destruct (MilliValue q =? 0); eauto.
Qed.

(** C5: CalculateUtilization returns an error exactly when the capacity
    for CPU or for memory is absent or zero, and otherwise the maximum
    (math.Max) of the two ratios: the milli-value of the sum of the container
    requests of the pods over the milli-value of the capacity, both as
    float64. *)
Theorem CalculateUtilization_max (n : Node) (nodeInfo : NodeInfo) :
  ((absentOrZero n ResourceCPU \/ absentOrZero n ResourceMemory) <->
   exists e, CalculateUtilization n nodeInfo = Err e)
  /\ (forall cpu mem,
        Capacity n !! ResourceCPU = Some cpu -> MilliValue cpu <> 0 ->
        Capacity n !! ResourceMemory = Some mem -> MilliValue mem <> 0 ->
        CalculateUtilization n nodeInfo
        = Ok (math_Max
                (PrimFloat.div (float64 (MilliValue (requested ResourceCPU (pods nodeInfo))))
                               (float64 (MilliValue cpu)))
                (PrimFloat.div (float64 (MilliValue (requested ResourceMemory (pods nodeInfo))))
                               (float64 (MilliValue mem))))).
Proof.
  unfold CalculateUtilization, absentOrZero.
  pose proof (calculateUtilizationOfResource_cases n nodeInfo ResourceCPU) as Hc.
  pose proof (calculateUtilizationOfResource_cases n nodeInfo ResourceMemory) as Hm.
  destruct (Capacity n !! ResourceCPU) as [qc|].
  - destruct (MilliValue qc =? 0) eqn:Zc.
    + apply Z.eqb_eq in Zc. destruct Hc as [e ->]. split.
      * split; eauto.
      * intros cpu mem [= <-] Hne. done.
    + apply Z.eqb_neq in Zc. rewrite Hc.
      destruct (Capacity n !! ResourceMemory) as [qm|].
      * destruct (MilliValue qm =? 0) eqn:Zm.
        -- apply Z.eqb_eq in Zm. destruct Hm as [e ->]. split.
           ++ split; eauto.
           ++ intros cpu mem _ _ [= <-] Hne. done.
        -- apply Z.eqb_neq in Zm. rewrite Hm. split.
           ++ split; [intros [?|?]; done|intros [e He]; done].
           ++ intros cpu mem [= <-] _ [= <-] _. done.
      * destruct Hm as [e ->]. split; [split; eauto|]. intros; done.
  - destruct Hc as [e ->]. split; [split; eauto|]. intros; done.
Qed.

(** *** Invariants of a simulation *)

Section Run.

(** The node objects when FindNodesToRemove is entered, and its NodeInfo
    map after the SetNode loop. *)
Variable s0 : NodeStore.
Variable nodeInfos : gmap string NodeInfo.
Variable oldHints : gmap string string.

(** The node objects differ from the initial ones in nothing but
    Status.Allocatable, overwritten on exactly the evaluated ones. *)
Definition stable (h : heap) : Prop :=
  (forall p, p ∈ evaluated h -> store h p = overwriteAllocatable (s0 p))
  /\ (forall p, p ∉ evaluated h -> store h p = s0 p).

(** Every hint written names a node with a NodeInfo whose node object was
    evaluated. *)
Definition hintsPlaced (h : heap) : Prop :=
  forall k dest, newHints h !! k = Some dest ->
    exists ni p, nodeInfos !! dest = Some ni /\ node ni = Some p /\ p ∈ evaluated h.

Definition good (h : heap) : Prop := stable h /\ hintsPlaced h.

(** The tentative NodeInfos of one findPlaceFor shadow NodeInfos of the
    map, with the same node object. *)
Definition tentative (nni : gmap string NodeInfo) : Prop :=
  forall name ni', nni !! name = Some ni' ->
    exists ni p, nodeInfos !! name = Some ni /\ node ni = Some p /\ node ni' = Some p.

Definition grows (h h' : heap) : Prop :=
  (forall k, is_Some (newHints h !! k) -> is_Some (newHints h' !! k))
  /\ (forall p, p ∈ evaluated h -> p ∈ evaluated h').

(** A hint of the previous round names a node that has a NodeInfo (pods are
    scheduled on it) without a node object (it is not in allNodes). *)
Definition dangling : Prop :=
  exists k dest ni, oldHints !! k = Some dest /\ nodeInfos !! dest = Some ni /\ node ni = None.

(** Every node of the list that has a NodeInfo has its node object set. *)
Definition nodesSet (nodes : list NodePtr) : Prop :=
  forall n ni, n ∈ nodes -> nodeInfos !! nodeName (s0 n) = Some ni -> is_Some (node ni).

Lemma grows_refl (h : heap) : grows h h.
Proof. by split. Qed.

Lemma grows_trans (h1 h2 h3 : heap) : grows h1 h2 -> grows h2 h3 -> grows h1 h3.
Proof. intros [A1 B1] [A2 B2]. split; eauto. Qed.

Lemma overwriteAllocatable_idem (n : Node) :
  overwriteAllocatable (overwriteAllocatable n) = overwriteAllocatable n.
Proof. done. Qed.

Lemma stable_fields (h : heap) (p : NodePtr) :
  stable h ->
  nodeName (store h p) = nodeName (s0 p) /\ Capacity (store h p) = Capacity (s0 p)
  /\ overwriteAllocatable (store h p) = overwriteAllocatable (s0 p).
Proof.
  intros [A B]. destruct (decide (p ∈ evaluated h)) as [Hin|Hin].
  - by rewrite (A p Hin).
  - by rewrite (B p Hin).
Qed.

Lemma stable_evaluate (h : heap) (p : NodePtr) (hints : gmap string string) :
  stable h ->
  stable (mkHeap hints (update (store h) p (overwriteAllocatable (store h p)))
                 (evaluated h ++ [p])).
Proof.
  intros St. pose proof (stable_fields h p St) as (_ & _ & Ho).
  destruct St as [A B]. split; simpl; intros q Hq; unfold update.
  - destruct (decide (q = p)) as [->|Hne]; [done|].
    apply A. apply elem_of_app in Hq as [Hq|Hq]; [done|].
    apply list_elem_of_singleton in Hq. done.
  - destruct (decide (q = p)) as [->|Hne].
    + exfalso. apply Hq. apply elem_of_app. right. by apply list_elem_of_singleton.
    + apply B. intros Hin. apply Hq. apply elem_of_app. by left.
Qed.

(** What a step of the simulation keeps and adds. *)
Definition kept (pod : Pod) (h : heap) (nni : gmap string NodeInfo)
  (r : bool * gmap string NodeInfo * heap) : Prop :=
  let '(b, nni', h') := r in
  good h' /\ tentative nni' /\ grows h h'
  /\ (b = true -> is_Some (newHints h' !! podKey pod))
  /\ (forall k, k <> podKey pod -> newHints h' !! k = newHints h !! k).

Lemma tryNodeForPod_kept (nodename : string) (pod : Pod)
  (nni : gmap string NodeInfo) (h : heap) :
  good h -> tentative nni ->
  match tryNodeForPod nodeInfos nodename pod nni h with
  | Panic => exists ni, nodeInfos !! nodename = Some ni /\ node ni = None
  | Return r => kept pod h nni r
  end.
Proof.
  intros [St Hp] Ht. unfold tryNodeForPod.
  assert (Hfound : forall ni, match nni !! nodename with
                              | Some x => Some x
                              | None => nodeInfos !! nodename
                              end = Some ni ->
            exists ni0, nodeInfos !! nodename = Some ni0 /\ node ni0 = node ni).
  { intros ni. destruct (nni !! nodename) as [x|] eqn:E.
    - intros [= <-]. destruct (Ht _ _ E) as (ni0 & p & ? & ? & ?).
      exists ni0. split; [done|]. congruence.
    - intros H. by exists ni. }
  destruct (match nni !! nodename with Some x => Some x | None => nodeInfos !! nodename end)
    as [ni|] eqn:F.
  - destruct (Hfound ni eq_refl) as (ni0 & Hni0 & Hnode).
    destruct (node ni) as [p|] eqn:N.
    + assert (Hpe : p ∈ evaluated h ++ [p]).
      { apply elem_of_app. right. by apply list_elem_of_singleton. }
      destruct (CheckPredicates _ _ _).
      * simpl. split; [split|].
        -- by apply stable_evaluate.
        -- intros k dest. simpl. destruct (decide (podKey pod = k)) as [<-|Hne].
           ++ rewrite lookup_insert_eq. intros [= <-]. by exists ni0, p.
           ++ rewrite lookup_insert_ne by done. intros Hk.
              destruct (Hp _ _ Hk) as (ni1 & p1 & ? & ? & ?).
              exists ni1, p1. repeat split; try done. apply elem_of_app. by left.
        -- split; [|split; [|split]].
           ++ intros name ni'. destruct (decide (nodename = name)) as [<-|Hne].
              ** rewrite lookup_insert_eq. intros [= <-]. by exists ni0, p.
              ** rewrite lookup_insert_ne by done. apply Ht.
           ++ split; simpl.
              ** intros k Hk. destruct (decide (podKey pod = k)) as [<-|Hne].
                 --- rewrite lookup_insert_eq. eauto.
                 --- by rewrite lookup_insert_ne.
              ** intros q Hq. apply elem_of_app. by left.
           ++ intros _. simpl. rewrite lookup_insert_eq. eauto.
           ++ intros k Hk. simpl. by rewrite lookup_insert_ne.
      * simpl. split; [split|].
        -- by apply stable_evaluate.
        -- intros k dest. simpl. intros Hk.
           destruct (Hp _ _ Hk) as (ni1 & p1 & ? & ? & ?).
           exists ni1, p1. repeat split; try done. apply elem_of_app. by left.
        -- split; [done|]. split; [|split; [done|done]].
           split; simpl; [done|]. intros q Hq. apply elem_of_app. by left.
    + exists ni0. split; [done|]. congruence.
  - simpl. split; [done|]. split; [done|]. split; [apply grows_refl|]. by split.
Qed.

Lemma kept_trans (pod : Pod) (h1 h2 : heap) (nni1 nni2 : gmap string NodeInfo)
  (b1 : bool) (r : bool * gmap string NodeInfo * heap) :
  kept pod h1 nni1 (b1, nni2, h2) -> kept pod h2 nni2 r -> kept pod h1 nni1 r.
Proof.
  destruct r as [[b nni'] h']. intros (G1 & T1 & W1 & _ & F1) (G2 & T2 & W2 & S2 & F2).
  repeat split; try done; try apply G2.
  - intros k Hk. by apply W2, W1.
  - intros p Hp. by apply W2, W1.
  - intros k Hk. by rewrite F2, F1.
Qed.

Lemma kept_refl (pod : Pod) (h : heap) (nni : gmap string NodeInfo) :
  good h -> tentative nni -> kept pod h nni (false, nni, h).
Proof. intros. repeat split; try done; apply H. Qed.

Lemma scanNodes_kept (bannedNode : string) (pod : Pod) (nodes : list NodePtr)
  (nni : gmap string NodeInfo) (h : heap) :
  nodesSet nodes -> good h -> tentative nni ->
  match scanNodes nodeInfos bannedNode pod nodes nni h with
  | Panic => False
  | Return r => kept pod h nni r
  end.
Proof.
  revert nni h. induction nodes as [|n rest IH]; intros nni h Hset Hg Ht; simpl.
  - by apply kept_refl.
  - assert (Hrest : nodesSet rest).
    { intros x ni Hx. apply Hset. by right. }
    destruct (decide (nodeName (store h n) = bannedNode)); [by apply IH|].
    pose proof (tryNodeForPod_kept (nodeName (store h n)) pod nni h Hg Ht) as Htry.
    destruct (tryNodeForPod nodeInfos (nodeName (store h n)) pod nni h)
      as [|[[b nni1] h1]].
    + destruct Htry as (ni & Hni & Hnone).
      destruct (stable_fields h n (proj1 Hg)) as (Hname & _).
      rewrite Hname in Hni. destruct (Hset n ni) as [p Hp]; [by left|done|congruence].
    + destruct b; [done|].
      pose proof Htry as (G1 & T1 & _).
      specialize (IH nni1 h1 Hrest G1 T1).
      destruct (scanNodes nodeInfos bannedNode pod rest nni1 h1) as [|r]; [done|].
      by eapply kept_trans.
Qed.

Lemma podKey_clearNodeName (pod : Pod) : podKey (clearNodeName pod) = podKey pod.
Proof. done. Qed.

(** What findPlaceFor keeps and adds. *)
Definition placed (ps : list Pod) (h : heap) (r : option error * heap) : Prop :=
  let '(e, h') := r in
  good h' /\ grows h h'
  /\ (e = None -> forall pod, pod ∈ ps -> is_Some (newHints h' !! podKey pod))
  /\ (forall k, k ∉ map podKey ps -> newHints h' !! k = newHints h !! k).

Lemma placePods_placed (bannedNode : string) (nodes : list NodePtr) (ps : list Pod)
  (nni : gmap string NodeInfo) (h : heap) :
  nodesSet nodes -> good h -> tentative nni ->
  match placePods nodeInfos bannedNode nodes oldHints ps nni h with
  | Panic => dangling
  | Return r => placed ps h r
  end.
Proof.
  intros Hset. revert nni h. induction ps as [|podptr rest IH]; intros nni h Hg Ht; simpl.
  - split; [done|]. split; [apply grows_refl|]. split; [|done].
    by intros _ ? ?%elem_of_nil.
  - set (pod := clearNodeName podptr).
    assert (Hhint :
      match (match oldHints !! podKey pod with
             | Some hintedNode =>
                 if decide (hintedNode = bannedNode) then Return (false, nni, h)
                 else tryNodeForPod nodeInfos hintedNode pod nni h
             | None => Return (false, nni, h)
             end) with
      | Panic => dangling
      | Return r => kept pod h nni r
      end).
    { destruct (oldHints !! podKey pod) as [hintedNode|] eqn:Hh; [|by apply kept_refl].
      destruct (decide (hintedNode = bannedNode)); [by apply kept_refl|].
      pose proof (tryNodeForPod_kept hintedNode pod nni h Hg Ht) as Htry.
      destruct (tryNodeForPod nodeInfos hintedNode pod nni h); [|done].
      destruct Htry as (ni & ? & ?). by exists (podKey pod), hintedNode, ni. }
    destruct (match oldHints !! podKey pod with
              | Some hintedNode =>
                  if decide (hintedNode = bannedNode) then Return (false, nni, h)
                  else tryNodeForPod nodeInfos hintedNode pod nni h
              | None => Return (false, nni, h)
              end) as [|[[b nni1] h1]]; [done|].
    assert (Hstep : forall nni2 h2, kept pod h nni (true, nni2, h2) ->
      match placePods nodeInfos bannedNode nodes oldHints rest nni2 h2 with
      | Panic => dangling
      | Return r => placed (podptr :: rest) h r
      end).
    { intros nni2 h2 (G2 & T2 & W2 & S2 & F2). specialize (IH nni2 h2 G2 T2).
      destruct (placePods nodeInfos bannedNode nodes oldHints rest nni2 h2)
        as [|[e h3]]; [done|].
      destruct IH as (G3 & W3 & S3 & F3). repeat split; try apply G3.
      - intros k Hk. by apply W3, W2.
      - intros p Hp. by apply W3, W2.
      - intros -> x Hx. apply elem_of_cons in Hx as [->|Hx]; [|by apply S3].
        apply (proj1 W3). exact (S2 eq_refl).
      - intros k Hk. rewrite F3, F2; [done| |].
        + intros ->. apply Hk. simpl. by left.
        + intros Hin. apply Hk. simpl. by right. }
    destruct b; [by apply Hstep|].
    pose proof Hhint as (G1 & T1 & _).
    pose proof (scanNodes_kept bannedNode pod nodes nni1 h1 Hset G1 T1) as Hscan.
    destruct (scanNodes nodeInfos bannedNode pod nodes nni1 h1) as [|[[b nni2] h2]]; [done|].
    pose proof (kept_trans pod h h1 nni nni1 false _ Hhint Hscan) as Hk.
    destruct b; [by apply Hstep|].
    destruct Hk as (G2 & T2 & W2 & S2 & F2). repeat split; try done; try apply G2; try apply W2.
    intros k Hk. apply F2. intros ->. apply Hk. simpl. by left.
Qed.

(** The pods to move of a candidate are known and each has a hint. *)
Definition movable (fastCheck : bool) (hints : gmap string string) (n : NodePtr) : Prop :=
  exists podsToMove,
    podsToRemoveOf fastCheck nodeInfos (nodeName (s0 n)) = Some podsToMove
    /\ forall pod, pod ∈ podsToMove -> is_Some (hints !! podKey pod).

Lemma tentative_empty : tentative ∅.
Proof. intros name ni. by rewrite lookup_empty. Qed.

Lemma candidateLoop_kept (fastCheck : bool) (allNodes : list NodePtr) (maxCount : Z)
  (candidates result : list NodePtr) (h : heap) :
  nodesSet allNodes -> good h ->
  (forall n, n ∈ result -> movable fastCheck (newHints h) n) ->
  match candidateLoop fastCheck nodeInfos allNodes oldHints maxCount candidates result h with
  | Panic => dangling
  | Return (result', h') =>
      good h' /\ grows h h'
      /\ (forall n, n ∈ result' ->
            movable fastCheck (newHints h') n /\ (n ∈ result \/ n ∈ candidates))
  end.
Proof.
  intros Hset. revert result h.
  induction candidates as [|c rest IH]; intros result h Hg Hres; simpl.
  - split; [done|]. split; [apply grows_refl|]. intros n Hn. split; [by apply Hres|by left].
  - destruct (stable_fields h c (proj1 Hg)) as (Hname & _). rewrite Hname.
    assert (Hskip : forall h1, good h1 -> grows h h1 ->
      match candidateLoop fastCheck nodeInfos allNodes oldHints maxCount rest result h1 with
      | Panic => dangling
      | Return (result', h') =>
          good h' /\ grows h h'
          /\ (forall n, n ∈ result' ->
                movable fastCheck (newHints h') n /\ (n ∈ result \/ n ∈ c :: rest))
      end).
    { intros h1 G1 W1. specialize (IH result h1 G1).
      destruct (candidateLoop fastCheck nodeInfos allNodes oldHints maxCount rest result h1)
        as [|[result' h']].
      - apply IH. intros n Hn. destruct (Hres n Hn) as (pm & ? & Hk).
        exists pm. split; [done|]. intros pod Hpod. by apply W1, Hk.
      - destruct IH as (G' & W' & R').
        { intros n Hn. destruct (Hres n Hn) as (pm & ? & Hk).
          exists pm. split; [done|]. intros pod Hpod. by apply W1, Hk. }
        split; [done|]. split; [by eapply grows_trans|].
        intros n Hn. destruct (R' n Hn) as [? [?|?]]; split; try done; [by left|].
        right. by right. }
    destruct (podsToRemoveOf fastCheck nodeInfos (nodeName (s0 c))) as [podsToRemove|] eqn:P.
    + unfold findPlaceFor.
      pose proof (placePods_placed (nodeName (s0 c)) allNodes podsToRemove ∅ h
                    Hset Hg tentative_empty) as Hplace.
      destruct (placePods nodeInfos (nodeName (s0 c)) allNodes oldHints podsToRemove ∅ h)
        as [|[e h1]]; [done|].
      destruct Hplace as (G1 & W1 & S1 & F1).
      destruct e as [e|]; [by apply Hskip|].
      assert (Hres1 : forall n, n ∈ result ++ [c] -> movable fastCheck (newHints h1) n).
      { intros n Hn. apply elem_of_app in Hn as [Hn|Hn].
        - destruct (Hres n Hn) as (pm & ? & Hk).
          exists pm. split; [done|]. intros pod Hpod. by apply W1, Hk.
        - apply list_elem_of_singleton in Hn as ->. exists podsToRemove. split; [done|].
          by apply S1. }
      destruct (Z.of_nat (length (result ++ [c])) >=? maxCount).
      * split; [done|]. split; [done|]. intros n Hn. split; [by apply Hres1|].
        apply elem_of_app in Hn as [Hn|Hn]; [by left|].
        apply list_elem_of_singleton in Hn as ->. right. by left.
      * specialize (IH (result ++ [c]) h1 G1 Hres1).
        destruct (candidateLoop fastCheck nodeInfos allNodes oldHints maxCount rest
                    (result ++ [c]) h1) as [|[result' h']]; [done|].
        destruct IH as (G' & W' & R').
        split; [done|]. split; [by eapply grows_trans|].
        intros n Hn. destruct (R' n Hn) as [? Hor]. split; [done|].
        destruct Hor as [Hor|Hor]; [|right; by right].
        apply elem_of_app in Hor as [Hor|Hor]; [by left|].
        apply list_elem_of_singleton in Hor as ->. right. by left.
    + apply Hskip; [done|apply grows_refl].
Qed.

End Run.

(** *** Two simulations side by side *)

Section Alike.

Variable nodeInfos : gmap string NodeInfo.
Variable oldHints : gmap string string.

(** Two stores that differ in Status.Allocatable at most. *)
Definition alike (h1 h2 : heap) : Prop :=
  forall p, overwriteAllocatable (store h1 p) = overwriteAllocatable (store h2 p).

(** Hint keys on which two heaps agree stay agreed. *)
Definition agreeing (h1 h2 h1' h2' : heap) : Prop :=
  forall k, newHints h1 !! k = newHints h2 !! k -> newHints h1' !! k = newHints h2' !! k.

Definition alikeTry (h1 h2 : heap) (o1 o2 : outcome (bool * gmap string NodeInfo * heap))
  : Prop :=
  match o1, o2 with
  | Panic, Panic => True
  | Return (b1, n1, h1'), Return (b2, n2, h2') =>
      b1 = b2 /\ n1 = n2 /\ alike h1' h2' /\ agreeing h1 h2 h1' h2'
  | _, _ => False
  end.

Definition alikePlace (h1 h2 : heap) (o1 o2 : outcome (option error * heap)) : Prop :=
  match o1, o2 with
  | Panic, Panic => True
  | Return (e1, h1'), Return (e2, h2') =>
      e1 = e2 /\ alike h1' h2' /\ agreeing h1 h2 h1' h2'
  | _, _ => False
  end.

Lemma alike_name (h1 h2 : heap) (p : NodePtr) :
  alike h1 h2 -> nodeName (store h1 p) = nodeName (store h2 p).
Proof. intros H. exact (f_equal nodeName (H p)). Qed.

Lemma alikeTry_refl (h1 h2 : heap) (b : bool) (nni : gmap string NodeInfo) :
  alike h1 h2 -> alikeTry h1 h2 (Return (b, nni, h1)) (Return (b, nni, h2)).
Proof. intros H. split; [done|]. split; [done|]. split; [done|]. by intros k. Qed.

Lemma alikeTry_trans (h1 h2 h1' h2' : heap) (b : bool) (nni : gmap string NodeInfo) o1 o2 :
  alikeTry h1 h2 (Return (b, nni, h1')) (Return (b, nni, h2')) ->
  alikeTry h1' h2' o1 o2 -> alikeTry h1 h2 o1 o2.
Proof.
  intros (_ & _ & A & G). destruct o1 as [|[[b1 n1] x1]], o2 as [|[[b2 n2] x2]]; try done.
  intros (? & ? & ? & G'). repeat split; try done. intros k Hk. by apply G', G.
Qed.

Lemma tryNodeForPod_alike (nodename : string) (pod : Pod) (nni : gmap string NodeInfo)
  (h1 h2 : heap) :
  alike h1 h2 ->
  alikeTry h1 h2 (tryNodeForPod nodeInfos nodename pod nni h1)
                 (tryNodeForPod nodeInfos nodename pod nni h2).
Proof.
  intros A. unfold tryNodeForPod.
  destruct (match nni !! nodename with Some x => Some x | None => nodeInfos !! nodename end)
    as [ni|]; [|by apply alikeTry_refl].
  destruct (node ni) as [p|]; [|done].
  assert (E : update (store h1) p (overwriteAllocatable (store h1 p)) p
              = update (store h2) p (overwriteAllocatable (store h2 p)) p).
  { unfold update. rewrite !decide_True by done. apply A. }
  assert (A' : forall q,
    overwriteAllocatable (update (store h1) p (overwriteAllocatable (store h1 p)) q)
    = overwriteAllocatable (update (store h2) p (overwriteAllocatable (store h2 p)) q)).
  { intros q. unfold update. destruct (decide (q = p)); [|apply A].
    by rewrite !overwriteAllocatable_idem. }
  rewrite E. destruct (CheckPredicates _ _ _); simpl.
  - split; [done|]. split; [done|]. split; [exact A'|].
    intros k Hk. simpl.
    destruct (decide (podKey pod = k)) as [<-|Hne].
    + by rewrite !lookup_insert_eq.
    + by rewrite !lookup_insert_ne.
  - split; [done|]. split; [done|]. split; [exact A'|]. by intros k.
Qed.

Lemma scanNodes_alike (bannedNode : string) (pod : Pod) (nodes : list NodePtr)
  (nni : gmap string NodeInfo) (h1 h2 : heap) :
  alike h1 h2 ->
  alikeTry h1 h2 (scanNodes nodeInfos bannedNode pod nodes nni h1)
                 (scanNodes nodeInfos bannedNode pod nodes nni h2).
Proof.
  revert nni h1 h2. induction nodes as [|n rest IH]; intros nni h1 h2 A; simpl.
  - by apply alikeTry_refl.
  - rewrite (alike_name h1 h2 n A).
    destruct (decide (nodeName (store h2 n) = bannedNode)); [by apply IH|].
    pose proof (tryNodeForPod_alike (nodeName (store h2 n)) pod nni h1 h2 A) as T.
    destruct (tryNodeForPod nodeInfos (nodeName (store h2 n)) pod nni h1)
      as [|[[b1 n1] x1]],
             (tryNodeForPod nodeInfos (nodeName (store h2 n)) pod nni h2)
      as [|[[b2 n2] x2]]; try done.
    pose proof T as (<- & <- & A' & G).
    destruct b1; [done|].
    eapply alikeTry_trans; [exact T|]. by apply IH.
Qed.

Lemma placePods_alike (bannedNode : string) (nodes : list NodePtr) (ps : list Pod)
  (nni : gmap string NodeInfo) (h1 h2 : heap) :
  alike h1 h2 ->
  alikePlace h1 h2 (placePods nodeInfos bannedNode nodes oldHints ps nni h1)
                   (placePods nodeInfos bannedNode nodes oldHints ps nni h2).
Proof.
  revert nni h1 h2. induction ps as [|podptr rest IH]; intros nni h1 h2 A; simpl.
  - split; [done|]. split; [done|]. by intros k.
  - set (pod := clearNodeName podptr).
    assert (Hhint : alikeTry h1 h2
      (match oldHints !! podKey pod with
       | Some hintedNode =>
           if decide (hintedNode = bannedNode) then Return (false, nni, h1)
           else tryNodeForPod nodeInfos hintedNode pod nni h1
       | None => Return (false, nni, h1)
       end)
      (match oldHints !! podKey pod with
       | Some hintedNode =>
           if decide (hintedNode = bannedNode) then Return (false, nni, h2)
           else tryNodeForPod nodeInfos hintedNode pod nni h2
       | None => Return (false, nni, h2)
       end)).
    { destruct (oldHints !! podKey pod) as [hintedNode|]; [|by apply alikeTry_refl].
      destruct (decide (hintedNode = bannedNode)); [by apply alikeTry_refl|].
      by apply tryNodeForPod_alike. }
    destruct (match oldHints !! podKey pod with
              | Some hintedNode =>
                  if decide (hintedNode = bannedNode) then Return (false, nni, h1)
                  else tryNodeForPod nodeInfos hintedNode pod nni h1
              | None => Return (false, nni, h1)
              end) as [|[[b1 n1] x1]],
             (match oldHints !! podKey pod with
              | Some hintedNode =>
                  if decide (hintedNode = bannedNode) then Return (false, nni, h2)
                  else tryNodeForPod nodeInfos hintedNode pod nni h2
              | None => Return (false, nni, h2)
              end) as [|[[b2 n2] x2]]; try done.
    destruct Hhint as (<- & <- & A1 & G1).
    assert (Hrest : forall nn y1 y2, alike y1 y2 -> agreeing h1 h2 y1 y2 ->
      alikePlace h1 h2 (placePods nodeInfos bannedNode nodes oldHints rest nn y1)
                       (placePods nodeInfos bannedNode nodes oldHints rest nn y2)).
    { intros nn y1 y2 Ay Gy. specialize (IH nn y1 y2 Ay).
      destruct (placePods nodeInfos bannedNode nodes oldHints rest nn y1) as [|[e1 z1]],
               (placePods nodeInfos bannedNode nodes oldHints rest nn y2) as [|[e2 z2]];
        try done.
      destruct IH as (? & ? & G'). repeat split; try done. intros k Hk. by apply G', Gy. }
    destruct b1; [by apply Hrest|].
    pose proof (scanNodes_alike bannedNode pod nodes n1 x1 x2 A1) as S.
    destruct (scanNodes nodeInfos bannedNode pod nodes n1 x1) as [|[[c1 m1] y1]],
             (scanNodes nodeInfos bannedNode pod nodes n1 x2) as [|[[c2 m2] y2]];
      try done.
    destruct S as (<- & <- & A2 & G2).
    assert (G12 : agreeing h1 h2 y1 y2) by (intros k Hk; by apply G2, G1).
    destruct c1; [by apply Hrest|]. split; [done|]. by split.
Qed.

(** The candidate loops of two simulations that start alike, over the same
    candidates. *)
Definition alikeLoop (h1 h2 : heap) (o1 o2 : outcome (list NodePtr * heap)) : Prop :=
  match o1, o2 with
  | Panic, Panic => True
  | Return (r1, h1'), Return (r2, h2') =>
      r1 = r2 /\ alike h1' h2' /\ agreeing h1 h2 h1' h2'
  | _, _ => False
  end.

Lemma alikeLoop_trans (h1 h2 h1' h2' : heap) o1 o2 :
  agreeing h1 h2 h1' h2' -> alikeLoop h1' h2' o1 o2 -> alikeLoop h1 h2 o1 o2.
Proof.
  intros G. destruct o1 as [|[r1 x1]], o2 as [|[r2 x2]]; try done.
  intros (? & ? & G'). repeat split; try done. intros k Hk. by apply G', G.
Qed.

Lemma candidateLoop_alike (fastCheck : bool) (allNodes : list NodePtr) (maxCount : Z)
  (candidates result : list NodePtr) (h1 h2 : heap) :
  alike h1 h2 ->
  alikeLoop h1 h2
    (candidateLoop fastCheck nodeInfos allNodes oldHints maxCount candidates result h1)
    (candidateLoop fastCheck nodeInfos allNodes oldHints maxCount candidates result h2).
Proof.
  revert result h1 h2. induction candidates as [|c rest IH]; intros result h1 h2 A; simpl.
  - split; [done|]. split; [done|]. by intros k.
  - rewrite (alike_name h1 h2 c A).
    destruct (podsToRemoveOf fastCheck nodeInfos (nodeName (store h2 c)))
      as [podsToRemove|]; [|by apply IH].
    unfold findPlaceFor.
    pose proof (placePods_alike (nodeName (store h2 c)) allNodes podsToRemove ∅ h1 h2 A) as P.
    destruct (placePods nodeInfos (nodeName (store h2 c)) allNodes oldHints podsToRemove ∅ h1)
      as [|[e1 x1]],
             (placePods nodeInfos (nodeName (store h2 c)) allNodes oldHints podsToRemove ∅ h2)
      as [|[e2 x2]]; try done.
    destruct P as (<- & A1 & G1).
    destruct e1 as [e|].
    + eapply alikeLoop_trans; [exact G1|]. by apply IH.
    + destruct (Z.of_nat (length (result ++ [c])) >=? maxCount); [split; [done|]; by split|].
      eapply alikeLoop_trans; [exact G1|]. by apply IH.
Qed.

End Alike.

(** *** Facts about FindNodesToRemove *)

Lemma setNodes_kept (s : NodeStore) (l : list NodePtr) (m : gmap string NodeInfo) (x : string) :
  (forall ni, m !! x = Some ni -> is_Some (node ni)) ->
  forall ni, setNodes s l m !! x = Some ni -> is_Some (node ni).
Proof.
  revert m. induction l as [|p rest IH]; intros m Hm; simpl; [done|].
  apply IH. destruct (m !! nodeName (s p)) as [nodeInfo|] eqn:E; [|done].
  intros ni. destruct (decide (nodeName (s p) = x)) as [<-|Hne].
  - rewrite lookup_insert_eq. intros [= <-]. simpl. eauto.
  - rewrite lookup_insert_ne by done. apply Hm.
Qed.

Lemma setNodes_nodesSet (s : NodeStore) (allNodes : list NodePtr) (m : gmap string NodeInfo) :
  nodesSet s (setNodes s allNodes m) allNodes.
Proof.
  unfold nodesSet. revert m. induction allNodes as [|p rest IH]; intros m n ni Hn.
  - by apply elem_of_nil in Hn.
  - apply elem_of_cons in Hn as [->|Hn]; simpl; [|by apply IH].
    apply setNodes_kept. intros x.
    destruct (m !! nodeName (s p)) as [nodeInfo|] eqn:E; [|by rewrite E].
    rewrite lookup_insert_eq. intros [= <-]. simpl. eauto.
Qed.

Lemma good_initial (s : NodeStore) (infos : gmap string NodeInfo) :
  good s infos (mkHeap ∅ s []).
Proof.
  split; [split|]; simpl.
  - by intros p ?%elem_of_nil.
  - done.
  - intros k dest H. simpl in H. by rewrite lookup_empty in H.
Qed.


(** Whenever FindNodesToRemove returns, its error is nil. *)
Lemma FindNodesToRemove_error_nil (candidates allNodes : list NodePtr) (ps : list Pod)
  (maxCount : Z) (fastCheck : bool) (oldHints : gmap string string) (s : NodeStore) :
  match FindNodesToRemove candidates allNodes ps maxCount fastCheck oldHints s with
  | Panic => dangling (nodeInfosOf s allNodes ps) oldHints
  | Return r => finalError r = None
  end.
Proof.
  unfold FindNodesToRemove.
  pose proof (candidateLoop_kept s (nodeInfosOf s allNodes ps) oldHints fastCheck allNodes
                maxCount candidates [] (mkHeap ∅ s [])
                (setNodes_nodesSet s allNodes _) (good_initial s _)) as H.
  destruct (candidateLoop fastCheck (nodeInfosOf s allNodes ps) allNodes oldHints maxCount
              candidates [] (mkHeap ∅ s [])) as [|[result h]]; [|done].
  apply H. by intros n ?%elem_of_nil.
Qed.

(** *** A candidate that fails *)

Lemma stable_alike (s : NodeStore) (h1 h2 : heap) :
  stable s h1 -> stable s h2 -> alike h1 h2.
Proof.
  intros S1 S2 p.
  destruct (stable_fields s h1 p S1) as (_ & _ & ->).
  by destruct (stable_fields s h2 p S2) as (_ & _ & ->).
Qed.



(** The simulation of a candidate, run on the node objects as they were at
    the start, places every pod. *)
Definition succeeds (s : NodeStore) (nodeInfos : gmap string NodeInfo)
  (oldHints : gmap string string) (fastCheck : bool) (allNodes : list NodePtr)
  (n : NodePtr) : Prop :=
  exists podsToMove h',
    podsToRemoveOf fastCheck nodeInfos (nodeName (s n)) = Some podsToMove
    /\ findPlaceFor (nodeName (s n)) podsToMove allNodes nodeInfos oldHints (mkHeap ∅ s [])
       = Return (None, h').

Lemma candidateLoop_succeeds (s : NodeStore) (nodeInfos : gmap string NodeInfo)
  (oldHints : gmap string string) (fastCheck : bool) (allNodes : list NodePtr)
  (maxCount : Z) (candidates result result' : list NodePtr) (h h' : heap) :
  nodesSet s nodeInfos allNodes -> good s nodeInfos h ->
  (forall n, n ∈ result -> succeeds s nodeInfos oldHints fastCheck allNodes n) ->
  candidateLoop fastCheck nodeInfos allNodes oldHints maxCount candidates result h
  = Return (result', h') ->
  forall n, n ∈ result' -> succeeds s nodeInfos oldHints fastCheck allNodes n.
Proof.
  intros Hset. revert result h.
  induction candidates as [|c rest IH]; intros result h G Hres; cbn [candidateLoop].
  - by intros [= <- <-].
  - destruct (stable_fields s h c (proj1 G)) as (-> & _).
    destruct (podsToRemoveOf fastCheck nodeInfos (nodeName (s c))) as [pc|] eqn:Hpc;
      [|by apply IH].
    unfold findPlaceFor.
    pose proof (placePods_alike nodeInfos oldHints (nodeName (s c)) allNodes pc ∅
                  (mkHeap ∅ s []) h
                  (stable_alike s _ _ (proj1 (good_initial s nodeInfos)) (proj1 G))) as P.
    pose proof (placePods_placed s nodeInfos oldHints (nodeName (s c)) allNodes pc ∅ h
                  Hset G (tentative_empty nodeInfos)) as K.
    destruct (placePods nodeInfos (nodeName (s c)) allNodes oldHints pc ∅ h)
      as [|[e x]]; [done|].
    destruct K as (Gx & _).
    destruct e as [e|]; [by apply IH|].
    assert (Hres' : forall n, n ∈ result ++ [c] ->
                      succeeds s nodeInfos oldHints fastCheck allNodes n).
    { intros n Hn. apply elem_of_app in Hn as [Hn|Hn]; [by apply Hres|].
      apply list_elem_of_singleton in Hn as ->.
      destruct (placePods nodeInfos (nodeName (s c)) allNodes oldHints pc ∅ (mkHeap ∅ s []))
        as [|[e0 x0]] eqn:E0; [done|].
      destruct P as (-> & _). exists pc, x0. by split. }
    destruct (Z.of_nat (length (result ++ [c])) >=? maxCount); [|by apply IH].
    by intros [= <- <-].
Qed.

(** C1: every node FindNodesToRemove returns is a candidate for which
    findPlaceFor found a place for every pod to move (it returned no error),
    and each of these pods has an entry in the returned hints map, naming a
    node known to the simulation. The call returns unless an old hint names
    a node that has pods but no node object. *)
Theorem FindNodesToRemove_placements (candidates allNodes : list NodePtr) (ps : list Pod)
  (maxCount : Z) (fastCheck : bool) (oldHints : gmap string string) (s : NodeStore) :
  match FindNodesToRemove candidates allNodes ps maxCount fastCheck oldHints s with
  | Panic => dangling (nodeInfosOf s allNodes ps) oldHints
  | Return r =>
      forall n, n ∈ nodesToRemove r ->
        n ∈ candidates
        /\ exists podsToMove h',
             podsToRemoveOf fastCheck (nodeInfosOf s allNodes ps) (nodeName (s n))
             = Some podsToMove
             /\ findPlaceFor (nodeName (s n)) podsToMove allNodes (nodeInfosOf s allNodes ps)
                  oldHints (mkHeap ∅ s []) = Return (None, h')
             /\ forall pod, pod ∈ podsToMove ->
                  exists dest, podReschedulingHints r !! podKey pod = Some dest
                               /\ is_Some (nodeInfosOf s allNodes ps !! dest)
  end.
Proof.
  unfold FindNodesToRemove.
  pose proof (candidateLoop_kept s (nodeInfosOf s allNodes ps) oldHints fastCheck allNodes
                maxCount candidates [] (mkHeap ∅ s [])
                (setNodes_nodesSet s allNodes _) (good_initial s _)) as H.
  destruct (candidateLoop fastCheck (nodeInfosOf s allNodes ps) allNodes oldHints maxCount
              candidates [] (mkHeap ∅ s [])) as [|[result h]] eqn:E.
  - apply H. by intros n ?%elem_of_nil.
  - destruct H as ([_ Hp] & _ & R); [by intros n ?%elem_of_nil|].
    simpl. intros n Hn. destruct (R n Hn) as [(pm & Hpm & Hk) [Hin|Hin]].
    + by apply elem_of_nil in Hin.
    + split; [done|].
      assert (Hs : succeeds s (nodeInfosOf s allNodes ps) oldHints fastCheck allNodes n).
      { eapply (candidateLoop_succeeds s (nodeInfosOf s allNodes ps) oldHints fastCheck
                  allNodes maxCount candidates [] result (mkHeap ∅ s []) h);
          [apply setNodes_nodesSet|apply good_initial|by intros x ?%elem_of_nil|done|done]. }
      destruct Hs as (pm' & h' & Hpm' & Hok). rewrite Hpm in Hpm'. injection Hpm' as <-.
      exists pm, h'. split; [done|]. split; [done|]. intros pod Hpod.
      destruct (Hk pod Hpod) as [dest Hd]. exists dest. split; [done|].
      destruct (Hp _ _ Hd) as (ni & p & -> & _). eauto.
Qed.


(** *** More about FindNodesToRemove *)

Lemma candidateLoop_sublist (nodeInfos : gmap string NodeInfo) (oldHints : gmap string string)
  (fastCheck : bool) (allNodes : list NodePtr) (maxCount : Z)
  (candidates result result' : list NodePtr) (h h' : heap) :
  candidateLoop fastCheck nodeInfos allNodes oldHints maxCount candidates result h
  = Return (result', h') ->
  exists l, result' = result ++ l /\ sublist l candidates
    /\ (Z.of_nat (length result) < Z.max 1 maxCount ->
        Z.of_nat (length result') <= Z.max 1 maxCount).
Proof.
  revert result h. induction candidates as [|c rest IH]; intros result h; cbn [candidateLoop].
  - intros [= <- <-]. exists []. rewrite app_nil_r. split; [done|]. split; [done|lia].
  - assert (Hskip : forall h1,
      candidateLoop fastCheck nodeInfos allNodes oldHints maxCount rest result h1
      = Return (result', h') ->
      exists l, result' = result ++ l /\ sublist l (c :: rest)
        /\ (Z.of_nat (length result) < Z.max 1 maxCount ->
            Z.of_nat (length result') <= Z.max 1 maxCount)).
    { intros h1 H. destruct (IH _ _ H) as (l & -> & Hl & Hb).
      exists l. split; [done|]. split; [by apply sublist_cons_r; left|done]. }
    destruct (podsToRemoveOf fastCheck nodeInfos (nodeName (store h c))) as [pc|];
      [|apply Hskip].
    destruct (findPlaceFor _ _ _ _ _ _) as [|[[e|] h1]]; [done|apply Hskip|].
    destruct (Z.of_nat (length (result ++ [c])) >=? maxCount) eqn:Hmax.
    + intros [= <- <-]. exists [c]. split; [done|]. split.
      * apply sublist_skip. apply sublist_nil_l.
      * rewrite length_app. simpl. lia.
    + intros H. destruct (IH _ _ H) as (l' & -> & Hl & Hb).
      exists (c :: l'). split; [by rewrite <- app_assoc|].
      split; [by apply sublist_skip|].
      intros Hlt. apply Hb. rewrite Z.geb_leb in Hmax. apply Z.leb_gt in Hmax.
      rewrite length_app in *. simpl in *. lia.
Qed.

(** X11: the nodes FindNodesToRemove returns are candidates, in the order of
    the candidate list and each at most as often as it is listed, and at most
    maxCount of them - one when maxCount is below one, because the count is
    tested after a node was added. *)
Theorem FindNodesToRemove_sublist (candidates allNodes : list NodePtr) (ps : list Pod)
  (maxCount : Z) (fastCheck : bool) (oldHints : gmap string string) (s : NodeStore) :
  match FindNodesToRemove candidates allNodes ps maxCount fastCheck oldHints s with
  | Panic => True
  | Return r =>
      sublist (nodesToRemove r) candidates
      /\ Z.of_nat (length (nodesToRemove r)) <= Z.max 1 maxCount
  end.
Proof.
  unfold FindNodesToRemove.
  destruct (candidateLoop fastCheck (nodeInfosOf s allNodes ps) allNodes oldHints maxCount
              candidates [] (mkHeap ∅ s [])) as [|[result h]] eqn:E; [done|].
  destruct (candidateLoop_sublist _ _ _ _ _ _ _ _ _ _ E) as (l & -> & Hl & Hb).
  simpl. split; [done|]. apply Hb. simpl. lia.
Qed.

Lemma setNodes_ext (s1 s2 : NodeStore) (l : list NodePtr) (m : gmap string NodeInfo) :
  (forall p, nodeName (s1 p) = nodeName (s2 p)) -> setNodes s1 l m = setNodes s2 l m.
Proof.
  intros H. revert m. induction l as [|p l IH]; intros m; simpl; [done|].
  by rewrite H, IH.
Qed.

Lemma candidateLoop_same (nodeInfos : gmap string NodeInfo) (oldHints : gmap string string)
  (fastCheck : bool) (allNodes : list NodePtr) (maxCount : Z)
  (candidates : list NodePtr) (s1 s2 : NodeStore) :
  (forall p, overwriteAllocatable (s1 p) = overwriteAllocatable (s2 p)) ->
  match candidateLoop fastCheck nodeInfos allNodes oldHints maxCount candidates []
          (mkHeap ∅ s1 []),
        candidateLoop fastCheck nodeInfos allNodes oldHints maxCount candidates []
          (mkHeap ∅ s2 []) with
  | Panic, Panic => True
  | Return (r1, h1), Return (r2, h2) => r1 = r2 /\ newHints h1 = newHints h2
  | _, _ => False
  end.
Proof.
  intros H.
  pose proof (candidateLoop_alike nodeInfos oldHints fastCheck allNodes maxCount candidates []
                (mkHeap ∅ s1 []) (mkHeap ∅ s2 []) H) as A.
  destruct (candidateLoop _ _ _ _ _ _ _ (mkHeap ∅ s1 [])) as [|[r1 h1]],
           (candidateLoop _ _ _ _ _ _ _ (mkHeap ∅ s2 [])) as [|[r2 h2]]; try done.
  destruct A as (-> & _ & G). split; [done|]. apply map_eq. intros k. by apply G.
Qed.

(** X12: what the nodes report as allocatable does not matter. Two calls on
    node objects that differ in Status.Allocatable only return the same nodes
    and the same hints (or both panic): every evaluation overwrites the field
    with Status.Capacity before the predicates are checked. *)
Theorem FindNodesToRemove_ignores_allocatable (candidates allNodes : list NodePtr)
  (ps : list Pod) (maxCount : Z) (fastCheck : bool) (oldHints : gmap string string)
  (s1 s2 : NodeStore) :
  (forall p, overwriteAllocatable (s1 p) = overwriteAllocatable (s2 p)) ->
  match FindNodesToRemove candidates allNodes ps maxCount fastCheck oldHints s1,
        FindNodesToRemove candidates allNodes ps maxCount fastCheck oldHints s2 with
  | Panic, Panic => True
  | Return r1, Return r2 =>
      nodesToRemove r1 = nodesToRemove r2
      /\ podReschedulingHints r1 = podReschedulingHints r2
  | _, _ => False
  end.
Proof.
  intros H. unfold FindNodesToRemove, nodeInfosOf.
  rewrite (setNodes_ext s1 s2) by (intros p; exact (f_equal nodeName (H p))).
  pose proof (candidateLoop_same (setNodes s2 allNodes (CreateNodeNameToInfoMap ps)) oldHints
                fastCheck allNodes maxCount candidates s1 s2 H) as A.
  destruct (candidateLoop _ _ _ _ _ _ _ (mkHeap ∅ s1 [])) as [|[r1 h1]],
           (candidateLoop _ _ _ _ _ _ _ (mkHeap ∅ s2 [])) as [|[r2 h2]]; done.
Qed.

(** X13: calling again changes nothing. A second call with the same arguments
    on the node objects the first call left behind returns the same nodes and
    the same hints. *)
Theorem FindNodesToRemove_again (candidates allNodes : list NodePtr) (ps : list Pod)
  (maxCount : Z) (fastCheck : bool) (oldHints : gmap string string) (s : NodeStore) :
  match FindNodesToRemove candidates allNodes ps maxCount fastCheck oldHints s with
  | Panic => True
  | Return r =>
      match FindNodesToRemove candidates allNodes ps maxCount fastCheck oldHints
              (finalStore r) with
      | Panic => False
      | Return r' =>
          nodesToRemove r' = nodesToRemove r
          /\ podReschedulingHints r' = podReschedulingHints r
      end
  end.
Proof.
  unfold FindNodesToRemove.
  pose proof (candidateLoop_kept s (nodeInfosOf s allNodes ps) oldHints fastCheck allNodes
                maxCount candidates [] (mkHeap ∅ s [])
                (setNodes_nodesSet s allNodes _) (good_initial s _)) as K.
  destruct (candidateLoop fastCheck (nodeInfosOf s allNodes ps) allNodes oldHints maxCount
              candidates [] (mkHeap ∅ s [])) as [|[result h]] eqn:E; [done|].
  destruct K as ([St _] & _ & _); [by intros n ?%elem_of_nil|].
  simpl.
  assert (Hal : forall p, overwriteAllocatable (s p) = overwriteAllocatable (store h p)).
  { intros p. by destruct (stable_fields s h p St) as (_ & _ & ->). }
  assert (Hinfo : nodeInfosOf (store h) allNodes ps = nodeInfosOf s allNodes ps).
  { unfold nodeInfosOf. apply setNodes_ext. intros p. symmetry.
    exact (f_equal nodeName (Hal p)). }
  rewrite Hinfo.
  pose proof (candidateLoop_same (nodeInfosOf s allNodes ps) oldHints fastCheck allNodes
                maxCount candidates s (store h) Hal) as A.
  rewrite E in A.
  destruct (candidateLoop fastCheck (nodeInfosOf s allNodes ps) allNodes oldHints maxCount
              candidates [] (mkHeap ∅ (store h) [])) as [|[result2 h2]]; [done|].
  destruct A as (-> & ->). by simpl.
Qed.

Lemma CreateNodeNameToInfoMap_lookup (ps : list Pod) (x : string) (ni : NodeInfo) :
  CreateNodeNameToInfoMap ps !! x = Some ni ->
  node ni = None /\ exists pod, pod ∈ ps /\ NodeName pod = x.
Proof.
  unfold CreateNodeNameToInfoMap.
  assert (G : forall l (m : gmap string NodeInfo),
    (forall pod, pod ∈ l -> pod ∈ ps) ->
    (forall y n, m !! y = Some n -> node n = None /\ exists pod, pod ∈ ps /\ NodeName pod = y) ->
    forall y n,
      fold_left (fun m pod =>
                   <[NodeName pod := addPod pod (default (NewNodeInfo []) (m !! NodeName pod))]> m)
                l m !! y = Some n ->
      node n = None /\ exists pod, pod ∈ ps /\ NodeName pod = y).
  { induction l as [|pod l IH]; intros m Hl Hm y n; simpl; [apply Hm|].
    apply IH; [intros q Hq; apply Hl; by right|].
    intros z k. destruct (decide (NodeName pod = z)) as [<-|Hne].
    - rewrite lookup_insert_eq. intros [= <-]. simpl. split.
      + destruct (m !! NodeName pod) as [n0|] eqn:E; simpl; [|done].
        by destruct (Hm _ _ E).
      + exists pod. split; [apply Hl; by left|done].
    - rewrite lookup_insert_ne by done. apply Hm. }
  apply (G ps ∅); [done|]. intros y n. by rewrite lookup_empty.
Qed.

Lemma setNodes_lookup (s : NodeStore) (l : list NodePtr) (m : gmap string NodeInfo)
  (x : string) (ni : NodeInfo) :
  setNodes s l m !! x = Some ni ->
  exists ni0, m !! x = Some ni0
    /\ (node ni = node ni0 \/ exists p, p ∈ l /\ node ni = Some p /\ nodeName (s p) = x).
Proof.
  revert m. induction l as [|p l IH]; intros m; simpl.
  - intros H. exists ni. split; [done|by left].
  - intros H. destruct (IH _ H) as (ni1 & H1 & Hor).
    assert (Hor' : node ni = node ni1
                   \/ exists q, q ∈ p :: l /\ node ni = Some q /\ nodeName (s q) = x).
    { destruct Hor as [?|(q & ? & ? & ?)]; [by left|right]. exists q. split; [by right|done]. }
    destruct (m !! nodeName (s p)) as [nodeInfo|] eqn:E; [|by exists ni1].
    destruct (decide (nodeName (s p) = x)) as [<-|Hne].
    + rewrite lookup_insert_eq in H1. injection H1 as <-. exists nodeInfo. split; [done|].
      destruct Hor as [Hn|(q & ? & ? & ?)].
      * right. exists p. split; [by left|]. by rewrite Hn.
      * right. exists q. split; [by right|done].
    + rewrite lookup_insert_ne in H1 by done. by exists ni1.
Qed.

Lemma nodeInfosOf_host (s : NodeStore) (allNodes : list NodePtr) (ps : list Pod)
  (x : string) (ni : NodeInfo) :
  nodeInfosOf s allNodes ps !! x = Some ni ->
  (exists pod, pod ∈ ps /\ NodeName pod = x)
  /\ (forall p, node ni = Some p -> p ∈ allNodes /\ nodeName (s p) = x).
Proof.
  unfold nodeInfosOf. intros H. destruct (setNodes_lookup _ _ _ _ _ H) as (ni0 & H0 & Hor).
  destruct (CreateNodeNameToInfoMap_lookup _ _ _ H0) as [Hnone Hpod].
  split; [done|]. intros p Hp.
  destruct Hor as [Hn|(q & Hq & Hnq & Hname)]; [congruence|].
  rewrite Hp in Hnq. by injection Hnq as ->.
Qed.

(** X14: where pods can go. Every node named in the returned hints is the
    name of a node of allNodes on which a pod of the pod list is scheduled:
    a node without pods has no NodeInfo and is never tried as a destination,
    nor is a node outside allNodes. *)
Theorem FindNodesToRemove_destinations_host_pods (candidates allNodes : list NodePtr)
  (ps : list Pod) (maxCount : Z) (fastCheck : bool) (oldHints : gmap string string)
  (s : NodeStore) :
  match FindNodesToRemove candidates allNodes ps maxCount fastCheck oldHints s with
  | Panic => True
  | Return r =>
      forall k dest, podReschedulingHints r !! k = Some dest ->
        (exists pod, pod ∈ ps /\ NodeName pod = dest)
        /\ (exists n, n ∈ allNodes /\ nodeName (s n) = dest)
  end.
Proof.
  unfold FindNodesToRemove.
  pose proof (candidateLoop_kept s (nodeInfosOf s allNodes ps) oldHints fastCheck allNodes
                maxCount candidates [] (mkHeap ∅ s [])
                (setNodes_nodesSet s allNodes _) (good_initial s _)) as K.
  destruct (candidateLoop fastCheck (nodeInfosOf s allNodes ps) allNodes oldHints maxCount
              candidates [] (mkHeap ∅ s [])) as [|[result h]]; [done|].
  destruct K as ([_ Hp] & _ & _); [by intros n ?%elem_of_nil|].
  simpl. intros k dest Hd. destruct (Hp _ _ Hd) as (ni & p & Hni & Hn & _).
  destruct (nodeInfosOf_host _ _ _ _ _ Hni) as [Hpod Hnode].
  split; [done|]. exists p. by apply Hnode.
Qed.

(** X15: the fast evaluation never returns a node without pods. With
    fastCheck set, every node returned has a pod of the pod list scheduled on
    it; a candidate on which nothing is scheduled has no NodeInfo and is
    skipped. *)
Theorem FindNodesToRemove_fast_skips_empty (candidates allNodes : list NodePtr)
  (ps : list Pod) (maxCount : Z) (oldHints : gmap string string) (s : NodeStore) :
  match FindNodesToRemove candidates allNodes ps maxCount true oldHints s with
  | Panic => True
  | Return r =>
      forall n, n ∈ nodesToRemove r -> exists pod, pod ∈ ps /\ NodeName pod = nodeName (s n)
  end.
Proof.
  unfold FindNodesToRemove.
  pose proof (candidateLoop_kept s (nodeInfosOf s allNodes ps) oldHints true allNodes
                maxCount candidates [] (mkHeap ∅ s [])
                (setNodes_nodesSet s allNodes _) (good_initial s _)) as K.
  destruct (candidateLoop true (nodeInfosOf s allNodes ps) allNodes oldHints maxCount
              candidates [] (mkHeap ∅ s [])) as [|[result h]]; [done|].
  destruct K as (_ & _ & R); [by intros n ?%elem_of_nil|].
  simpl. intros n Hn. destruct (R n Hn) as [(pm & Hpm & _) _].
  unfold podsToRemoveOf in Hpm.
  destruct (nodeInfosOf s allNodes ps !! nodeName (s n)) as [ni|] eqn:E; [|done].
  by destruct (nodeInfosOf_host _ _ _ _ _ E).
Qed.

(** *** findPlaceFor and the node being removed *)

Section Elsewhere.

Variable nodeInfos : gmap string NodeInfo.
Variable oldHints : gmap string string.
Variable bannedNode : string.

(** The hint under a key names a node other than the banned one. *)
Definition elsewhere (h : heap) (k : string) : Prop :=
  exists dest, newHints h !! k = Some dest /\ dest <> bannedNode.

Definition keepsElsewhere (pod : Pod) (h : heap)
  (o : outcome (bool * gmap string NodeInfo * heap)) : Prop :=
  match o with
  | Panic => True
  | Return (b, _, h') =>
      (forall k, elsewhere h k -> elsewhere h' k)
      /\ (b = true -> elsewhere h' (podKey pod))
  end.

Lemma tryNodeForPod_elsewhere (nodename : string) (pod : Pod)
  (nni : gmap string NodeInfo) (h : heap) :
  nodename <> bannedNode ->
  keepsElsewhere pod h (tryNodeForPod nodeInfos nodename pod nni h).
Proof.
  intros Hne. unfold tryNodeForPod.
  destruct (match nni !! nodename with Some x => Some x | None => nodeInfos !! nodename end)
    as [ni|]; [|by split].
  destruct (node ni) as [p|]; [|done].
  destruct (CheckPredicates _ _ _); simpl; [|by split].
  split.
  - intros k (dest & Hd & Hb). unfold elsewhere. simpl.
    destruct (decide (podKey pod = k)) as [<-|Hk].
    + rewrite lookup_insert_eq. eauto.
    + rewrite lookup_insert_ne by done. eauto.
  - intros _. exists nodename. simpl. by rewrite lookup_insert_eq.
Qed.

Lemma scanNodes_elsewhere (pod : Pod) (nodes : list NodePtr)
  (nni : gmap string NodeInfo) (h : heap) :
  keepsElsewhere pod h (scanNodes nodeInfos bannedNode pod nodes nni h).
Proof.
  revert nni h. induction nodes as [|n rest IH]; intros nni h; simpl; [by split|].
  destruct (decide (nodeName (store h n) = bannedNode)) as [|Hne]; [apply IH|].
  pose proof (tryNodeForPod_elsewhere (nodeName (store h n)) pod nni h Hne) as T.
  destruct (tryNodeForPod nodeInfos (nodeName (store h n)) pod nni h)
    as [|[[b nni1] h1]]; [done|].
  destruct b; [done|]. destruct T as [T1 _].
  specialize (IH nni1 h1).
  destruct (scanNodes nodeInfos bannedNode pod rest nni1 h1) as [|[[b2 nni2] h2]]; [done|].
  destruct IH as [I1 I2]. split; [|done]. intros k Hk. by apply I1, T1.
Qed.

Lemma placePods_elsewhere (nodes : list NodePtr) (ps : list Pod)
  (nni : gmap string NodeInfo) (h : heap) :
  match placePods nodeInfos bannedNode nodes oldHints ps nni h with
  | Panic => True
  | Return (e, h') =>
      (forall k, elsewhere h k -> elsewhere h' k)
      /\ (e = None -> forall pod, pod ∈ ps -> elsewhere h' (podKey pod))
  end.
Proof.
  revert nni h. induction ps as [|podptr rest IH]; intros nni h; simpl.
  - split; [done|]. by intros _ pod ?%elem_of_nil.
  - set (pod := clearNodeName podptr).
    assert (Hhint : keepsElsewhere pod h
      (match oldHints !! podKey pod with
       | Some hintedNode =>
           if decide (hintedNode = bannedNode) then Return (false, nni, h)
           else tryNodeForPod nodeInfos hintedNode pod nni h
       | None => Return (false, nni, h)
       end)).
    { destruct (oldHints !! podKey pod) as [hintedNode|]; [|by split].
      destruct (decide (hintedNode = bannedNode)); [by split|].
      by apply tryNodeForPod_elsewhere. }
    destruct (match oldHints !! podKey pod with
              | Some hintedNode =>
                  if decide (hintedNode = bannedNode) then Return (false, nni, h)
                  else tryNodeForPod nodeInfos hintedNode pod nni h
              | None => Return (false, nni, h)
              end) as [|[[b nni1] h1]]; [done|].
    assert (Hstep : forall nni2 h2,
      (forall k, elsewhere h k -> elsewhere h2 k) -> elsewhere h2 (podKey pod) ->
      match placePods nodeInfos bannedNode nodes oldHints rest nni2 h2 with
      | Panic => True
      | Return (e, h') =>
          (forall k, elsewhere h k -> elsewhere h' k)
          /\ (e = None -> forall x, x ∈ podptr :: rest -> elsewhere h' (podKey x))
      end).
    { intros nni2 h2 M2 E2. specialize (IH nni2 h2).
      destruct (placePods nodeInfos bannedNode nodes oldHints rest nni2 h2) as [|[e h3]];
        [done|].
      destruct IH as [I1 I2]. split; [intros k Hk; by apply I1, M2|].
      intros He x Hx. apply elem_of_cons in Hx as [->|Hx]; [by apply I1|by apply I2]. }
    destruct Hhint as [H1 H2].
    destruct b; [by apply Hstep; [|apply H2]|].
    pose proof (scanNodes_elsewhere pod nodes nni1 h1) as S.
    destruct (scanNodes nodeInfos bannedNode pod nodes nni1 h1) as [|[[b2 nni2] h2]]; [done|].
    destruct S as [S1 S2].
    destruct b2.
    + apply Hstep; [intros k Hk; by apply S1, H1|by apply S2].
    + split; [intros k Hk; by apply S1, H1|done].
Qed.

End Elsewhere.

(** X16: a pod is never moved to the node being removed. When findPlaceFor
    succeeds, the hint it leaves for each of the pods names a node other than
    the banned one - also when the old hint named the banned node, and also
    when the hints map it was given held the banned node for that pod. *)
Theorem findPlaceFor_never_banned (bannedNode : string) (ps : list Pod) (nodes : list NodePtr)
  (nodeInfos : gmap string NodeInfo) (oldHints : gmap string string) (h : heap) :
  match findPlaceFor bannedNode ps nodes nodeInfos oldHints h with
  | Return (None, h') =>
      forall pod, pod ∈ ps ->
        exists dest, newHints h' !! podKey pod = Some dest /\ dest <> bannedNode
  | _ => True
  end.
Proof.
  unfold findPlaceFor.
  pose proof (placePods_elsewhere nodeInfos oldHints bannedNode nodes ps ∅ h) as P.
  destruct (placePods nodeInfos bannedNode nodes oldHints ps ∅ h) as [|[[e|] h']]; try done.
  destruct P as [_ P]. by apply P.
Qed.

Lemma CalculateUtilization_overwrite (n : Node) (nodeInfo : NodeInfo) :
  CalculateUtilization (overwriteAllocatable n) nodeInfo = CalculateUtilization n nodeInfo.
Proof. done. Qed.

(** X17: the simulation does not change utilization. For the node objects
    FindNodesToRemove leaves behind, CalculateUtilization gives what it gave
    before the call, error or value: it reads Status.Capacity, and the
    simulation writes Status.Allocatable only. *)
Theorem FindNodesToRemove_keeps_utilization (candidates allNodes : list NodePtr)
  (ps : list Pod) (maxCount : Z) (fastCheck : bool) (oldHints : gmap string string)
  (s : NodeStore) :
  match FindNodesToRemove candidates allNodes ps maxCount fastCheck oldHints s with
  | Panic => True
  | Return r =>
      forall p nodeInfo,
        CalculateUtilization (finalStore r p) nodeInfo = CalculateUtilization (s p) nodeInfo
  end.
Proof.
  unfold FindNodesToRemove.
  pose proof (candidateLoop_kept s (nodeInfosOf s allNodes ps) oldHints fastCheck allNodes
                maxCount candidates [] (mkHeap ∅ s [])
                (setNodes_nodesSet s allNodes _) (good_initial s _)) as K.
  destruct (candidateLoop fastCheck (nodeInfosOf s allNodes ps) allNodes oldHints maxCount
              candidates [] (mkHeap ∅ s [])) as [|[result h]]; [done|].
  destruct K as ([St _] & _ & _); [by intros n ?%elem_of_nil|].
  simpl. intros p nodeInfo.
  destruct (stable_fields s h p St) as (_ & _ & Ho).
  rewrite <- (CalculateUtilization_overwrite (store h p)), Ho.
  apply CalculateUtilization_overwrite.
Qed.

End Sim.

(** *** Test fixtures: quantities in milli-units, a CPU-fit predicate *)

Definition cpuOnly (cpu : Z) : gmap string Z := {[ ResourceCPU := cpu ]}.

Definition cpuAndMemory (cpu mem : Z) : gmap string Z :=
  {[ ResourceCPU := cpu; ResourceMemory := mem ]}.

Definition testPod (name nodename : string) (cpu : Z) : Pod :=
  mkPod "default" name nodename [mkContainer (cpuOnly cpu)].

(** Three nodes of 1000 milli-CPU, reported allocatable 900. *)
Definition testStore : NodeStore (Quantity := Z) :=
  fun p => match p with
           | 1%nat => mkNode "n1" (cpuOnly 1000) (cpuOnly 900)
           | 2%nat => mkNode "n2" (cpuOnly 1000) (cpuOnly 900)
           | _ => mkNode "n3" (cpuOnly 1000) (cpuOnly 900)
           end.

(** The pod fits when the CPU requests on the node, with its own, stay
    within the allocatable CPU. *)
Definition fitsCpu (pod : Pod) (n : Node) (ps : list Pod) : bool :=
  requested 0 Z.add ResourceCPU (ps ++ [pod]) <=? default 0 (Allocatable n !! ResourceCPU).

Definition allPods (nodeInfo : NodeInfo (Quantity := Z)) : option (list Pod) :=
  Some (pods nodeInfo).

Definition noDrain (_ : string) : option (list (Pod (Quantity := Z))) := None.

(** pA (100) and pB (850) on n1, p2 (100) on n2, nothing on n3. *)
Definition testPods : list Pod :=
  [testPod "pA" "n1" 100; testPod "pB" "n1" 850; testPod "p2" "n2" 100].





(** The node objects after the call of the counterexample: n2 was evaluated
    (for pA and for pB) and its allocatable CPU now reads 1000; n1 and n3
    were not and still read 900. *)
Example FindNodesToRemove_mutates_nodes :
  match FindNodesToRemove fitsCpu allPods noDrain [1%nat] [1%nat; 2%nat; 3%nat] testPods 10
          true ∅ testStore with
  | Return r =>
      destinations r = [2%nat; 2%nat]
      /\ Allocatable (finalStore r 2%nat) !! ResourceCPU = Some 1000
      /\ Allocatable (testStore 2%nat) !! ResourceCPU = Some 900
      /\ Allocatable (finalStore r 1%nat) !! ResourceCPU = Some 900
  | Panic => False
  end.
Proof. by vm_compute. Qed.

(** A removable node: with pB at 700 both pods of n1 fit on n2. *)
Example FindNodesToRemove_removable :
  match FindNodesToRemove fitsCpu allPods noDrain [1%nat] [1%nat; 2%nat; 3%nat]
          [testPod "pA" "n1" 100; testPod "pB" "n1" 700; testPod "p2" "n2" 100] 10
          true ∅ testStore with
  | Return r =>
      nodesToRemove r = [1%nat]
      /\ podReschedulingHints r !! "default/pA" = Some "n2"
      /\ podReschedulingHints r !! "default/pB" = Some "n2"
      /\ finalError r = None
  | Panic => False
  end.
Proof. by vm_compute. Qed.

(** C9 fails on the code where an old hint names a node that has pods but
    is not in allNodes: the NodeInfo of "ghost" has no node object, and the
    assignment to [nodeInfo.Node().Status.Allocatable] dereferences nil. The
    call does not return. *)
Theorem FindNodesToRemove_dangling_hint_panics :
  FindNodesToRemove fitsCpu allPods noDrain [1%nat] [1%nat; 2%nat]
    (testPods ++ [testPod "pG" "ghost" 100]) 10 true {[ "default/pA" := "ghost" ]} testStore
  = Panic.
Proof. by vm_compute. Qed.

(** Utilization of a node of 1000 milli-CPU and 2000000 milli-units of
    memory with requests of 300 and 1000000: max (0.3, 0.5). *)
Example CalculateUtilization_half :
  CalculateUtilization 0 Z.add id
    (mkNode "n1" (cpuAndMemory 1000 2000000) (cpuAndMemory 1000 2000000))
    (mkNodeInfo (Some 1%nat)
       [mkPod "default" "p1" "n1" [mkContainer (cpuAndMemory 100 400000);
                                   mkContainer (cpuAndMemory 200 600000)]])
  = Ok 0.5%float.
Proof. by vm_compute. Qed.

Example CalculateUtilization_no_memory :
  CalculateUtilization 0 Z.add id (mkNode "n1" (cpuOnly 1000) (cpuOnly 1000))
    (mkNodeInfo (Some 1%nat) [testPod "p1" "n1" 100])
  = Err (FailedToGet "memory" "n1")
  /\ CalculateUtilization 0 Z.add id
       (mkNode "n1" (cpuAndMemory 1000 0) (cpuAndMemory 1000 0))
       (mkNodeInfo (Some 1%nat) [testPod "p1" "n1" 100])
     = Err (IsZero "memory" "n1").
Proof. by vm_compute. Qed.

(** The test nodes reporting another allocatable CPU. *)
Definition testStoreLow : NodeStore (Quantity := Z) :=
  fun p => mkNode (nodeName (testStore p)) (Capacity (testStore p)) (cpuOnly 500).

Lemma FindNodesToRemove_ignores_allocatable_witness :
  match FindNodesToRemove fitsCpu allPods noDrain [1%nat; 2%nat] [1%nat; 2%nat; 3%nat]
          testPods 10 true ∅ testStore,
        FindNodesToRemove fitsCpu allPods noDrain [1%nat; 2%nat] [1%nat; 2%nat; 3%nat]
          testPods 10 true ∅ testStoreLow with
  | Panic, Panic => True
  | Return r1, Return r2 =>
      nodesToRemove r1 = nodesToRemove r2
      /\ podReschedulingHints r1 = podReschedulingHints r2
  | _, _ => False
  end.
Proof.
  apply (FindNodesToRemove_ignores_allocatable fitsCpu allPods noDrain [1%nat; 2%nat]
           [1%nat; 2%nat; 3%nat] testPods 10 true ∅ testStore testStoreLow).
  intros p. reflexivity.
Defined.

End Simulator.

(** ** The cap on the removal candidates *)

Module ScaleDown.

Local Open Scope nat_scope.

Inductive podKind := DaemonSetPod | MirrorPod | OrdinaryPod.

(** A removal candidate with the pods on it. *)
Record candidate := mkCandidate { candidateName : string; candidatePods : list podKind }.

(** Modelled from the spec: an empty candidate has no pod that is neither a
    DaemonSet pod nor a mirror pod (the classification belongs to
    UpdateUnneededNodes, whose source is not among the given files). *)
Definition isEmpty (c : candidate) : bool :=
  forallb (fun k => match k with OrdinaryPod => false | _ => true end) (candidatePods c).

(** Modelled from the spec: the size of the pool of non-empty candidates, a
    ratio of the total number of nodes with a floor, the larger of the two
    (UpdateUnneededNodes is not among the given files; only its tests
    are). *)
Definition nonEmptyPoolSize (totalNodes : nat) (poolRatio : Q) (poolRatioMinCount : nat) : nat :=
  Nat.max (Z.to_nat (Qfloor (inject_Z (Z.of_nat totalNodes) * poolRatio))) poolRatioMinCount.

(** Modelled from the spec: step 2 of the unneeded-node update
    (UpdateUnneededNodes is not among the given files). The candidates are
    split into the empty and the non-empty ones; all the empty ones are
    kept, and of the non-empty ones the first [maxNonEmptyCandidates] of a
    pool, itself the first [nonEmptyPoolSize] of them. *)
Definition capCandidates (maxNonEmptyCandidates : nat) (poolRatio : Q)
  (poolRatioMinCount totalNodes : nat) (candidates : list candidate) : list candidate :=
  let empties := List.filter isEmpty candidates in
  let nonEmpties := List.filter (fun c => negb (isEmpty c)) candidates in
  let pool := firstn (nonEmptyPoolSize totalNodes poolRatio poolRatioMinCount) nonEmpties in
  empties ++ firstn maxNonEmptyCandidates pool.

Definition nonEmptyCount (l : list candidate) : nat :=
  length (List.filter (fun c => negb (isEmpty c)) l).

Lemma filter_filter_neg (l : list candidate) :
  List.filter (fun c => negb (isEmpty c)) (List.filter isEmpty l) = [].
Proof.
  induction l as [|c l IH]; simpl; [done|].
  destruct (isEmpty c) eqn:E; simpl; [|done]. by rewrite E.
Qed.

Lemma filter_firstn_id (n : nat) (l : list candidate) :
  List.filter (fun c => negb (isEmpty c))
    (firstn n (List.filter (fun c => negb (isEmpty c)) l))
  = firstn n (List.filter (fun c => negb (isEmpty c)) l).
Proof.
  revert n. induction l as [|c l IH]; intros n; simpl.
  - by destruct n.
  - destruct (isEmpty c) eqn:E; simpl; [apply IH|].
    destruct n; simpl; [done|]. by rewrite E, IH.
Qed.

Lemma nonEmptyCount_cap (maxNonEmptyCandidates : nat) (poolRatio : Q)
  (poolRatioMinCount totalNodes : nat) (candidates : list candidate) :
  nonEmptyCount (capCandidates maxNonEmptyCandidates poolRatio poolRatioMinCount
                   totalNodes candidates)
  <= Nat.min maxNonEmptyCandidates
       (nonEmptyPoolSize totalNodes poolRatio poolRatioMinCount).
Proof.
  unfold nonEmptyCount, capCandidates.
  rewrite List.filter_app, filter_filter_neg. simpl.
  set (k := nonEmptyPoolSize totalNodes poolRatio poolRatioMinCount).
  set (ne := List.filter (fun c => negb (isEmpty c)) candidates).
  assert (E : firstn maxNonEmptyCandidates (firstn k ne)
              = firstn (Nat.min maxNonEmptyCandidates k) ne).
  { apply firstn_firstn. }
  rewrite E. unfold ne. rewrite filter_firstn_id. rewrite length_firstn. lia.
Qed.

Lemma nonEmptyPoolSize_le (totalNodes : nat) (poolRatio : Q) (poolRatioMinCount : nat) :
  (inject_Z (Z.of_nat (nonEmptyPoolSize totalNodes poolRatio poolRatioMinCount))
   <= Qmax (inject_Z (Z.of_nat totalNodes) * poolRatio)
           (inject_Z (Z.of_nat poolRatioMinCount)))%Q.
Proof.
  unfold nonEmptyPoolSize.
  set (x := (inject_Z (Z.of_nat totalNodes) * poolRatio)%Q).
  destruct (Nat.max_spec (Z.to_nat (Qfloor x)) poolRatioMinCount) as [[Hlt ->]|[Hle ->]].
  - apply Q.le_max_r.
  - destruct (Z_le_gt_dec 0 (Qfloor x)) as [Hpos|Hneg].
    + eapply Qle_trans; [|apply Q.le_max_l].
      rewrite Z2Nat.id by done. apply Qfloor_le.
    + assert (Z.to_nat (Qfloor x) = 0) as Hf by lia.
      assert (poolRatioMinCount = 0) as Hz by lia.
      rewrite Hf, Hz. apply Q.le_max_r.
Qed.

(** C8: the non-empty candidates kept number at most
    min (maxNonEmptyCandidates, max (totalNodes * poolRatio, poolRatioMinCount)),
    and every empty candidate is kept, whatever the cap. *)
Theorem capCandidates_bound (maxNonEmptyCandidates : nat) (poolRatio : Q)
  (poolRatioMinCount totalNodes : nat) (candidates : list candidate) :
  (inject_Z (Z.of_nat (nonEmptyCount
      (capCandidates maxNonEmptyCandidates poolRatio poolRatioMinCount totalNodes candidates)))
   <= Qmin (inject_Z (Z.of_nat maxNonEmptyCandidates))
           (Qmax (inject_Z (Z.of_nat totalNodes) * poolRatio)
                 (inject_Z (Z.of_nat poolRatioMinCount))))%Q
  /\ forall c, In c candidates -> isEmpty c = true ->
       In c (capCandidates maxNonEmptyCandidates poolRatio poolRatioMinCount
               totalNodes candidates).
Proof.
  split.
  - pose proof (nonEmptyCount_cap maxNonEmptyCandidates poolRatio poolRatioMinCount
                  totalNodes candidates) as H.
    apply Q.min_glb.
    + rewrite <- Zle_Qle. lia.
    + eapply Qle_trans; [|apply nonEmptyPoolSize_le].
      rewrite <- Zle_Qle. lia.
  - intros c Hin He. unfold capCandidates. apply in_or_app. left.
    apply filter_In. by split.
Qed.

(** The scenarios of the tests: 100 nodes with a cap of 30, pool ratio 1 and
    pool floor 1000. With every node non-empty 30 are kept; with 30 empty
    nodes and 70 others, 60. *)
Definition busy (i : nat) : candidate := mkCandidate "n" [OrdinaryPod].
Definition idle (i : nat) : candidate := mkCandidate "e" [DaemonSetPod].

Example capCandidates_max_candidates :
  length (capCandidates 30 1 1000 100 (map busy (seq 0 100))) = 30.
Proof. by vm_compute. Qed.

Example capCandidates_empty_nodes :
  length (capCandidates 30 1 1000 100 (map busy (seq 0 70) ++ map idle (seq 70 30))) = 60.
Proof. by vm_compute. Qed.

End ScaleDown.

(** ** Node templates of the GCE provider *)

Module Templates.

Import Gce.

Local Open Scope list_scope.
Local Open Scope string_scope.

Inductive error :=
| External (msg : string)
| UnexpectedZone (zone : string)
| LabelConflict
| WrongContent (line : nat)
| BadKubeEnvValue (val : string)
| BadTaint (value : string)
| UnexpectedResponse (response : string).

Inductive result (A : Type) :=
| Ok (a : A)
| Err (e : error).
Arguments Ok {A} a.
Arguments Err {A} e.

(** *** The functions of package strings the templates use, on bytes *)

(** The text before and after the first [sep]; [None] when there is none. *)
Fixpoint cut (sep : ascii) (s : string) : option (string * string) :=
  match s with
  | EmptyString => None
  | String c rest =>
      if Ascii.eqb c sep then Some (EmptyString, rest)
      else match cut sep rest with
           | Some (a, b) => Some (String c a, b)
           | None => None
           end
  end.

(** strings.SplitN(s, sep, 2) *)
Definition SplitN2 (sep : ascii) (s : string) : list string :=
  match cut sep s with
  | Some (a, b) => [a; b]
  | None => [s]
  end.

(** strings.Split(s, sep) for a one-byte separator. *)
Fixpoint Split (sep : ascii) (s : string) : list string :=
  match s with
  | EmptyString => [EmptyString]
  | String c rest =>
      if Ascii.eqb c sep then EmptyString :: Split sep rest
      else match Split sep rest with
           | field :: fields => String c field :: fields
           | [] => [String c EmptyString]
           end
  end.

(** strings.LastIndex(s, sep) for a one-byte separator; [None] for -1. *)
Fixpoint LastIndex (sep : ascii) (s : string) : option nat :=
  match s with
  | EmptyString => None
  | String c rest =>
      match LastIndex sep rest with
      | Some i => Some (S i)
      | None => if Ascii.eqb c sep then Some 0%nat else None
      end
  end.

Definition inCutset (cutset : list ascii) (c : ascii) : bool :=
  existsb (Ascii.eqb c) cutset.

Fixpoint TrimLeft (cutset : list ascii) (s : string) : string :=
  match s with
  | EmptyString => EmptyString
  | String c rest => if inCutset cutset c then TrimLeft cutset rest else s
  end.

Fixpoint TrimRight (cutset : list ascii) (s : string) : string :=
  match s with
  | EmptyString => EmptyString
  | String c rest =>
      match TrimRight cutset rest with
      | EmptyString => if inCutset cutset c then EmptyString else String c EmptyString
      | t => String c t
      end
  end.

(** strings.Trim(s, cutset) for a cutset of ASCII bytes. *)
Definition Trim (cutset : list ascii) (s : string) : string :=
  TrimRight cutset (TrimLeft cutset s).

(** The byte occurs in the string. *)
Definition occurs (c : ascii) (s : string) : Prop := In c (list_ascii_of_string s).

Fixpoint join (sep : ascii) (l : list string) : string :=
  match l with
  | [] => EmptyString
  | [x] => x
  | x :: rest => x ++ String sep (join sep rest)
  end.

(** *** buildGenericLabels, buildLablesForAutoprovisionedMig *)

(** The label keys and default values of kubeletapis and cloudprovider. *)
Definition LabelArch : string := "beta.kubernetes.io/arch".
Definition LabelOS : string := "beta.kubernetes.io/os".
Definition LabelInstanceType : string := "beta.kubernetes.io/instance-type".
Definition LabelZoneRegion : string := "failure-domain.beta.kubernetes.io/region".
Definition LabelZoneFailureDomain : string := "failure-domain.beta.kubernetes.io/zone".
Definition LabelHostname : string := "kubernetes.io/hostname".
Definition DefaultArch : string := "amd64".
Definition DefaultOS : string := "linux".

Definition dash : ascii := "-"%char.

Definition buildGenericLabels (r : GceRef) (machineType nodeName : string)
  : result (gmap string string) :=
  let result := <[LabelInstanceType := machineType]>
                  (<[LabelOS := DefaultOS]> (<[LabelArch := DefaultArch]> ∅)) in
  match LastIndex dash (Zone r) with
  | None => Err (UnexpectedZone (Zone r))
  | Some ix =>
      Ok (<[LabelHostname := nodeName]>
            (<[LabelZoneFailureDomain := Zone r]>
               (<[LabelZoneRegion := substring 0 ix (Zone r)]> result)))
  end.

(** The loop over [mig.spec.labels]: a requested label that is already
    there must carry the same value, another one is added. *)
Fixpoint mergeLabels (requested : list (string * string)) (labels : gmap string string)
  : result (gmap string string) :=
  match requested with
  | [] => Ok labels
  | (k, v) :: rest =>
      match labels !! k with
      | Some existingValue =>
          if decide (v = existingValue) then mergeLabels rest labels else Err LabelConflict
      | None => mergeLabels rest (<[k := v]> labels)
      end
  end.

(** *** extractFromKubeEnv, buildTaints *)

Definition space : ascii := " "%char.
Definition colon : ascii := ":"%char.
Definition comma : ascii := ","%char.
Definition equals : ascii := "="%char.
Definition slash : ascii := "/"%char.
Definition newline : ascii := "010"%char.
Definition quote : ascii := ascii_of_nat 34.
Definition apostrophe : ascii := "'"%char.

(** The cutset of [strings.Trim(items[1], ...)]: space, double quote,
    apostrophe. *)
Definition valueCutset : list ascii := [space; quote; apostrophe].

(** The inner loop of extractFromKubeEnv over the comma-separated values. *)
Fixpoint parseValues (vals : list string) (res : gmap string string)
  : result (gmap string string) :=
  match vals with
  | [] => Ok res
  | val :: rest =>
      match SplitN2 equals val with
      | [k; v] => parseValues rest (<[k := v]> res)
      | _ => Err (BadKubeEnvValue val)
      end
  end.

(** The outer loop of extractFromKubeEnv; [line] is the index of the
    first of [lines]. *)
Fixpoint extractLines (resource : string) (lines : list string) (line : nat)
  (res : gmap string string) : result (gmap string string) :=
  match lines with
  | [] => Ok res
  | env :: rest =>
      let env := Trim [space] env in
      if decide (env = EmptyString) then extractLines resource rest (S line) res
      else
        match SplitN2 colon env with
        | [i0; i1] =>
            let key := Trim [space] i0 in
            let value := Trim valueCutset i1 in
            if decide (key = resource) then
              match parseValues (Split comma value) res with
              | Err e => Err e
              | Ok res' => extractLines resource rest (S line) res'
              end
            else extractLines resource rest (S line) res
        | _ => Err (WrongContent line)
        end
  end.

Definition extractFromKubeEnv (kubeEnv resource : string) : result (gmap string string) :=
  extractLines resource (Split newline kubeEnv) 0 ∅.

Definition extractLabelsFromKubeEnv (kubeEnv : string) : result (gmap string string) :=
  extractFromKubeEnv kubeEnv "NODE_LABELS".

Record Taint := { Key : string; Value : string; Effect : string }.

(** The loop of buildTaints over the entries in the order Go visits them. *)
Fixpoint taintsLoop (entries : list (string * string)) (taints : list Taint)
  : result (list Taint) :=
  match entries with
  | [] => Ok taints
  | (key, value) :: rest =>
      match SplitN2 colon value with
      | [v; e] => taintsLoop rest (taints ++ [{| Key := key; Value := v; Effect := e |}])%list
      | _ => Err (BadTaint value)
      end
  end.

Section Env.

(** The order in which a [range] over a Go map visits its entries: every
    entry once, in an order the language does not fix. *)
Variable rangeOrder : gmap string string -> list (string * string).
Hypothesis rangeOrder_perm : forall m, rangeOrder m ≡ₚ map_to_list m.

(** The metadata server: [metadata.Get] and [metadata.ProjectID]. *)
Variable metadataGet : string -> result string.
Variable metadataProjectID : result string.

(** buildLablesForAutoprovisionedMig. It reads [mig.spec.machineType]
    first, a nil dereference when the group has no spec. On a conflict the
    code returns an empty map beside the error; the model keeps the error. *)
Definition buildLablesForAutoprovisionedMig (mig : Mig) (nodeName : string)
  : Simulator.outcome (result (gmap string string)) :=
  match spec mig with
  | None => Simulator.Panic
  | Some sp =>
      match buildGenericLabels (ref mig) (machineType sp) nodeName with
      | Err e => Simulator.Return (Err e)
      | Ok labels =>
          match Gce.labels sp with
          | None => Simulator.Return (Ok labels)
          | Some requested => Simulator.Return (mergeLabels (rangeOrder requested) labels)
          end
      end
  end.

Definition buildTaints (kubeEnvTaints : gmap string string) : result (list Taint) :=
  taintsLoop (rangeOrder kubeEnvTaints) [].

Definition extractTaintsFromKubeEnv (kubeEnv : string) : result (list Taint) :=
  match extractFromKubeEnv kubeEnv "NODE_TAINTS" with
  | Err e => Err e
  | Ok taintMap => buildTaints taintMap
  end.

(** getProjectAndZone of the manager: the zone is the fourth of the four
    slash-separated parts of the metadata server's answer. *)
Definition getProjectAndZone : result (string * string) :=
  match metadataGet "instance/zone" with
  | Err e => Err e
  | Ok response =>
      match Split slash response with
      | [_; _; _; zone] =>
          match metadataProjectID with
          | Err e => Err e
          | Ok projectID => Ok (projectID, zone)
          end
      | _ => Err (UnexpectedResponse response)
      end
  end.

(** *** Predicates of the statements *)

(** No byte of [banned] occurs in [s]. *)
Definition clean (banned : list ascii) (s : string) : bool :=
  forallb (fun c => negb (inCutset banned c)) (list_ascii_of_string s).

(** A kube-env line the loop passes over for [resource]: blank, or with a
    colon and another key. *)
Definition otherLine (resource line : string) : bool :=
  match Trim [space] line with
  | EmptyString => true
  | env =>
      match cut colon env with
      | Some (i0, _) => negb (String.eqb (Trim [space] i0) resource)
      | None => false
      end
  end.

(** A line that is not blank and has no colon. *)
Definition badLine (line : string) : Prop :=
  Trim [space] line <> EmptyString /\ ~ occurs colon (Trim [space] line).

(** A line of [resource] with a value that has no equals sign. *)
Definition badValue (resource line : string) : Prop :=
  exists i0 i1 val,
    cut colon (Trim [space] line) = Some (i0, i1)
    /\ Trim [space] i0 = resource
    /\ val ∈ Split comma (Trim valueCutset i1)
    /\ ~ occurs equals val.

(** The text [k=v] of a label. *)
Definition item (kv : string * string) : string := kv.1 ++ String equals kv.2.

(** *** Facts about the functions of package strings *)

Lemma cut_Some (sep : ascii) (s a b : string) :
  cut sep s = Some (a, b) -> s = a ++ String sep b /\ ~ occurs sep a.
Proof.
  revert a b. induction s as [|c rest IH]; simpl; intros a b H; [done|].
  destruct (Ascii.eqb c sep) eqn:E.
  - apply Ascii.eqb_eq in E. simplify_eq. split; [done|]. by intros [].
  - destruct (cut sep rest) as [[a0 b0]|]; [|done]. simplify_eq.
    destruct (IH _ _ eq_refl) as [-> Hn]. split; [done|].
    intros [Hc|Hin]; [|done]. subst. by rewrite Ascii.eqb_refl in E.
Qed.

Lemma cut_None (sep : ascii) (s : string) :
  cut sep s = None <-> ~ occurs sep s.
Proof.
  unfold occurs. induction s as [|c rest IH]; simpl.
  - split; [by intros _ []|done].
  - destruct (Ascii.eqb c sep) eqn:E.
    + apply Ascii.eqb_eq in E. split; [done|]. intros H. exfalso. apply H. by left.
    + apply Ascii.eqb_neq in E. destruct (cut sep rest) as [[a b]|].
      * split; [done|]. intros H.
        destruct IH as [_ IH].
        assert (Hn : Some (a, b) = None); [|done].
        apply IH. intros Hin. apply H. by right.
      * split; [|done]. intros _ [Hc|Hin]; [done|]. by apply (proj1 IH).
Qed.

Lemma cut_join (sep : ascii) (a b : string) :
  ~ occurs sep a -> cut sep (a ++ String sep b) = Some (a, b).
Proof.
  unfold occurs. induction a as [|c a IH]; simpl; intros H.
  - by rewrite Ascii.eqb_refl.
  - destruct (Ascii.eqb c sep) eqn:E.
    + apply Ascii.eqb_eq in E. exfalso. apply H. by left.
    + rewrite IH; [done|]. intros Hin. apply H. by right.
Qed.

Lemma Split_not_nil (sep : ascii) (s : string) : Split sep s <> [].
Proof.
  destruct s as [|c rest]; simpl; [done|].
  destruct (Ascii.eqb c sep); [done|]. by destruct (Split sep rest).
Qed.

Lemma join_cons (sep : ascii) (x y : string) (l : list string) :
  join sep (x :: y :: l) = x ++ String sep (join sep (y :: l)).
Proof. done. Qed.

Lemma Split_join (sep : ascii) (s : string) :
  join sep (Split sep s) = s /\ Forall (fun x => ~ occurs sep x) (Split sep s).
Proof.
  induction s as [|c rest [IHj IHf]]; simpl.
  - split; [done|]. constructor; [by intros []|constructor].
  - pose proof (Split_not_nil sep rest) as Hn.
    destruct (Ascii.eqb c sep) eqn:E.
    + apply Ascii.eqb_eq in E. subst c. split.
      * destruct (Split sep rest) as [|x l]; [done|].
        by rewrite join_cons, IHj.
      * constructor; [by intros []|done].
    + apply Ascii.eqb_neq in E.
      destruct (Split sep rest) as [|x l]; [done|]. split.
      * destruct l as [|y l].
        -- simpl in IHj |- *. by rewrite IHj.
        -- rewrite join_cons in IHj |- *. by rewrite <- IHj.
      * inversion IHf as [|? ? Hx Hl]; subst. constructor; [|done].
        intros [Hc|Hin]; [done|by apply Hx].
Qed.

Lemma Split_of_join (sep : ascii) (l : list string) :
  l <> [] -> Forall (fun x => ~ occurs sep x) l -> Split sep (join sep l) = l.
Proof.
  induction l as [|x l IH]; [done|]. intros _ Hf.
  inversion Hf as [|? ? Hx Hl]; subst.
  destruct l as [|y l].
  - simpl. clear IH Hf Hl. induction x as [|c x IHx]; simpl; [done|].
    destruct (Ascii.eqb c sep) eqn:E.
    + apply Ascii.eqb_eq in E. exfalso. apply Hx. by left.
    + rewrite IHx; [done|]. intros Hin. apply Hx. by right.
  - specialize (IH ltac:(done) Hl).
    rewrite join_cons. set (t := join sep (y :: l)) in IH |- *.
    clear Hf. induction x as [|c x IHx]; simpl.
    + by rewrite Ascii.eqb_refl, IH.
    + destruct (Ascii.eqb c sep) eqn:E.
      * apply Ascii.eqb_eq in E. exfalso. apply Hx. by left.
      * rewrite IHx; [done|]. intros Hin. apply Hx. by right.
Qed.

Lemma LastIndex_None (sep : ascii) (s : string) :
  LastIndex sep s = None <-> ~ occurs sep s.
Proof.
  unfold occurs. induction s as [|c rest IH]; simpl.
  - split; [by intros _ []|done].
  - destruct (LastIndex sep rest) as [i|].
    + split; [done|]. intros H. exfalso.
      assert (Some i = None); [|done]. apply IH. intros Hin. apply H. by right.
    + destruct (Ascii.eqb c sep) eqn:E.
      * apply Ascii.eqb_eq in E. split; [done|]. intros H. exfalso. apply H. by left.
      * apply Ascii.eqb_neq in E. split; [|done].
        intros _ [Hc|Hin]; [done|]. by apply (proj1 IH).
Qed.

Lemma LastIndex_Some (sep : ascii) (s : string) (ix : nat) :
  LastIndex sep s = Some ix ->
  exists suffix, s = substring 0 ix s ++ String sep suffix /\ ~ occurs sep suffix.
Proof.
  revert ix. induction s as [|c rest IH]; simpl; intros ix H; [done|].
  destruct (LastIndex sep rest) as [i|] eqn:L.
  - simplify_eq. destruct (IH _ eq_refl) as (suffix & Hs & Hn).
    exists suffix. split; [|done].
    change (String c rest = String c (substring 0 i rest ++ String sep suffix)).
    f_equal. exact Hs.
  - destruct (Ascii.eqb c sep) eqn:E; [|done]. simplify_eq.
    apply Ascii.eqb_eq in E. subst c. exists rest. split; [done|].
    by apply LastIndex_None.
Qed.

(** *** Facts about the order of a range *)

Lemma rangeOrder_elem (m : gmap string string) (k v : string) :
  (k, v) ∈ rangeOrder m <-> m !! k = Some v.
Proof. by rewrite rangeOrder_perm, elem_of_map_to_list. Qed.

Lemma rangeOrder_NoDup (m : gmap string string) : NoDup (rangeOrder m).*1.
Proof. rewrite rangeOrder_perm. apply NoDup_fst_map_to_list. Qed.

Lemma rangeOrder_to_map (m : gmap string string) : list_to_map (rangeOrder m) = m.
Proof.
  rewrite <- (list_to_map_to_list m) at 2.
  apply list_to_map_proper; [apply rangeOrder_NoDup|apply rangeOrder_perm].
Qed.

Lemma rangeOrder_length (m : gmap string string) : length (rangeOrder m) = size m.
Proof. by rewrite rangeOrder_perm, length_map_to_list. Qed.

(** *** Labels *)

(** X18: the labels buildGenericLabels gives. It fails exactly when the zone
    holds no dash. Otherwise it gives six labels; the region is the zone up
    to its last dash, the failure domain is the zone, the host name and the
    instance type are the arguments. *)
Theorem buildGenericLabels_zone (r : GceRef) (machineType nodeName : string) :
  ((exists e, buildGenericLabels r machineType nodeName = Err e) <-> ~ occurs dash (Zone r))
  /\ (forall labels, buildGenericLabels r machineType nodeName = Ok labels ->
        exists region suffix,
          Zone r = region ++ String dash suffix /\ ~ occurs dash suffix
          /\ labels !! LabelZoneRegion = Some region
          /\ labels !! LabelZoneFailureDomain = Some (Zone r)
          /\ labels !! LabelHostname = Some nodeName
          /\ labels !! LabelInstanceType = Some machineType
          /\ labels !! LabelArch = Some DefaultArch
          /\ labels !! LabelOS = Some DefaultOS
          /\ size labels = 6%nat).
Proof.
  unfold buildGenericLabels.
  destruct (LastIndex dash (Zone r)) as [ix|] eqn:L.
  - split.
    + split; [by intros [e ?]|]. intros H. apply LastIndex_None in H. congruence.
    + intros labels [= <-].
      destruct (LastIndex_Some _ _ _ L) as (suffix & Hs & Hn).
      exists (substring 0 ix (Zone r)), suffix.
      split; [done|]. split; [done|].
      repeat split; by simplify_map_eq.
  - split; [|done]. split; [intros _; by apply LastIndex_None|eauto].
Qed.

Lemma mergeLabels_agree (requested : list (string * string)) (labels : gmap string string) :
  NoDup requested.*1 ->
  (forall k v e, (k, v) ∈ requested -> labels !! k = Some e -> v = e) ->
  mergeLabels requested labels = Ok (labels ∪ list_to_map requested).
Proof.
  revert labels. induction requested as [|[k v] rest IH]; intros labels Hnd Hag; simpl.
  - by rewrite (right_id_L ∅ (∪)).
  - apply NoDup_cons in Hnd as [Hk Hnd].
    destruct (labels !! k) as [e|] eqn:E.
    + rewrite (Hag k v e) by (done || by left). rewrite decide_True by done.
      rewrite IH; [|done|intros ? ? ? ?; apply Hag; by right]. f_equal.
      apply map_eq. intros i. rewrite !lookup_union.
      destruct (decide (i = k)) as [->|Hne].
      * rewrite lookup_insert_eq, E. by destruct (list_to_map rest !! k).
      * by rewrite lookup_insert_ne.
    + rewrite IH; [|done|].
      * f_equal. by rewrite <- insert_union_l, insert_union_r.
      * intros k' v' e' Hin. destruct (decide (k = k')) as [<-|Hne].
        -- exfalso. apply Hk. apply list_elem_of_fmap. by exists (k, v').
        -- rewrite lookup_insert_ne by done. apply Hag. by right.
Qed.

Lemma mergeLabels_conflict (requested : list (string * string)) (labels : gmap string string)
  (k v e : string) :
  NoDup requested.*1 ->
  (k, v) ∈ requested -> labels !! k = Some e -> v <> e ->
  mergeLabels requested labels = Err LabelConflict.
Proof.
  revert labels. induction requested as [|[k0 v0] rest IH]; intros labels Hnd Hin He Hne.
  - by apply elem_of_nil in Hin.
  - apply NoDup_cons in Hnd as [Hk Hnd]. simpl.
    apply elem_of_cons in Hin as [[= <- <-]|Hin].
    + rewrite He. by rewrite decide_False.
    + assert (Hkk : k0 <> k).
      { intros ->. apply Hk. apply list_elem_of_fmap. by exists (k, v). }
      destruct (labels !! k0) as [e0|].
      * destruct (decide (v0 = e0)); [|done]. by apply IH.
      * apply IH; [done|done| |done]. by rewrite lookup_insert_ne.
Qed.

(** X19: requested labels never replace generic ones. For a group with a
    spec in a zone with a dash, in whatever order the requested labels are
    visited, buildLablesForAutoprovisionedMig returns the generic labels
    together with the requested ones when every requested label that is also
    a generic label carries the same value, and an error when one of them
    carries another value. *)
Theorem buildLablesForAutoprovisionedMig_merge (mig : Mig) (nodeName : string)
  (sp : autoprovisioningSpec) (generic : gmap string string) :
  spec mig = Some sp ->
  buildGenericLabels (ref mig) (machineType sp) nodeName = Ok generic ->
  let requested := default ∅ (Gce.labels sp) in
  ((forall k v e, requested !! k = Some v -> generic !! k = Some e -> v = e) ->
     buildLablesForAutoprovisionedMig mig nodeName
     = Simulator.Return (Ok (generic ∪ requested)))
  /\ (forall k v e, requested !! k = Some v -> generic !! k = Some e -> v <> e ->
        buildLablesForAutoprovisionedMig mig nodeName = Simulator.Return (Err LabelConflict)).
Proof.
  intros Hsp Hg. unfold buildLablesForAutoprovisionedMig. rewrite Hsp, Hg.
  destruct (Gce.labels sp) as [requested|]; simpl.
  - split.
    + intros Hag. rewrite mergeLabels_agree.
      * by rewrite rangeOrder_to_map.
      * apply rangeOrder_NoDup.
      * intros k v e Hin. apply Hag. by apply rangeOrder_elem.
    + intros k v e Hk He Hne. f_equal.
      apply (mergeLabels_conflict _ _ k v e); [apply rangeOrder_NoDup| |done|done].
      by apply rangeOrder_elem.
  - split.
    + intros _. by rewrite (right_id_L ∅ (∪)).
    + intros k v e Hk. by rewrite lookup_empty in Hk.
Qed.

(** *** kube-env *)

Lemma occurs_app (c : ascii) (a b : string) :
  occurs c (a ++ b) <-> occurs c a \/ occurs c b.
Proof.
  unfold occurs. induction a as [|x a IH]; simpl.
  - split; [by right|]. by intros [[]|].
  - rewrite IH. split.
    + intros [?|[?|?]]; [by left; left|by left; right|by right].
    + intros [[?|?]|?]; [by left|by right; left|by right; right].
Qed.

Lemma cut_iff (sep : ascii) (s a b : string) :
  cut sep s = Some (a, b) <-> s = a ++ String sep b /\ ~ occurs sep a.
Proof.
  split; [apply cut_Some|]. intros [-> H]. by apply cut_join.
Qed.

Lemma parseValues_err (vals : list string) (res : gmap string string) :
  (exists e, parseValues vals res = Err e)
  <-> exists val, val ∈ vals /\ ~ occurs equals val.
Proof.
  revert res. induction vals as [|val rest IH]; intros res; simpl.
  - split; [by intros [e ?]|]. intros (val & Hin & _). by apply elem_of_nil in Hin.
  - unfold SplitN2. destruct (cut equals val) as [[k v]|] eqn:C.
    + rewrite IH. split.
      * intros (x & Hin & Hx). exists x. split; [by right|done].
      * intros (x & Hin & Hx). apply elem_of_cons in Hin as [->|Hin]; [|by exists x].
        apply cut_None in Hx. congruence.
    + split; [|eauto]. intros _. exists val. split; [by left|]. by apply cut_None.
Qed.

Lemma parseValues_sound (vals : list string) (res m : gmap string string) (k v : string) :
  parseValues vals res = Ok m -> m !! k = Some v ->
  res !! k = Some v \/ (k ++ String equals v ∈ vals /\ ~ occurs equals k).
Proof.
  revert res. induction vals as [|val rest IH]; intros res; simpl.
  - intros [= ->]. by left.
  - unfold SplitN2. destruct (cut equals val) as [[k0 v0]|] eqn:C; [|done].
    intros H Hk. destruct (IH _ H Hk) as [Hr|[Hin Hn]].
    + destruct (decide (k0 = k)) as [->|Hne].
      * rewrite lookup_insert_eq in Hr. simplify_eq. right.
        apply cut_Some in C as [-> Hn]. split; [by left|done].
      * rewrite lookup_insert_ne in Hr by done. by left.
    + right. split; [by right|done].
Qed.

Lemma parseValues_items (l : list (string * string)) (res : gmap string string) :
  Forall (fun kv => ~ occurs equals kv.1) l ->
  parseValues (item <$> l) res = Ok (list_to_map (reverse l) ∪ res).
Proof.
  revert res. induction l as [|[k v] l IH]; intros res Hl; simpl.
  - by rewrite (left_id_L ∅ (∪)).
  - inversion Hl as [|? ? Hk Hl']; subst. simpl in Hk.
    unfold SplitN2, item at 1. simpl. rewrite cut_join by done.
    rewrite IH by done. f_equal.
    rewrite reverse_cons, list_to_map_app. simpl.
    rewrite insert_empty, <- (assoc_L (∪)). by rewrite <- insert_union_singleton_l.
Qed.

Lemma extractLines_err (resource : string) (lines : list string) (n : nat)
  (res : gmap string string) :
  (exists e, extractLines resource lines n res = Err e)
  <-> exists line, line ∈ lines /\ (badLine line \/ badValue resource line).
Proof.
  revert n res. induction lines as [|line rest IH]; intros n res; simpl.
  - split; [by intros [e ?]|]. intros (line & Hin & _). by apply elem_of_nil in Hin.
  - assert (Hrest : forall n' res',
      (exists e, extractLines resource rest n' res' = Err e)
      -> exists l, l ∈ line :: rest /\ (badLine l \/ badValue resource l)).
    { intros n' res' H. apply IH in H as (l & Hin & Hl). exists l. split; [by right|done]. }
    assert (Hback : forall n' res',
      ~ badLine line -> ~ badValue resource line ->
      (exists l, l ∈ line :: rest /\ (badLine l \/ badValue resource l))
      -> exists e, extractLines resource rest n' res' = Err e).
    { intros n' res' H1 H2 (l & Hin & Hl). apply IH. exists l.
      apply elem_of_cons in Hin as [->|Hin]; [by destruct Hl|done]. }
    destruct (decide (Trim [space] line = "")) as [E|E].
    { split; [apply Hrest|]. apply Hback.
      - by intros [? _].
      - intros (i0 & i1 & val & C & _). by rewrite E in C. }
    unfold SplitN2. destruct (cut colon (Trim [space] line)) as [[i0 i1]|] eqn:C.
    2:{ split; [|eauto]. intros _. exists line. split; [by left|]. left.
        split; [done|]. by apply cut_None. }
    assert (Hnb : ~ badLine line).
    { intros [_ H]. apply cut_None in H. congruence. }
    destruct (decide (Trim [space] i0 = resource)) as [K|K].
    2:{ split; [apply Hrest|]. apply Hback; [done|].
        intros (j0 & j1 & val & ? & ? & _). by simplify_eq. }
    destruct (parseValues (Split comma (Trim valueCutset i1)) res) as [res'|e] eqn:P.
    + split; [apply Hrest|]. apply Hback; [done|].
      intros (j0 & j1 & val & ? & _ & Hin & Hval). simplify_eq.
      assert (H : exists e, parseValues (Split comma (Trim valueCutset i1)) res = Err e).
      { apply parseValues_err. by exists val. }
      destruct H as [e H]. congruence.
    + split; [|eauto]. intros _.
      assert (H : exists e, parseValues (Split comma (Trim valueCutset i1)) res = Err e)
        by eauto.
      apply parseValues_err in H as (val & Hin & Hval).
      exists line. split; [by left|]. right. by exists i0, i1, val.
Qed.

Lemma extractLines_sound (resource : string) (lines : list string) (n : nat)
  (res m : gmap string string) (k v : string) :
  extractLines resource lines n res = Ok m -> m !! k = Some v ->
  res !! k = Some v
  \/ exists line i0 i1,
       line ∈ lines
       /\ cut colon (Trim [space] line) = Some (i0, i1)
       /\ Trim [space] i0 = resource
       /\ k ++ String equals v ∈ Split comma (Trim valueCutset i1)
       /\ ~ occurs equals k.
Proof.
  revert n res. induction lines as [|line rest IH]; intros n res; simpl.
  - intros [= ->]. by left.
  - assert (Hrest : forall n' res',
      extractLines resource rest n' res' = Ok m -> m !! k = Some v ->
      res' !! k = Some v
      \/ exists l i0 i1,
           l ∈ line :: rest
           /\ cut colon (Trim [space] l) = Some (i0, i1)
           /\ Trim [space] i0 = resource
           /\ k ++ String equals v ∈ Split comma (Trim valueCutset i1)
           /\ ~ occurs equals k).
    { intros n' res' H Hk. destruct (IH _ _ H Hk) as [?|(l & i0 & i1 & Hin & ?)]; [by left|].
      right. exists l, i0, i1. split; [by right|done]. }
    destruct (decide (Trim [space] line = "")) as [E|E]; [apply Hrest|].
    unfold SplitN2. destruct (cut colon (Trim [space] line)) as [[i0 i1]|] eqn:C; [|done].
    destruct (decide (Trim [space] i0 = resource)) as [K|K]; [|apply Hrest].
    destruct (parseValues (Split comma (Trim valueCutset i1)) res) as [res'|e] eqn:P; [|done].
    intros H Hk. destruct (Hrest _ _ H Hk) as [Hr|?]; [|by right].
    destruct (parseValues_sound _ _ _ _ _ P Hr) as [?|[Hin Hn]]; [by left|].
    right. exists line, i0, i1. split; [by left|done].
Qed.

(** X20: when extractFromKubeEnv fails. It returns an error exactly when
    some line of the text is not blank and has no colon, or some line whose
    key is the resource has, between its commas, a value without an equals
    sign; an empty value list is one. Lines of other keys are checked for
    the colon only. *)
Theorem extractFromKubeEnv_error_iff (kubeEnv resource : string) :
  (exists e, extractFromKubeEnv kubeEnv resource = Err e)
  <-> exists line, line ∈ Split newline kubeEnv
                   /\ (badLine line \/ badValue resource line).
Proof. apply extractLines_err. Qed.

(** X21: what extractFromKubeEnv returns was written in the text. Every
    entry [k -> v] of a returned map stands as [k=v] between the commas of a
    line whose key is the resource, and [k] holds no equals sign. *)
Theorem extractFromKubeEnv_sound (kubeEnv resource : string) (m : gmap string string)
  (k v : string) :
  extractFromKubeEnv kubeEnv resource = Ok m ->
  m !! k = Some v ->
  exists line i0 i1,
    line ∈ Split newline kubeEnv
    /\ cut colon (Trim [space] line) = Some (i0, i1)
    /\ Trim [space] i0 = resource
    /\ k ++ String equals v ∈ Split comma (Trim valueCutset i1)
    /\ ~ occurs equals k.
Proof.
  intros H Hk. destruct (extractLines_sound _ _ _ _ _ _ _ H Hk) as [Hr|?]; [|done].
  by rewrite lookup_empty in Hr.
Qed.

Lemma clean_occurs (banned : list ascii) (s : string) :
  clean banned s = true <-> forall c, occurs c s -> inCutset banned c = false.
Proof.
  unfold clean, occurs. rewrite forallb_forall. split.
  - intros H c Hc. specialize (H c Hc). by destruct (inCutset banned c).
  - intros H c Hc. by rewrite (H c Hc).
Qed.

Lemma clean_not_occurs (banned : list ascii) (s : string) (c : ascii) :
  clean banned s = true -> inCutset banned c = true -> ~ occurs c s.
Proof.
  intros H Hc Ho. rewrite clean_occurs in H. rewrite (H c Ho) in Hc. done.
Qed.

Lemma clean_weaken (banned banned' : list ascii) (s : string) :
  (forall c, inCutset banned' c = true -> inCutset banned c = true) ->
  clean banned s = true -> clean banned' s = true.
Proof.
  rewrite !clean_occurs. intros Hsub H c Hc. specialize (H c Hc).
  destruct (inCutset banned' c) eqn:E; [|done]. by rewrite (Hsub c E) in H.
Qed.

Lemma TrimLeft_clean (cutset : list ascii) (s : string) :
  clean cutset s = true -> TrimLeft cutset s = s.
Proof.
  destruct s as [|c s]; simpl; [done|]. unfold clean. simpl.
  by destruct (inCutset cutset c).
Qed.

Lemma TrimRight_clean (cutset : list ascii) (s : string) :
  clean cutset s = true -> TrimRight cutset s = s.
Proof.
  unfold clean. induction s as [|c s IH]; simpl; [done|].
  intros [Hc Hs]%andb_true_iff. rewrite (IH Hs).
  destruct s; [|done]. by destruct (inCutset cutset c).
Qed.

Lemma TrimRight_app (cutset : list ascii) (a b : string) :
  b <> "" -> TrimRight cutset b = b -> TrimRight cutset (a ++ b) = a ++ b.
Proof.
  intros Hb Hfix. induction a as [|c a IH]; simpl; [done|].
  rewrite IH. change (String c a ++ b) with (String c (a ++ b)).
  destruct (a ++ b) eqn:E; [|done].
  destruct a; simpl in E; [done|discriminate].
Qed.

Lemma occurs_join (sep c : ascii) (l : list string) :
  occurs c (join sep l) -> c = sep \/ exists x, x ∈ l /\ occurs c x.
Proof.
  induction l as [|x l IH]; [by intros []|].
  destruct l as [|y l].
  - simpl. intros H. right. exists x. split; [by left|done].
  - rewrite join_cons. intros [H|H]%occurs_app.
    + right. exists x. split; [by left|done].
    + destruct H as [H|H]; [by left|].
      destruct (IH H) as [?|(z & Hin & Hz)]; [by left|].
      right. exists z. split; [by right|done].
Qed.

Lemma otherLine_skip (resource : string) (lines : list string) (n : nat)
  (res : gmap string string) :
  forallb (otherLine resource) lines = true ->
  forall rest, extractLines resource (lines ++ rest)%list n res
               = extractLines resource rest (n + length lines) res.
Proof.
  revert n. induction lines as [|line lines IH]; intros n Hl rest; simpl.
  - by rewrite Nat.add_0_r.
  - simpl in Hl. apply andb_true_iff in Hl as [H Hl].
    rewrite <- Nat.add_succ_comm. unfold otherLine in H.
    destruct (decide (Trim [space] line = "")) as [E|E]; [by apply IH|].
    destruct (Trim [space] line) as [|c env] eqn:T; [done|].
    unfold SplitN2. destruct (cut colon (String c env)) as [[i0 i1]|]; [|done].
    apply negb_true_iff, String.eqb_neq in H.
    rewrite decide_False by done. by apply IH.
Qed.

(** X22: a line written for the resource is read back. Take labels whose
    keys and values hold no space, quote, apostrophe, comma or line break,
    and whose keys hold no equals sign, written as [resource: k=v,k=v,...]
    among lines that are blank or carry other keys. extractFromKubeEnv
    returns exactly these labels; of two values for one key the later one
    stays. *)
Theorem extractFromKubeEnv_round_trip (resource : string) (l : list (string * string))
  (before after : list string) :
  resource <> "" ->
  clean [space; colon; newline] resource = true ->
  l <> [] ->
  forallb (fun kv => clean [space; quote; apostrophe; comma; newline; equals] kv.1
                     && clean [space; quote; apostrophe; comma; newline] kv.2) l = true ->
  forallb (fun line => otherLine resource line && clean [newline] line) (before ++ after)%list = true ->
  extractFromKubeEnv
    (join newline
       (before
        ++ [(resource ++ String colon (String space (join comma (item <$> l))))%string]
        ++ after)%list)
    resource
  = Ok (list_to_map (reverse l)).
Proof.
  intros Hne Hres Hl Hkv Hother.
  set (joined := join comma (item <$> l)).
  set (env := resource ++ String colon (String space joined)).
  assert (Hitems : forall x, x ∈ item <$> l ->
            clean [space; quote; apostrophe; comma; newline] x = true).
  { intros x ([k v] & -> & Hin)%list_elem_of_fmap.
    rewrite forallb_forall in Hkv. apply list_elem_of_In in Hin.
    specialize (Hkv _ Hin). simpl in Hkv. apply andb_true_iff in Hkv as [Hk Hv].
    apply clean_occurs. intros c [Hc|Hc]%occurs_app; simpl in Hc.
    - rewrite clean_occurs in Hk. specialize (Hk c Hc).
      unfold inCutset in Hk |- *. simpl in Hk |- *. repeat (apply orb_false_iff in Hk as [? Hk]).
      repeat (apply orb_false_iff; split; try done).
    - destruct Hc as [<-|Hc]; [done|]. rewrite clean_occurs in Hv. by apply Hv. }
  assert (Hjoined : clean [space; quote; apostrophe; newline] joined = true).
  { apply clean_occurs. intros c Hc.
    destruct (occurs_join _ _ _ Hc) as [->|(x & Hin & Hx)]; [done|].
    specialize (Hitems x Hin). rewrite clean_occurs in Hitems. specialize (Hitems c Hx).
    unfold inCutset in Hitems |- *. simpl in Hitems |- *.
    repeat (apply orb_false_iff in Hitems as [? Hitems]).
    repeat (apply orb_false_iff; split; try done). }
  assert (Hjne : joined <> "").
  { unfold joined. destruct l as [|[k v] l']; [done|]. rewrite fmap_cons.
    destruct (item <$> l'); [simpl|rewrite join_cons]; unfold item; simpl; by destruct k. }
  assert (Hsplit : Split comma joined = item <$> l).
  { apply Split_of_join.
    - by destruct l.
    - apply Forall_forall. intros x Hx. apply (clean_not_occurs _ _ _ (Hitems x Hx)). done. }
  assert (Hlines : forall x, x ∈ (before ++ [env] ++ after)%list -> ~ occurs newline x).
  { intros x Hx. apply elem_of_app in Hx as [Hx|Hx]; [|apply elem_of_cons in Hx as [->|Hx]].
    - rewrite forallb_forall in Hother.
      specialize (Hother x). rewrite in_app_iff in Hother.
      apply list_elem_of_In in Hx. pose proof (Hother (or_introl Hx)) as [_ Hc]%andb_true_iff.
      by apply (clean_not_occurs _ _ _ Hc).
    - unfold env. intros [Hc|Hc]%occurs_app.
      + by apply (clean_not_occurs _ _ _ Hres) in Hc.
      + destruct Hc as [|[|Hc]]; [done|done|].
        by apply (clean_not_occurs _ _ _ Hjoined) in Hc.
    - rewrite forallb_forall in Hother.
      specialize (Hother x). rewrite in_app_iff in Hother.
      apply list_elem_of_In in Hx. pose proof (Hother (or_intror Hx)) as [_ Hc]%andb_true_iff.
      by apply (clean_not_occurs _ _ _ Hc). }
  unfold extractFromKubeEnv. rewrite Split_of_join.
  2:{ by destruct before. }
  2:{ apply Forall_forall. intros x Hx. by apply Hlines. }
  rewrite forallb_app in Hother. apply andb_true_iff in Hother as [Hb Ha].
  rewrite otherLine_skip.
  2:{ rewrite forallb_forall in Hb |- *. intros x Hx.
      by pose proof (Hb x Hx) as [? _]%andb_true_iff. }
  assert (Hsp : clean [space] resource = true).
  { revert Hres. apply clean_weaken. intros c. unfold inCutset. simpl.
    by destruct (Ascii.eqb c space). }
  assert (Hjsp : clean [space] joined = true).
  { revert Hjoined. apply clean_weaken. intros c. unfold inCutset. simpl.
    by destruct (Ascii.eqb c space). }
  assert (Hjq : clean valueCutset joined = true).
  { revert Hjoined. apply clean_weaken. intros c. unfold inCutset. simpl.
    destruct (Ascii.eqb c space), (Ascii.eqb c quote), (Ascii.eqb c apostrophe); done. }
  assert (Htrim : Trim [space] env = env).
  { unfold Trim. replace (TrimLeft [space] env) with env.
    - unfold env. apply TrimRight_app; [done|].
      apply (TrimRight_app [space] (String colon (String space "")) joined Hjne).
      by apply TrimRight_clean.
    - unfold env. destruct resource as [|c r]; [done|]. simpl.
      unfold clean, inCutset in Hsp. simpl in Hsp. by destruct (Ascii.eqb c space). }
  simpl. rewrite Htrim.
  rewrite decide_False by (unfold env; by destruct resource).
  unfold SplitN2. unfold env at 1. rewrite cut_join.
  2:{ by apply (clean_not_occurs _ _ _ Hres). }
  assert (Hkey : Trim [space] resource = resource).
  { unfold Trim. rewrite TrimLeft_clean by done. by apply TrimRight_clean. }
  rewrite Hkey, decide_True by done.
  assert (Hvalue : Trim valueCutset (String space joined) = joined).
  { unfold Trim. simpl. rewrite TrimLeft_clean by done. by apply TrimRight_clean. }
  rewrite Hvalue, Hsplit, parseValues_items.
  2:{ apply Forall_forall. intros [k v] Hin. simpl.
      rewrite forallb_forall in Hkv. apply list_elem_of_In in Hin.
      pose proof (Hkv _ Hin) as [Hk _]%andb_true_iff.
      by apply (clean_not_occurs _ _ _ Hk). }
  rewrite <- (app_nil_r after), otherLine_skip.
  2:{ rewrite forallb_forall in Ha |- *. intros x Hx.
      by pose proof (Ha x Hx) as [? _]%andb_true_iff. }
  simpl. by rewrite (right_id_L ∅ (∪)).
Qed.

(** *** Taints *)

Lemma taintsLoop_err (entries : list (string * string)) (taints : list Taint) :
  (exists e, taintsLoop entries taints = Err e)
  <-> exists k value, (k, value) ∈ entries /\ ~ occurs colon value.
Proof.
  revert taints. induction entries as [|[k value] rest IH]; intros taints; simpl.
  - split; [by intros [e ?]|]. intros (k & value & Hin & _). by apply elem_of_nil in Hin.
  - unfold SplitN2. destruct (cut colon value) as [[v e]|] eqn:C.
    + rewrite IH. split.
      * intros (k' & value' & Hin & H). exists k', value'. split; [by right|done].
      * intros (k' & value' & Hin & H).
        apply elem_of_cons in Hin as [[= -> ->]|Hin]; [|by exists k', value'].
        apply cut_None in H. congruence.
    + split; [|eauto]. intros _. exists k, value. split; [by left|]. by apply cut_None.
Qed.

Lemma taintsLoop_ok (entries : list (string * string)) (taints ts : list Taint) :
  taintsLoop entries taints = Ok ts ->
  length ts = (length taints + length entries)%nat
  /\ forall t, t ∈ ts
       <-> t ∈ taints
           \/ ((Key t, Value t ++ String colon (Effect t)) ∈ entries
               /\ ~ occurs colon (Value t)).
Proof.
  revert taints. induction entries as [|[k value] rest IH]; intros taints; simpl.
  - intros [= ->]. split; [lia|]. intros t. split; [by left|].
    intros [?|[Hin _]]; [done|]. by apply elem_of_nil in Hin.
  - unfold SplitN2. destruct (cut colon value) as [[v e]|] eqn:C; [|done].
    intros H. destruct (IH _ H) as [Hlen Hts]. split.
    + rewrite Hlen, length_app. simpl. lia.
    + apply cut_Some in C as [-> Hn].
      intros t. rewrite Hts, elem_of_app, list_elem_of_singleton, elem_of_cons. split.
      * intros [[?| ->]|[? ?]]; [by left| |by right; split; [right|]].
        right. simpl. split; [by left|done].
      * intros [?|[[Heq|?] Ht]]; [by left;left| |by right].
        left. right. destruct t as [tk tv te]. simpl in Heq, Ht |- *.
        injection Heq as -> Hv.
        assert (Hc : cut colon (tv ++ String colon te) = Some (v, e)).
        { rewrite Hv. by apply cut_join. }
        rewrite cut_join in Hc by done. by simplify_eq.
Qed.

(** X23: buildTaints splits every value at its first colon. It fails exactly
    when some value holds no colon. Otherwise it returns one taint for each
    entry of the map, in the order the map is visited: the taints are those
    with the entry's key whose value and effect, joined by a colon, give the
    entry's value, the value holding no colon. *)
Theorem buildTaints_spec (kubeEnvTaints : gmap string string) :
  ((exists e, buildTaints kubeEnvTaints = Err e)
   <-> exists k value, kubeEnvTaints !! k = Some value /\ ~ occurs colon value)
  /\ (forall ts, buildTaints kubeEnvTaints = Ok ts ->
        length ts = size kubeEnvTaints
        /\ forall t, t ∈ ts
             <-> kubeEnvTaints !! Key t = Some (Value t ++ String colon (Effect t))
                 /\ ~ occurs colon (Value t)).
Proof.
  unfold buildTaints. split.
  - rewrite taintsLoop_err. by setoid_rewrite rangeOrder_elem.
  - intros ts H. apply taintsLoop_ok in H as [Hlen Hts]. split.
    + by rewrite Hlen, rangeOrder_length.
    + intros t. rewrite Hts, rangeOrder_elem. split; [|by right].
      intros [Hin|?]; [|done]. by apply elem_of_nil in Hin.
Qed.

(** *** The project and the zone *)

(** X24: the answer getProjectAndZone accepts. It returns a project and a
    zone exactly when the metadata server's answer for instance/zone has
    four parts between three slashes, the zone being the fourth, and the
    server also gives the project; the project is not read from the answer. *)
Theorem getProjectAndZone_iff (projectID zone : string) :
  getProjectAndZone = Ok (projectID, zone)
  <-> metadataProjectID = Ok projectID
      /\ exists a b c,
           metadataGet "instance/zone"
           = Ok (a ++ String slash (b ++ String slash (c ++ String slash zone)))
           /\ ~ occurs slash a /\ ~ occurs slash b /\ ~ occurs slash c
           /\ ~ occurs slash zone.
Proof.
  unfold getProjectAndZone. split.
  - destruct (metadataGet "instance/zone") as [response|]; [|done].
    destruct (Split_join slash response) as [Hj Hf].
    destruct (Split slash response) as [|a [|b [|c [|z [|? ?]]]]]; try done.
    destruct metadataProjectID as [p|]; [|done]. intros [= -> ->].
    split; [done|]. exists a, b, c. rewrite <- Hj.
    inversion Hf as [|? ? Ha Hf1]; inversion Hf1 as [|? ? Hb Hf2];
      inversion Hf2 as [|? ? Hc Hf3]; inversion Hf3 as [|? ? Hz _]; subst.
    done.
  - intros (Hp & a & b & c & -> & Ha & Hb & Hc & Hz).
    assert (E : Split slash (join slash [a; b; c; zone]) = [a; b; c; zone]).
    { apply Split_of_join; [done|]. by repeat constructor. }
    simpl in E. rewrite E, Hp. done.
Qed.

End Env.

(** *** A test double *)

Definition test_spec : autoprovisioningSpec :=
  mkSpec "n1-standard-2" (Some (<["team" := "infra"]> (<[LabelOS := "linux"]> ∅))).

Definition test_mig : Mig :=
  mkMig (testRef "nodeautoprovisioning-323233232") None 0%Z 1000%Z true false ""
    (Some test_spec).

Definition test_generic : gmap string string :=
  <[LabelHostname := "node-1"]>
    (<[LabelZoneFailureDomain := "us-central1-b"]>
       (<[LabelZoneRegion := "us-central1"]>
          (<[LabelInstanceType := "n1-standard-2"]>
             (<[LabelOS := "linux"]> (<[LabelArch := "amd64"]> ∅))))).

Definition test_kubeEnv : string :=
  join newline
    ["ENABLE_METADATA: true";
     "";
     "NODE_LABELS: a=b,c=d,cloud.google.com/gke-nodepool=pool-3";
     "NODE_TAINTS: 'dedicated=ml:NoSchedule,test=dev:PreferNoSchedule'"].

Definition test_taints : gmap string string :=
  <["dedicated" := "ml:NoSchedule"]> (<["test" := "dev:PreferNoSchedule"]> ∅).

Example extractLabelsFromKubeEnv_test :
  extractLabelsFromKubeEnv test_kubeEnv
  = Ok (<["a" := "b"]> (<["c" := "d"]> (<["cloud.google.com/gke-nodepool" := "pool-3"]> ∅))).
Proof. vm_compute. reflexivity. Qed.

Example extractFromKubeEnv_taints_test :
  extractFromKubeEnv test_kubeEnv "NODE_TAINTS" = Ok test_taints.
Proof. vm_compute. reflexivity. Qed.

Lemma buildLablesForAutoprovisionedMig_merge_witness :
  buildLablesForAutoprovisionedMig map_to_list test_mig "node-1"
  = Simulator.Return (Ok (<["team" := "infra"]> test_generic)).
Proof.
  assert (Hperm : forall m : gmap string string, map_to_list m ≡ₚ map_to_list m)
    by reflexivity.
  destruct (buildLablesForAutoprovisionedMig_merge map_to_list Hperm test_mig "node-1"
              test_spec test_generic) as [H _].
  - reflexivity.
  - vm_compute. reflexivity.
  - rewrite H.
    + vm_compute. reflexivity.
    + intros k v e Hk He. simpl in Hk.
      destruct (decide (k = "team")) as [->|Hne].
      * vm_compute in He. discriminate.
      * rewrite lookup_insert_ne in Hk by done.
        apply lookup_insert_Some in Hk as [[<- <-]|[_ Hk]]; [|by rewrite lookup_empty in Hk].
        vm_compute in He. congruence.
Defined.

Lemma extractFromKubeEnv_sound_witness :
  exists line i0 i1,
    line ∈ Split newline test_kubeEnv
    /\ cut colon (Trim [space] line) = Some (i0, i1)
    /\ Trim [space] i0 = "NODE_TAINTS"
    /\ "dedicated" ++ String equals "ml:NoSchedule" ∈ Split comma (Trim valueCutset i1)
    /\ ~ occurs equals "dedicated".
Proof.
  apply (extractFromKubeEnv_sound test_kubeEnv "NODE_TAINTS" test_taints
           "dedicated" "ml:NoSchedule").
  - vm_compute. reflexivity.
  - vm_compute. reflexivity.
Defined.

Lemma extractFromKubeEnv_round_trip_witness :
  extractFromKubeEnv
    (join newline
       (["ENABLE_METADATA: true"; ""]
        ++ [("NODE_LABELS"
             ++ String colon (String space (join comma (item <$> [("a", "b"); ("c", ""); ("a", "z")]))))%string]
        ++ ["NODE_TAINTS: 'dedicated=ml:NoSchedule'"; " "])%list)
    "NODE_LABELS"
  = Ok (list_to_map (reverse [("a", "b"); ("c", ""); ("a", "z")])).
Proof.
  apply (extractFromKubeEnv_round_trip "NODE_LABELS" [("a", "b"); ("c", ""); ("a", "z")]
           ["ENABLE_METADATA: true"; ""] ["NODE_TAINTS: 'dedicated=ml:NoSchedule'"; " "]).
  - discriminate.
  - reflexivity.
  - discriminate.
  - reflexivity.
  - reflexivity.
Defined.

Lemma buildTaints_spec_witness :
  ((exists e, buildTaints map_to_list test_taints = Err e)
   <-> exists k value, test_taints !! k = Some value /\ ~ occurs colon value)
  /\ (forall ts, buildTaints map_to_list test_taints = Ok ts ->
        length ts = size test_taints
        /\ forall t, t ∈ ts
             <-> test_taints !! Key t = Some (Value t ++ String colon (Effect t))
                 /\ ~ occurs colon (Value t)).
Proof.
  apply (buildTaints_spec map_to_list). intros m. reflexivity.
Defined.

End Templates.
